(** * Mutation-spectrum comparison of [notebooks/ms_figs.python.ipynb]

    A shallow embedding of [plot_mutation_spectrum], the one function of the
    notebook that carries logic: it counts mutation types in two tables of
    de novo mutations, tests every category of the first table for
    enrichment, corrects for multiple testing and turns the counts into
    fractions for a grouped bar chart.

    Conventions of the embedding:
    - a [pd.DataFrame] is the list of its rows, a row is a record of the two
      columns the function reads;
    - a [defaultdict(int)] is an association list; the order of the list
      stands for the order in which the dictionary is traversed, which
      decides the order of the p-values and of the bars. A new key goes to
      the end of the list, as in CPython from version 3.7 on. The notebook's
      metadata name a Python 2 kernel, where a dictionary is traversed in
      the order of its hash table instead. What is stated below about
      lengths, contents and sums does not depend on that order; where a
      statement is about the order itself, it is the order of the list;
    - counts are [Z]; p-values are exact rationals [Q]; the fractions computed
      by the numpy division are binary64 numbers ([PrimFloat.float]);
    - Python exceptions are the [Raise] results of a small error monad. *)

From Stdlib Require Import ZArith List String Ascii Bool Lia.
From Stdlib Require Import QArith Qabs.
From Stdlib Require Import Sorting.Sorted Sorting.Permutation.
From Stdlib Require Import Structures.OrderedTypeEx.
From Stdlib Require Import Floats.
Import ListNotations.

Set Warnings "-inexact-float".

Local Open Scope string_scope.
Local Open Scope Z_scope.
Local Open Scope list_scope.

(** ** Rows and data frames *)

(** A row of a DNM table, restricted to the columns read by
    [plot_mutation_spectrum]: [row['chrom']] and [row['mut']]. *)
Record row : Type := mkRow { chrom : string; mut : string }.

Definition DataFrame : Type := list row.

(** ** [collections.defaultdict(int)] *)

Module Dict.

(** Items in insertion order. *)
Definition t : Type := list (string * Z).

Definition empty : t := [].

Definition keys (d : t) : list string := map fst d.
Definition values (d : t) : list Z := map snd d.
Definition items (d : t) : list (string * Z) := d.

Fixpoint lookup (k : string) (d : t) : option Z :=
  match d with
  | [] => None
  | (k', v) :: r => if (k =? k')%string then Some v else lookup k r
  end.

(** [d[k]] as an expression: a missing key is created with the default
    [int() = 0], at the end of the insertion order, and then read. *)
Definition getitem (k : string) (d : t) : Z * t :=
  match lookup k d with
  | Some v => (v, d)
  | None => (0, d ++ [(k, 0)])
  end.

(** [d[k] = v]: an existing key keeps its place, a new one goes last. *)
Fixpoint setitem (k : string) (v : Z) (d : t) : t :=
  match d with
  | [] => [(k, v)]
  | (k', v') :: r =>
      if (k =? k')%string then (k', v) :: r else (k', v') :: setitem k v r
  end.

(** [d[k] += 1]: read (creating the key when missing), add, write back. *)
Definition incr (k : string) (d : t) : t :=
  let '(v, d1) := getitem k d in setitem k (v + 1) d1.

(** The count read by a lookup that defaults to zero without inserting. *)
Definition count (k : string) (d : t) : Z :=
  match lookup k d with Some v => v | None => 0 end.

(** Every stored count is positive, as in a dictionary built by
    increments only. *)
Definition positive (d : t) : Prop :=
  forall k v, lookup k d = Some v -> 0 < v.

End Dict.

(** Python's [sum] over a list of integers. *)
Definition sum (l : list Z) : Z := fold_left Z.add l 0.

(** ** The aggregation loops

    [[
    for i, row in df1.iterrows():
        if row['chrom'] == 'X': continue # only look at autosomes
        if not indels and row['mut'] == 'indel': continue
        a[row['mut']] += 1
    ]] *)

Definition count_row (indels : bool) (a : Dict.t) (r : row) : Dict.t :=
  if (chrom r =? "X")%string then a
  else if negb indels && (mut r =? "indel")%string then a
  else Dict.incr (mut r) a.

Definition count_mutations (indels : bool) (df : DataFrame) : Dict.t :=
  fold_left (count_row indels) df Dict.empty.

(** The rows of a frame that reach the increment, i.e. the filtered set. *)
Definition retained_row (indels : bool) (r : row) : bool :=
  if (chrom r =? "X")%string then false
  else if negb indels && (mut r =? "indel")%string then false
  else true.

Definition retained (indels : bool) (df : DataFrame) : DataFrame :=
  filter (retained_row indels) df.

(** *** The filtering policy in the words of the specification *)

(** A record is excluded when its chromosome label is exactly ["X"], or when
    its mutation type is ["indel"] and indels are excluded. *)
Definition spec_excluded (indels : bool) (r : row) : Prop :=
  chrom r = "X" \/ (mut r = "indel" /\ indels = false).

(** Number of records of [df] that are not excluded and carry label [m]. *)
Fixpoint spec_count (indels : bool) (m : string) (df : DataFrame) : Z :=
  match df with
  | [] => 0
  | r :: rest =>
      (if (chrom r =? "X")%string
          || ((mut r =? "indel")%string && negb indels)
       then 0
       else if (mut r =? m)%string then 1 else 0)
      + spec_count indels m rest
  end.

(** ** Exceptions *)

Inductive exn : Type :=
| ValueError      (* raised by [chi2_contingency] on a degenerate table,
                     and by [ax.bar] on arrays it cannot broadcast *)
| RuntimeError    (* a dictionary changed size while it was iterated *)
| IndexError      (* list index out of range *)
| ZeroDivisionError. (* Python's own division by zero; numpy's never *)

Inductive result (A : Type) : Type :=
| Ok (x : A)
| Raise (e : exn).
Arguments Ok {A} x.
Arguments Raise {A} e.

Definition bind {A B : Type} (r : result A) (k : A -> result B) : result B :=
  match r with
  | Ok x => k x
  | Raise e => Raise e
  end.

Notation "x <- r ;; k" := (bind r (fun x => k))
  (at level 61, r at next level, right associativity).
Notation "' pat <- r ;; k" := (bind r (fun x => match x with pat => k end))
  (at level 61, pat pattern, r at next level, right associativity).

(** A [for] loop whose body may raise. *)
Fixpoint for_each {S X : Type} (body : S -> X -> result S)
         (xs : list X) (s : S) : result S :=
  match xs with
  | [] => Ok s
  | x :: rest => s' <- body s x ;; for_each body rest s'
  end.

(** The same computation written as a traversal: one result per element. *)
Fixpoint traverse {X Y : Type} (f : X -> result Y) (xs : list X)
  : result (list Y) :=
  match xs with
  | [] => Ok []
  | x :: rest => y <- f x ;; ys <- traverse f rest ;; Ok (y :: ys)
  end.

(** [l[i]] on a Python list. *)
Definition getindex {A : Type} (l : list A) (i : nat) : result A :=
  match nth_error l i with
  | Some x => Ok x
  | None => Raise IndexError
  end.

(** ** The per-category test loop

    [scipy.stats.chi2_contingency] is a library function: the embedding takes
    it as a parameter [chi2] that maps the 2x2 table to the p-value (the
    second component of the tuple it returns, the only one the notebook
    uses) or raises.

    [[
    unadj_p_vals = []
    for i, change in enumerate(a):
        a_back = sum(a.values()) - a[change]
        a_fore = a[change]
        b_back = sum(b.values()) - b[change]
        b_fore = b[change]
        o_r, p, _, _ = ss.chi2_contingency([ [a_back, a_fore],
                                             [b_back, b_fore] ])
        unadj_p_vals.append((change, p))
    ]] *)

Definition table : Type := list (list Z).
Definition chi2_fun : Type := table -> result Q.

(** The state of the loop: both dictionaries and the list built so far. *)
Definition loop_state : Type := (Dict.t * Dict.t * list (string * Q))%type.

Definition enrichment_body (chi2 : chi2_fun) (size0 : nat)
           (st : loop_state) (change : string) : result loop_state :=
  let '(a, b, unadj_p_vals) := st in
  (* the iterator over [a] refuses to go on once [a] has changed size *)
  if negb (Nat.eqb (List.length a) size0) then Raise RuntimeError else
  let sum_a := sum (Dict.values a) in
  let '(a_change, a) := Dict.getitem change a in
  let a_back := sum_a - a_change in
  let '(a_fore, a) := Dict.getitem change a in
  let sum_b := sum (Dict.values b) in
  let '(b_change, b) := Dict.getitem change b in
  let b_back := sum_b - b_change in
  let '(b_fore, b) := Dict.getitem change b in
  p <- chi2 [[a_back; a_fore]; [b_back; b_fore]] ;;
  Ok (a, b, unadj_p_vals ++ [(change, p)]).

Definition enrichment_loop (chi2 : chi2_fun) (a b : Dict.t)
  : result loop_state :=
  st <- for_each (enrichment_body chi2 (List.length a)) (Dict.keys a)
                 (a, b, []) ;;
  (* the iterator makes the same check once more before it stops *)
  if negb (Nat.eqb (List.length (fst (fst st))) (List.length a))
  then Raise RuntimeError
  else Ok st.

(** What reading [b[k]] leaves of [b], and the same for a run of keys. *)
Definition touch (k : string) (b : Dict.t) : Dict.t := snd (Dict.getitem k b).

Definition touch_all (ks : list string) (b : Dict.t) : Dict.t :=
  fold_left (fun d k => touch k d) ks b.

(** Entries with count zero for a list of keys. *)
Definition zero_items (ks : list string) : Dict.t := map (fun k => (k, 0)) ks.

(** The table of category [c] in the words of the specification: rows for
    the sets A and B, one column with the category's own count and one with
    the remainder, a category missing from a mapping counting zero. *)
Definition spec_table (a b : Dict.t) (c : string) : table :=
  [[sum (Dict.values a) - Dict.count c a; Dict.count c a];
   [sum (Dict.values b) - Dict.count c b; Dict.count c b]].

(** The test of one category as the specification describes it: the
    p-value of the category's table, paired with the category. *)
Definition test_category (chi2 : chi2_fun) (a b : Dict.t) (c : string)
  : result (string * Q) :=
  p <- chi2 (spec_table a b c) ;; Ok (c, p).

(** *** What is assumed of [chi2_contingency]

    Two facts about the library function enter the proofs, each only where
    it is named as a hypothesis. Both are about tables of non-negative
    counts, the only ones the loop builds. *)

(** A table with an expected frequency of zero (a row or a column that sums
    to zero) is refused with a [ValueError]. *)
Definition raises_on_zero_margin (chi2 : chi2_fun) : Prop :=
  forall a b c d : Z,
    0 <= a -> 0 <= b -> 0 <= c -> 0 <= d ->
    a + b = 0 \/ c + d = 0 \/ a + c = 0 \/ b + d = 0 ->
    chi2 [[a; b]; [c; d]] = Raise ValueError.

(** Two equal rows with positive entries are as expected under
    independence: the statistic is zero and the p-value is one. *)
Definition one_on_equal_rows (chi2 : chi2_fun) : Prop :=
  forall x y : Z, 0 < x -> 0 < y -> chi2 [[x; y]; [x; y]] = Ok 1%Q.

(** A function that has both properties, used to run the embedding on
    concrete inputs. On a table that is neither degenerate nor exactly
    proportional it answers [1 / (1 + X2)] for the uncorrected statistic
    [X2], which is not the value scipy computes; no statement below depends
    on that branch's value being scipy's. *)
Definition chi2_proxy : chi2_fun :=
  fun t =>
    match t with
    | [[a; b]; [c; d]] =>
        if (a <? 0) || (b <? 0) || (c <? 0) || (d <? 0) then Raise ValueError
        else if (a + b =? 0) || (c + d =? 0) || (a + c =? 0) || (b + d =? 0)
        then Raise ValueError
        else
          let det := a * d - b * c in
          let margins := (a + b) * (c + d) * (a + c) * (b + d) in
          if det =? 0 then Ok 1%Q
          else Ok (Qmake margins
                         (Z.to_pos (margins + (a + b + c + d) * det * det)))
    | _ => Raise ValueError
    end.

(** ** Benjamini-Hochberg correction *)

(** Insertion sort, used for the p-values and for the dictionary items. *)
Fixpoint insert_by {A : Type} (leb : A -> A -> bool) (x : A) (l : list A)
  : list A :=
  match l with
  | [] => [x]
  | y :: r => if leb x y then x :: y :: r else y :: insert_by leb x r
  end.

Definition sort_by {A : Type} (leb : A -> A -> bool) (l : list A) : list A :=
  fold_right (insert_by leb) [] l.

(** The order a boolean comparison decides. *)
Definition leb_rel {A : Type} (leb : A -> A -> bool) (x y : A) : Prop :=
  leb x y = true.

(** The level [statsmodels.stats.multitest.fdrcorrection] uses when the
    caller passes none, as the notebook does. *)
Definition alpha_default : Q := 5 # 100.

(** The p-values that meet their own threshold [rank / n * alpha], the
    ranks counted from [rank] on over an ascending list. *)
Fixpoint bh_passing (alpha : Q) (n : Z) (rank : Z) (sorted_p : list Q)
  : list Q :=
  match sorted_p with
  | [] => []
  | p :: r =>
      let rest := bh_passing alpha n (rank + 1) r in
      if Qle_bool p ((rank # 1) / (n # 1) * alpha) then p :: rest else rest
  end.

(** The largest p-value that meets its threshold, when there is one. *)
Definition bh_cutoff (alpha : Q) (pvals : list Q) : option Q :=
  let sorted_p := sort_by Qle_bool pvals in
  let n := Z.of_nat (List.length pvals) in
  match rev (bh_passing alpha n 1 sorted_p) with
  | [] => None
  | c :: _ => Some c
  end.

(** Modelled from the spec: [statsmodels.stats.multitest.fdrcorrection] is a
    library function outside the repository. This is the Benjamini-Hochberg
    step-up procedure the specification names: order the p-values, find the
    largest one with [p_(k) <= k / n * alpha], and flag every hypothesis
    whose p-value is at most that one. Flags come back in the order of the
    input. Only the first component of the returned pair (the flags) is
    modelled; the notebook never reads the corrected p-values. *)
Definition fdrcorrection (pvals : list Q) (alpha : Q) : list bool :=
  match bh_cutoff alpha pvals with
  | None => map (fun _ => false) pvals
  | Some c => map (fun p => Qle_bool p c) pvals
  end.

(** ** Sorting the dictionaries

    [[
    a, b = {k:v for k,v in sorted(a.items())}, {k:v for k,v in sorted(b.items())}
    ]]
    Python compares the [(key, value)] tuples lexicographically. [sorted]
    is the list Python's [sorted] returns; [sort_dict] is the dictionary
    built from it, which is traversed in that order where dictionaries keep
    the order of insertion. *)

Definition item_leb (x y : string * Z) : bool :=
  match String.compare (fst x) (fst y) with
  | Lt => true
  | Eq => snd x <=? snd y
  | Gt => false
  end.

Definition sorted (items : list (string * Z)) : list (string * Z) :=
  sort_by item_leb items.

(** Lexicographic order on category labels, by character code. *)
Definition key_lt (k k' : string) : Prop := String.compare k k' = Lt.

(** A dictionary comprehension [{k:v for k,v in items}]. *)
Definition dict_of_items (items : list (string * Z)) : Dict.t :=
  fold_left (fun d kv => Dict.setitem (fst kv) (snd kv) d) items Dict.empty.

Definition sort_dict (d : Dict.t) : Dict.t :=
  dict_of_items (sorted (Dict.items d)).

(** ** Fractions

    [[
    a_frac = np.array(list(a.values())) / float(sum(list(a.values())))
    ]]
    The division is numpy's element-wise binary64 division: it follows
    IEEE 754 and returns [nan] or an infinity where Python's own [/] would
    raise [ZeroDivisionError]. *)

(** An integer below [2^63] in magnitude as a binary64 number. *)
Definition float_of_int (z : Z) : float :=
  if z <? 0 then PrimFloat.opp (PrimFloat.of_uint63 (Uint63.of_Z (- z)))
  else PrimFloat.of_uint63 (Uint63.of_Z z).

Definition fractions (d : Dict.t) : list float :=
  let total := float_of_int (sum (Dict.values d)) in
  map (fun v => PrimFloat.div (float_of_int v) total) (Dict.values d).

(** The same quotients in exact arithmetic (the denominator is made
    positive; a zero total has no exact quotient and is treated apart). *)
Definition exact_fractions (d : Dict.t) : list Q :=
  let total := sum (Dict.values d) in
  map (fun v => Qmake v (Z.to_pos total)) (Dict.values d).

Definition Qsum (l : list Q) : Q := fold_right Qplus 0%Q l.

(** *** The rounding of a quotient

    What IEEE 754 prescribes for the binary64 division of [v] by [t] when
    [0 <= v <= t < 2^53] and [0 < t]: both operands convert exactly, the
    quotient lies in the normal range, and the result is the quotient
    rounded to the nearest number with a 53-bit significand, ties to even.
    [div_nearest] writes that down in exact arithmetic; that the machine
    division computes it is proved from the library's specification of
    [PrimFloat.div]. *)

(** The integer nearest to [n / d], ties to even, for [0 <= n] and
    [0 < d]. *)
Definition round_half_even (n d : Z) : Z :=
  let q := n / d in
  match Z.compare (2 * (n mod d)) d with
  | Lt => q
  | Gt => q + 1
  | Eq => if Z.even q then q else q + 1
  end.

(** The [e] with [2^52 <= v * 2^e / t < 2^53], for [0 < v <= t]. *)
Definition quotient_exponent (v t : Z) : Z :=
  let e := 52 + Z.log2 t - Z.log2 v in
  if v * 2 ^ e <? 2 ^ 52 * t then e + 1 else e.

Definition div_nearest (v t : Z) : Q :=
  let e := quotient_exponent v t in
  Qmake (round_half_even (v * 2 ^ e) t) (Z.to_pos (2 ^ e)).

Definition nearest_fractions (d : Dict.t) : list Q :=
  let total := sum (Dict.values d) in
  map (fun v => div_nearest v total) (Dict.values d).

(** The rational a finite binary64 number stands for. *)
Definition Q_of_float (x : float) : option Q :=
  match Prim2SF x with
  | S754_zero _ => Some 0%Q
  | S754_finite s m e =>
      let mag := if 0 <=? e then Qmake (Zpos m * 2 ^ e) 1
                 else Qmake (Zpos m) (Z.to_pos (2 ^ (- e))) in
      Some (if s then Qopp mag else mag)
  | _ => None
  end.

(** The same on the representation the library specifies the operations
    on; [Q_of_float x] is [SF2Q (Prim2SF x)]. *)
Definition SF2Q (x : spec_float) : option Q :=
  match x with
  | S754_zero _ => Some 0%Q
  | S754_finite s m e =>
      let mag := if 0 <=? e then Qmake (Zpos m * 2 ^ e) 1
                 else Qmake (Zpos m) (Z.to_pos (2 ^ (- e))) in
      Some (if s then Qopp mag else mag)
  | _ => None
  end.

(** The position of the exact value between two neighbours after the
    last bit of [q] has been shifted out: the bit shifted out is the round
    bit, and what [l] said before is sticky. *)
Definition shifted_loc (q : Z) (l : location) : location :=
  match Z.odd q, l with
  | false, loc_Exact => loc_Exact
  | false, _ => loc_Inexact Lt
  | true, loc_Exact => loc_Inexact Eq
  | true, _ => loc_Inexact Gt
  end.


(** ** The world around a call

    What a call can reach besides its own locals: the data frames its
    arguments refer to, the output stream and matplotlib's figures.
    Calls on the figure and its axes are recorded with their arguments and
    not interpreted, with one exception: [ax.bar] checks that its positions
    and heights fit together, and raises when they do not. What else
    matplotlib may refuse (a colour name it does not know, a path it cannot
    write to) is outside the embedding. *)

(** A printed line, kept structured instead of formatted. *)
Inductive line : Type :=
| Text (s : string)
| Total (n_dnms : Z) (l : string)               (* "{} DNMs assigned to {}" *)
| Enrichment (starred : bool) (change : string) (u_p : Q).

(** A call on the figure or on its axes, with the arguments that vary. *)
Inductive call : Type :=
| Bar (x height : list float) (width : float) (label color : string)
| SetXticks (x : list float)
| SetXticklabels (l : list string)
| SetYlabel (s : string)
| SetXlabel (s : string)
| Legend
| Despine
| Savefig (path : string) (dpi : option Z).

Definition figure : Type := list call.

Record world : Type := mkWorld {
  frames : nat -> DataFrame;     (* the frame objects, by reference *)
  stdout : list line;
  figures : list figure
}.

(** State and exceptions: the world survives a raised exception. *)
Definition M (A : Type) : Type := world -> result A * world.

Definition ret {A : Type} (x : A) : M A := fun w => (Ok x, w).

Definition mbind {A B : Type} (m : M A) (k : A -> M B) : M B :=
  fun w =>
    match m w with
    | (Ok x, w') => k x w'
    | (Raise e, w') => (Raise e, w')
    end.

Definition lift {A : Type} (r : result A) : M A := fun w => (r, w).

Notation "x <-- m ;;; k" := (mbind m (fun x => k))
  (at level 61, m at next level, right associativity).
Notation "m ;;; k" := (mbind m (fun _ => k))
  (at level 61, right associativity).

Definition print (l : line) : M unit :=
  fun w => (Ok tt, mkWorld (frames w) (stdout w ++ [l]) (figures w)).

(** [plt.subplots(...)]: a new, empty figure; its number is the handle. *)
Definition subplots : M nat :=
  fun w => (Ok (List.length (figures w)),
            mkWorld (frames w) (stdout w) (figures w ++ [[]])).

Fixpoint add_call (fig : nat) (c : call) (figs : list figure) : list figure :=
  match figs, fig with
  | [], _ => []
  | f :: r, O => (f ++ [c]) :: r
  | f :: r, S n => f :: add_call n c r
  end.

Definition draw (fig : nat) (c : call) : M unit :=
  fun w => (Ok tt, mkWorld (frames w) (stdout w) (add_call fig c (figures w))).

(** [ax.bar(x, height, width, label=..., color=...)] is a library function.
    It broadcasts [x] and [height] against each other before it draws, by
    numpy's rule for one-dimensional arrays: two lengths fit when they are
    equal or one of them is one. Arrays that do not fit are refused with a
    [ValueError] ("shape mismatch: objects cannot be broadcast to a single
    shape") and nothing is drawn. *)
Definition broadcastable (n m : nat) : bool :=
  Nat.eqb n m || Nat.eqb n 1 || Nat.eqb m 1.

Definition bar (fig : nat) (x height : list float) (width : float)
           (label color : string) : M unit :=
  if broadcastable (List.length x) (List.length height)
  then draw fig (Bar x height width label color)
  else lift (Raise ValueError).

(** [df.iterrows()]: the rows of the frame [df] refers to, read only. *)
Definition iterrows (df : nat) : M (list row) :=
  fun w => (Ok (frames w df), w).

Fixpoint mfor {X : Type} (body : X -> M unit) (xs : list X) : M unit :=
  match xs with
  | [] => ret tt
  | x :: rest => body x ;;; mfor body rest
  end.

(** ** [plot_mutation_spectrum] *)

Definition default_labels : list string := ["a"; "b"].
Definition default_colors : list string := ["#66c2a5"; "#fc8d62"].

(** [np.arange(n)], and an array plus a scalar. *)
Definition arange (n : nat) : list float :=
  map (fun i => float_of_int (Z.of_nat i)) (seq 0 n).

Definition add_scalar (xs : list float) (c : float) : list float :=
  map (fun x => PrimFloat.add x c) xs.

Definition width : float := 0.425%float.

(** The locals a call ends with; the function itself returns [None], and
    everything it reports or draws is computed from these. *)
Record locals : Type := mkLocals {
  counts_a : Dict.t;               (* [a] after the aggregation loop *)
  counts_b : Dict.t;               (* [b] after the aggregation loop *)
  unadj_p_vals : list (string * Q);
  signif : list bool;
  sorted_a : Dict.t;               (* [a] after the sort *)
  sorted_b : Dict.t;               (* [b] after the sort *)
  a_frac : list float;
  b_frac : list float
}.

(** [[
    for i,d in enumerate((a,b)):
        n_dnms = sum([t[-1] for t in d.items()])
        l = labels[i]
        print ('{} DNMs assigned to {}'.format(n_dnms, l))
    ]] *)
Definition report_totals (labels : list string) (a b : Dict.t) : M unit :=
  mfor (fun id : nat * Dict.t =>
          let n_dnms := sum (map snd (Dict.items (snd id))) in
          l <-- lift (getindex labels (fst id)) ;;;
          print (Total n_dnms l))
       [(0%nat, a); (1%nat, b)].

(** [[
    for i,sig in enumerate(signif):
        u_p = unadj_p_vals[i][-1]
        change = unadj_p_vals[i][0]
        if bool(sig) is True: print ("* {}: unadjusted p-value = {}"...)
        else: print ("{}: unadjusted p-value = {}"...)
    ]] *)
Definition report_enrichment (signif : list bool)
           (unadj_p_vals : list (string * Q)) : M unit :=
  mfor (fun isig : nat * bool =>
          cp <-- lift (getindex unadj_p_vals (fst isig)) ;;;
          print (Enrichment (snd isig) (fst cp) (snd cp)))
       (combine (seq 0 (List.length signif)) signif).

Definition plot_mutation_spectrum (chi2 : chi2_fun) (df1 df2 : nat)
           (labels colors : list string) (indels : bool)
           (save : option string) : M locals :=
  ax <-- subplots ;;;
  rows1 <-- iterrows df1 ;;;
  let a := count_mutations indels rows1 in
  rows2 <-- iterrows df2 ;;;
  let b := count_mutations indels rows2 in
  print (Text "Numbers of DNMs in each category:") ;;;
  report_totals labels a b ;;;
  print (Text "") ;;;
  print (Text "Mutation enrichment:") ;;;
  st <-- lift (enrichment_loop chi2 a b) ;;;
  let '(a1, b1, unadj) := st in
  let sig := fdrcorrection (map snd unadj) alpha_default in
  report_enrichment sig unadj ;;;
  let a2 := sort_dict a1 in
  let b2 := sort_dict b1 in
  let a_fr := fractions a2 in
  let b_fr := fractions b2 in
  let idx := arange (List.length a_fr) in
  label0 <-- lift (getindex labels 0) ;;;
  color0 <-- lift (getindex colors 0) ;;;
  bar ax idx a_fr width label0 color0 ;;;
  label1 <-- lift (getindex labels 1) ;;;
  color1 <-- lift (getindex colors 1) ;;;
  bar ax (add_scalar idx width) b_fr width label1 color1 ;;;
  draw ax (SetXticks (add_scalar idx (PrimFloat.div width 2%float))) ;;;
  draw ax (SetXticklabels (Dict.keys a2)) ;;;
  draw ax (SetYlabel "Fraction") ;;;
  draw ax (SetXlabel "Mutation type") ;;;
  draw ax Legend ;;;
  draw ax Despine ;;;
  match save with
  | None => ret tt
  | Some name =>
      draw ax (Savefig ("../figs/" ++ name ++ ".eps")%string None) ;;;
      draw ax (Savefig ("../figs/" ++ name ++ ".png")%string (Some 200))
  end ;;;
  ret (mkLocals a b unadj sig a2 b2 a_fr b_fr).

(** What a call computes, as a function of its arguments and of the rows
    of the two frames alone: the result of [plot_mutation_spectrum] without
    the world it runs in. The two-element lists are indexed as in the
    source, [labels] while the totals are reported and again, with [colors],
    for the bars; the second [ax.bar] gets as many positions as the first
    set has categories and as many heights as the second. *)
Definition spectrum_result (chi2 : chi2_fun) (labels colors : list string)
           (indels : bool) (rows1 rows2 : list row) : result locals :=
  let a := count_mutations indels rows1 in
  let b := count_mutations indels rows2 in
  _ <- getindex labels 0 ;;
  _ <- getindex labels 1 ;;
  st <- enrichment_loop chi2 a b ;;
  let '(a1, b1, unadj) := st in
  let sig := fdrcorrection (map snd unadj) alpha_default in
  let a2 := sort_dict a1 in
  let b2 := sort_dict b1 in
  _ <- getindex colors 0 ;;
  _ <- getindex colors 1 ;;
  if broadcastable (List.length a2) (List.length b2)
  then Ok (mkLocals a b unadj sig a2 b2 (fractions a2) (fractions b2))
  else Raise ValueError.

(** A computation that reads the frames and leaves them as they are, and
    whose result is the function [r] of the frames alone. *)
Definition reads_only {A : Type} (m : M A)
           (r : (nat -> DataFrame) -> result A) : Prop :=
  forall w : world, fst (m w) = r (frames w) /\ frames (snd (m w)) = frames w.

(** ** Concrete inputs

    Two small frames of autosomal substitutions and a world that holds them
    under the references [0] and [1], for the statements that run the
    embedding. *)

Definition autosomal (muts : list string) : DataFrame := map (mkRow "1") muts.

Definition example_df1 : DataFrame := autosomal ["T>C"; "T>C"; "T>C"; "T>A"].
Definition example_df2 : DataFrame := autosomal ["T>C"; "T>A"; "T>A"; "T>A"].

(** A fresh world whose references [0] and [1] hold the given rows. *)
Definition world_of (rows1 rows2 : DataFrame) : world :=
  mkWorld (fun df => match df with O => rows1 | _ => rows2 end) [] [].

Definition example_world : world := world_of example_df1 example_df2.

(** The two mappings of the normalization scenario. *)
Definition scenario_A : Dict.t := [("T>C", 10); ("T>A", 5)].
Definition scenario_B : Dict.t := [("T>C", 5); ("T>A", 10)].

(** Agreement of two vectors of binary64 numbers up to a tolerance. *)
Definition close_to (tol : float) (xs ys : list float) : bool :=
  Nat.eqb (List.length xs) (List.length ys)
  && forallb (fun xy => PrimFloat.leb
                          (PrimFloat.abs (PrimFloat.sub (fst xy) (snd xy)))
                          tol)
             (combine xs ys).

(** ** Further definitions: the tables, the report and the figure *)

(** A 2x2 table of counts whose rows add up to [na] and [nb], with a
    positive count in the second column of the first row. *)
Definition count_table (na nb : Z) (t : table) : Prop :=
  exists x y z u : Z,
    t = [[x; y]; [z; u]] /\
    0 <= x /\ 0 < y /\ 0 <= z /\ 0 <= u /\ x + y = na /\ z + u = nb.

(** The lines a call prints before the tests, for [labels = l0 :: l1 :: _]. *)
Definition totals_lines (l0 l1 : string) (a b : Dict.t) : list line :=
  [Text "Numbers of DNMs in each category:";
   Total (sum (Dict.values a)) l0;
   Total (sum (Dict.values b)) l1;
   Text "";
   Text "Mutation enrichment:"].

(** One line per test, starred when the test is flagged. *)
Definition enrichment_lines (sig : list bool) (unadj : list (string * Q))
  : list line :=
  map (fun sp => Enrichment (fst sp) (fst (snd sp)) (snd (snd sp)))
      (combine sig unadj).

(** The calls a returning call makes on its axes and figure. *)
Definition figure_calls (l0 l1 c0 c1 : string) (save : option string)
           (a2 b2 : Dict.t) : figure :=
  let idx := arange (List.length (fractions a2)) in
  [Bar idx (fractions a2) width l0 c0;
   Bar (add_scalar idx width) (fractions b2) width l1 c1;
   SetXticks (add_scalar idx (PrimFloat.div width 2%float));
   SetXticklabels (Dict.keys a2);
   SetYlabel "Fraction"; SetXlabel "Mutation type"; Legend; Despine]
  ++ match save with
     | None => []
     | Some name =>
         [Savefig ("../figs/" ++ name ++ ".eps")%string None;
          Savefig ("../figs/" ++ name ++ ".png")%string (Some 200)]
     end.

(** A world that a call started in [w0] can be in: the frames are those of
    [w0], the output of [w0] has only been added to, and there is one
    figure more than in [w0], the earlier ones as they were. *)
Definition extends (w0 w : world) : Prop :=
  frames w = frames w0 /\
  (exists out, stdout w = stdout w0 ++ out) /\
  (exists f, figures w = figures w0 ++ [f]).

(** ** The cells that call [plot_mutation_spectrum]

    The notebook calls the function on subsets of its tables: rows selected
    by parent of origin or by the age of a parent at birth, and a table
    with repeated sites removed. *)

(** A row of a DNM table with the further columns the cells select on.
    The phase is absent for a DNM that was not phased; a missing age is a
    NaN, as pandas reads it. *)
Record dnm : Type := mkDnm {
  dnm_chrom : string;
  dnm_start : Z;
  dnm_end : Z;
  dnm_mut : string;
  dnm_phase : option string;
  paternal_age_at_birth : float;
  maternal_age_at_birth : float
}.

(** The two columns [plot_mutation_spectrum] reads. *)
Definition as_rows (df : list dnm) : DataFrame :=
  map (fun d => mkRow (dnm_chrom d) (dnm_mut d)) df.

(** [df.query(cond)]: the rows for which the condition holds, in order. *)
Definition query (cond : dnm -> bool) (df : list dnm) : list dnm :=
  filter cond df.

(** [phase == "v"]; a missing phase equals nothing. *)
Definition phase_is (v : string) (d : dnm) : bool :=
  match dnm_phase d with
  | Some q => (q =? v)%string
  | None => false
  end.

(** [col < c], [col <= c] and [col >= c] on binary64 numbers; every
    comparison with a NaN is false. *)
Definition age_lt (col : dnm -> float) (c : float) (d : dnm) : bool :=
  PrimFloat.ltb (col d) c.
Definition age_le (col : dnm -> float) (c : float) (d : dnm) : bool :=
  PrimFloat.leb (col d) c.
Definition age_ge (col : dnm -> float) (c : float) (d : dnm) : bool :=
  PrimFloat.leb c (col d).

(** The two sets of
    [plot_mutation_spectrum(df.query('phase == "paternal"'),
                            df.query('phase == "maternal"'), ...)]. *)
Definition phase_sets (df : list dnm) : list dnm * list dnm :=
  (query (phase_is "paternal") df, query (phase_is "maternal") df).

(** The two sets of
    [plot_mutation_spectrum(df.query('col < c'), df.query('col >= c'), ...)],
    called with the median age for [c]. *)
Definition median_sets (col : dnm -> float) (c : float) (df : list dnm)
  : list dnm * list dnm :=
  (query (age_lt col c) df, query (age_ge col c) df).

(** The two sets of
    [plot_mutation_spectrum(df.query('col <= lo'), df.query('col >= hi'),
    ...)], called with the lower and the upper quartile. *)
Definition quartile_sets (col : dnm -> float) (lo hi : float) (df : list dnm)
  : list dnm * list dnm :=
  (query (age_le col lo) df, query (age_ge col hi) df).

(** [df.drop_duplicates(['chrom', 'start', 'end'])]: of the rows with the
    same three values the first one is kept. *)
Definition site : Type := (string * Z * Z)%type.

Definition site_of (d : dnm) : site := (dnm_chrom d, dnm_start d, dnm_end d).

Definition site_eqb (s t : site) : bool :=
  (fst (fst s) =? fst (fst t))%string
  && (snd (fst s) =? snd (fst t)) && (snd s =? snd t).

Fixpoint drop_duplicates_seen (seen : list site) (df : list dnm)
  : list dnm :=
  match df with
  | [] => []
  | d :: r =>
      if existsb (site_eqb (site_of d)) seen then drop_duplicates_seen seen r
      else d :: drop_duplicates_seen (site_of d :: seen) r
  end.

Definition drop_duplicates (df : list dnm) : list dnm :=
  drop_duplicates_seen [] df.

(** The total a call reports for a set of rows. *)
Definition reported_total (indels : bool) (df : list dnm) : Z :=
  sum (Dict.values (count_mutations indels (as_rows df))).

(** A DNM that is not on chromosome X. *)
Definition is_autosomal (d : dnm) : bool :=
  negb (dnm_chrom d =? "X")%string.

(** The number of rows with a property. *)
Definition number_of (p : dnm -> bool) (df : list dnm) : Z :=
  Z.of_nat (List.length (filter p df)).

(** A small table of DNMs: an X-linked row, a repeated site, an unphased
    row whose paternal age is missing. *)
Definition example_dnms : list dnm :=
  [ mkDnm "1" 100 101 "C>T" (Some "paternal") 31.5%float 28.0%float;
    mkDnm "2" 200 201 "indel" (Some "maternal") 24.1%float 22.5%float;
    mkDnm "X" 300 301 "C>T" (Some "paternal") 29.2%float 25.7%float;
    mkDnm "1" 100 101 "C>T" None nan 26.4%float;
    mkDnm "3" 400 401 "A>G" (Some "maternal") 36.0%float 31.4%float ].

(** * Properties *)

(** ** Facts about the dictionary operations *)

Module DictFacts.
Import Dict.

Lemma lookup_app (k : string) (d e : t) :
  lookup k (d ++ e) =
  match lookup k d with Some v => Some v | None => lookup k e end.
Proof.
  induction d as [|[k' v'] d IH]; simpl; [reflexivity|].
  destruct (k =? k')%string; [reflexivity | exact IH].
Qed.

Lemma lookup_setitem (k k' : string) (v : Z) (d : t) :
  lookup k' (setitem k v d) =
  if (k' =? k)%string then Some v else lookup k' d.
Proof.
  induction d as [|[k0 v0] d IH]; simpl.
  - reflexivity.
  - destruct (String.eqb_spec k k0) as [->|Hne]; simpl.
    + destruct (k' =? k0)%string; reflexivity.
    + rewrite IH.
      destruct (String.eqb_spec k' k0) as [->|Hne']; [|reflexivity].
      destruct (String.eqb_spec k0 k); [congruence | reflexivity].
Qed.

Lemma lookup_None_keys (k : string) (d : t) :
  lookup k d = None <-> ~ In k (keys d).
Proof.
  induction d as [|[k' v'] d IH]; simpl.
  - tauto.
  - destruct (String.eqb_spec k k') as [->|Hne].
    + split; [discriminate | tauto].
    + rewrite IH. split; [intros H [E|H']; [congruence|tauto] | tauto].
Qed.

Lemma lookup_Some_keys (k : string) (d : t) :
  (exists v, lookup k d = Some v) <-> In k (keys d).
Proof.
  induction d as [|[k' v'] d IH]; simpl.
  - split; [intros [v H]; discriminate | tauto].
  - destruct (String.eqb_spec k k') as [->|Hne].
    + split; [tauto | intros _; eauto].
    + rewrite IH. split; [tauto | intros [E|H]; [congruence | exact H]].
Qed.

Lemma getitem_present (k : string) (d : t) :
  In k (keys d) -> getitem k d = (count k d, d).
Proof.
  intros H. apply lookup_Some_keys in H as [v Hv].
  unfold getitem, count. rewrite Hv. reflexivity.
Qed.

Lemma getitem_fst (k : string) (d : t) : fst (getitem k d) = count k d.
Proof. unfold getitem, count. destruct (lookup k d); reflexivity. Qed.

Lemma getitem_snd_absent (k : string) (d : t) :
  ~ In k (keys d) -> snd (getitem k d) = d ++ [(k, 0)].
Proof.
  intros H. apply lookup_None_keys in H. unfold getitem. rewrite H.
  reflexivity.
Qed.

Lemma keys_getitem (k : string) (d : t) :
  In k (keys (snd (getitem k d))).
Proof.
  unfold getitem. destruct (lookup k d) eqn:E; simpl.
  - apply lookup_Some_keys. eauto.
  - unfold keys. rewrite map_app. apply in_or_app. right. simpl. auto.
Qed.

Lemma lookup_incr (k k' : string) (d : t) :
  lookup k' (incr k d) =
  if (k' =? k)%string then Some (count k d + 1) else lookup k' d.
Proof.
  unfold incr, getitem, count.
  destruct (lookup k d) eqn:E; rewrite lookup_setitem.
  - reflexivity.
  - destruct (String.eqb_spec k' k) as [->|Hne]; [reflexivity|].
    rewrite lookup_app. destruct (lookup k' d); [reflexivity|].
    simpl. destruct (String.eqb_spec k' k); [congruence | reflexivity].
Qed.

Lemma count_incr (k k' : string) (d : t) :
  count k' (incr k d) = count k' d + (if (k' =? k)%string then 1 else 0).
Proof.
  unfold count at 1. rewrite lookup_incr.
  destruct (String.eqb_spec k' k) as [->|Hne]; [reflexivity|].
  unfold count. lia.
Qed.

Lemma positive_incr (k : string) (d : t) :
  positive d -> positive (incr k d).
Proof.
  intros Hd k' v. rewrite lookup_incr.
  destruct (String.eqb_spec k' k) as [->|Hne].
  - intros [= <-]. unfold count.
    destruct (lookup k d) eqn:E; [apply Hd in E|]; lia.
  - apply Hd.
Qed.

Lemma keys_setitem_present (k : string) (v : Z) (d : t) :
  In k (keys d) -> keys (setitem k v d) = keys d.
Proof.
  induction d as [|[k' v'] d IH]; simpl; [tauto|].
  destruct (String.eqb_spec k k') as [->|Hne]; simpl; [reflexivity|].
  intros [E|H]; [congruence|]. now rewrite IH.
Qed.

Lemma keys_setitem_absent (k : string) (v : Z) (d : t) :
  ~ In k (keys d) -> setitem k v d = d ++ [(k, v)].
Proof.
  induction d as [|[k' v'] d IH]; simpl; [reflexivity|].
  intros H. destruct (String.eqb_spec k k') as [->|Hne]; [tauto|].
  rewrite IH by tauto. reflexivity.
Qed.

Lemma NoDup_keys_incr (k : string) (d : t) :
  NoDup (keys d) -> NoDup (keys (incr k d)).
Proof.
  intros Hd. unfold incr, getitem.
  destruct (lookup k d) eqn:E.
  - rewrite keys_setitem_present; [exact Hd|].
    apply lookup_Some_keys. eauto.
  - assert (Hk : ~ In k (keys d)) by now apply lookup_None_keys.
    rewrite keys_setitem_present.
    + unfold keys. rewrite map_app. simpl.
      apply NoDup_app; [exact Hd | repeat constructor; simpl; tauto |].
      intros x Hx [<-|[]]. tauto.
    + unfold keys. rewrite map_app. apply in_or_app. right. simpl. auto.
Qed.

End DictFacts.

(** ** The aggregator *)

Section Aggregator.
Import Dict DictFacts.
Variable indels : bool.

Lemma count_row_retained (a : Dict.t) (r : row) :
  count_row indels a r =
  if retained_row indels r then Dict.incr (mut r) a else a.
Proof.
  unfold count_row, retained_row.
  destruct (chrom r =? "X")%string; [reflexivity|].
  destruct (negb indels && (mut r =? "indel")%string); reflexivity.
Qed.

Lemma retained_row_spec (r : row) :
  retained_row indels r = false <-> spec_excluded indels r.
Proof.
  unfold retained_row, spec_excluded.
  destruct (String.eqb_spec (chrom r) "X") as [HX|HX].
  - tauto.
  - destruct (String.eqb_spec (mut r) "indel") as [Hi|Hi];
      destruct indels; simpl; split;
      try tauto; try discriminate; intros [?|[? ?]];
      try reflexivity; congruence.
Qed.

Lemma spec_count_nonneg (m : string) (df : DataFrame) :
  0 <= spec_count indels m df.
Proof.
  induction df as [|r df IH]; simpl; [lia|].
  destruct ((chrom r =? "X")%string
            || ((mut r =? "indel")%string && negb indels));
    [|destruct (mut r =? m)%string]; lia.
Qed.

Lemma spec_count_step (m : string) (r : row) :
  (if (chrom r =? "X")%string
      || ((mut r =? "indel")%string && negb indels)
   then 0
   else if (mut r =? m)%string then 1 else 0)
  = if retained_row indels r
    then (if (m =? mut r)%string then 1 else 0) else 0.
Proof.
  unfold retained_row. rewrite (String.eqb_sym m (mut r)).
  destruct (chrom r =? "X")%string; simpl; [reflexivity|].
  rewrite andb_comm. destruct (negb indels && (mut r =? "indel")%string);
    reflexivity.
Qed.

(** The loop adds to the starting dictionary exactly the counts of the
    retained rows. *)
Lemma count_fold (df : DataFrame) :
  forall (a : Dict.t) (m : string),
    count m (fold_left (count_row indels) df a)
    = count m a + spec_count indels m df.
Proof.
  induction df as [|r df IH]; intros a m; simpl; [lia|].
  rewrite IH, spec_count_step, count_row_retained.
  destruct (retained_row indels r); [rewrite count_incr|]; lia.
Qed.

Lemma positive_fold (df : DataFrame) :
  forall a : Dict.t,
    positive a -> positive (fold_left (count_row indels) df a).
Proof.
  induction df as [|r df IH]; intros a Ha; simpl; [exact Ha|].
  apply IH. rewrite count_row_retained.
  destruct (retained_row indels r); [now apply positive_incr | exact Ha].
Qed.

Lemma NoDup_fold (df : DataFrame) :
  forall a : Dict.t,
    NoDup (keys a) -> NoDup (keys (fold_left (count_row indels) df a)).
Proof.
  induction df as [|r df IH]; intros a Ha; simpl; [exact Ha|].
  apply IH. rewrite count_row_retained.
  destruct (retained_row indels r); [now apply NoDup_keys_incr | exact Ha].
Qed.

Lemma positive_count_mutations (df : DataFrame) :
  positive (count_mutations indels df).
Proof. apply positive_fold. intros k v; discriminate. Qed.

Lemma NoDup_count_mutations (df : DataFrame) :
  NoDup (keys (count_mutations indels df)).
Proof. apply NoDup_fold. constructor. Qed.

Lemma lookup_count_mutations (df : DataFrame) (m : string) :
  lookup m (count_mutations indels df)
  = if 0 <? spec_count indels m df
    then Some (spec_count indels m df) else None.
Proof.
  pose proof (count_fold df empty m) as Hc.
  pose proof (positive_count_mutations df m) as Hp.
  fold (count_mutations indels df) in Hc.
  unfold count in Hc. simpl in Hc.
  destruct (lookup m (count_mutations indels df)) as [v|].
  - specialize (Hp v eq_refl). subst v.
    destruct (Z.ltb_spec 0 (spec_count indels m df)); [reflexivity | lia].
  - rewrite <- Hc. reflexivity.
Qed.

Lemma fold_retained (df : DataFrame) :
  forall a : Dict.t,
    fold_left (count_row indels) (retained indels df) a
    = fold_left (count_row indels) df a.
Proof.
  induction df as [|r df IH]; intros a; simpl; [reflexivity|].
  rewrite (count_row_retained a r).
  destruct (retained_row indels r) eqn:E; simpl; [|apply IH].
  rewrite IH, count_row_retained, E. reflexivity.
Qed.

Lemma retained_idem (df : DataFrame) :
  retained indels (retained indels df) = retained indels df.
Proof.
  induction df as [|r df IH]; simpl; [reflexivity|].
  destruct (retained_row indels r) eqn:E; simpl; [|exact IH].
  rewrite E, IH. reflexivity.
Qed.

End Aggregator.

(** C1. For both input frames and either indel policy, a record is left
    out exactly when its chromosome label is ["X"] or its mutation type is
    ["indel"] while indels are excluded; the dictionary the loop builds maps
    each label to the number of retained records that carry it (labels with
    no retained record are absent); on the three-record scenario with indels
    excluded the dictionary is [{"T>C": 1}]. Labels other than ["X"], such
    as ["Y"] or ["chrX"], are kept, and with indels included the scenario
    counts its indel. *)
Theorem aggregator_filters_and_counts :
  forall (indels : bool) (df1 df2 : DataFrame),
    (forall (a : Dict.t) (r : row),
        (spec_excluded indels r -> count_row indels a r = a) /\
        (~ spec_excluded indels r ->
         count_row indels a r = Dict.incr (mut r) a)) /\
    (forall m : string,
        Dict.lookup m (count_mutations indels df1)
        = if 0 <? spec_count indels m df1
          then Some (spec_count indels m df1) else None) /\
    (forall m : string,
        Dict.lookup m (count_mutations indels df2)
        = if 0 <? spec_count indels m df2
          then Some (spec_count indels m df2) else None) /\
    NoDup (Dict.keys (count_mutations indels df1)) /\
    NoDup (Dict.keys (count_mutations indels df2)) /\
    count_mutations false
      [mkRow "1" "T>C"; mkRow "X" "T>C"; mkRow "1" "indel"]
    = [("T>C", 1)] /\
    count_mutations false [mkRow "Y" "T>C"; mkRow "chrX" "T>C"]
    = [("T>C", 2)] /\
    count_mutations true
      [mkRow "1" "T>C"; mkRow "X" "T>C"; mkRow "1" "indel"]
    = [("T>C", 1); ("indel", 1)].
Proof.
  intros indels df1 df2. repeat split.
  - intros Hex. rewrite count_row_retained.
    apply retained_row_spec in Hex. now rewrite Hex.
  - intros Hex. rewrite count_row_retained.
    destruct (retained_row indels r) eqn:E; [reflexivity|].
    apply retained_row_spec in E. contradiction.
  - apply lookup_count_mutations.
  - apply lookup_count_mutations.
  - apply NoDup_count_mutations.
  - apply NoDup_count_mutations.
Qed.

(** C5. For every frame and either indel policy the filter is idempotent:
    filtering the retained rows again keeps all of them, and counting over
    the retained rows gives the same dictionary as counting over the frame. *)
Theorem filter_idempotent :
  forall (indels : bool) (df : DataFrame),
    retained indels (retained indels df) = retained indels df /\
    count_mutations indels (retained indels df) = count_mutations indels df /\
    count_mutations indels (retained indels (retained indels df))
    = count_mutations indels (retained indels df).
Proof.
  intros indels df. split; [apply retained_idem|].
  split; [apply fold_retained|].
  now rewrite retained_idem.
Qed.

(** ** The test loop *)

Section EnrichmentLoop.
Import Dict DictFacts.
Variable chi2 : chi2_fun.

Lemma fold_add_acc (l : list Z) :
  forall acc, fold_left Z.add l acc = acc + fold_left Z.add l 0.
Proof.
  induction l as [|x l IH]; intros acc; simpl; [lia|].
  rewrite (IH (acc + x)), (IH x). lia.
Qed.

Lemma sum_app (l l' : list Z) : sum (l ++ l') = sum l + sum l'.
Proof. unfold sum. rewrite fold_left_app. apply fold_add_acc. Qed.

Lemma sum_cons (x : Z) (l : list Z) : sum (x :: l) = x + sum l.
Proof. change (x :: l) with ([x] ++ l). rewrite sum_app. reflexivity. Qed.

Lemma count_touch (k c : string) (b : Dict.t) :
  count c (touch k b) = count c b.
Proof.
  unfold touch, getitem, count.
  destruct (lookup k b) eqn:E; simpl; [reflexivity|].
  rewrite lookup_app. destruct (lookup c b); [reflexivity|]. simpl.
  destruct (c =? k)%string; reflexivity.
Qed.

Lemma sum_touch (k : string) (b : Dict.t) :
  sum (values (touch k b)) = sum (values b).
Proof.
  unfold touch, getitem. destruct (lookup k b); simpl; [reflexivity|].
  unfold values. rewrite map_app, sum_app. simpl. unfold sum at 2. simpl.
  lia.
Qed.

Lemma spec_table_touch (a b : Dict.t) (k c : string) :
  spec_table a (touch k b) c = spec_table a b c.
Proof. unfold spec_table. now rewrite sum_touch, count_touch. Qed.

Lemma keys_touch (k : string) (b : Dict.t) : In k (keys (touch k b)).
Proof. apply keys_getitem. Qed.

Lemma getitem_touch (k : string) (b : Dict.t) :
  getitem k b = (count k b, touch k b).
Proof.
  unfold touch. rewrite <- getitem_fst. now destruct (getitem k b).
Qed.

(** One turn of the loop, for a key of [a]: [a] is only read, [b] is
    touched, and the p-value of the specification's table is appended. *)
Lemma enrichment_body_eq (a b : Dict.t) (u : list (string * Q))
      (change : string) :
  In change (keys a) ->
  enrichment_body chi2 (List.length a) (a, b, u) change
  = (p <- chi2 (spec_table a b change) ;;
     Ok (a, touch change b, u ++ [(change, p)])).
Proof.
  intros Hin. unfold enrichment_body.
  rewrite Nat.eqb_refl. simpl negb. cbv beta iota zeta.
  rewrite (getitem_present change a Hin). cbv beta iota zeta.
  rewrite (getitem_present change a Hin). cbv beta iota zeta.
  rewrite (getitem_touch change b). cbv beta iota zeta.
  rewrite (getitem_present change (touch change b) (keys_touch change b)).
  cbv beta iota zeta. rewrite count_touch. reflexivity.
Qed.

Lemma traverse_ext {X Y : Type} (f g : X -> result Y) (xs : list X) :
  (forall x, In x xs -> f x = g x) -> traverse f xs = traverse g xs.
Proof.
  induction xs as [|x xs IH]; intros H; simpl; [reflexivity|].
  rewrite (H x) by (simpl; auto). rewrite IH; [reflexivity|].
  intros y Hy. apply H. simpl. auto.
Qed.

Lemma for_each_enrichment (a : Dict.t) (ks : list string) :
  forall (b : Dict.t) (u : list (string * Q)),
    incl ks (keys a) ->
    for_each (enrichment_body chi2 (List.length a)) ks (a, b, u)
    = (ps <- traverse (test_category chi2 a b) ks ;;
       Ok (a, fold_left (fun d k => touch k d) ks b, u ++ ps)).
Proof.
  induction ks as [|k ks IH]; intros b u Hincl.
  - simpl. now rewrite app_nil_r.
  - cbn [for_each traverse fold_left].
    rewrite enrichment_body_eq by (apply Hincl; simpl; auto).
    unfold test_category at 1.
    destruct (chi2 (spec_table a b k)) as [p|e]; cbn [bind];
      [|reflexivity].
    rewrite IH by (intros x Hx; apply Hincl; simpl; auto).
    rewrite (traverse_ext (test_category chi2 a (touch k b))
                          (test_category chi2 a b)).
    + destruct (traverse (test_category chi2 a b) ks); cbn [bind];
        [|reflexivity].
      now rewrite <- app_assoc.
    + intros c _. unfold test_category. now rewrite spec_table_touch.
Qed.

Lemma enrichment_loop_eq (a b : Dict.t) :
  enrichment_loop chi2 a b
  = (ps <- traverse (test_category chi2 a b) (keys a) ;;
     Ok (a, touch_all (keys a) b, ps)).
Proof.
  unfold enrichment_loop. rewrite for_each_enrichment by apply incl_refl.
  destruct (traverse (test_category chi2 a b) (keys a)) as [ps|e];
    cbn [bind fst]; [|reflexivity].
  now rewrite Nat.eqb_refl.
Qed.

Lemma traverse_Ok_fst (a b : Dict.t) (ks : list string) :
  forall ps, traverse (test_category chi2 a b) ks = Ok ps ->
             map fst ps = ks /\
             Forall (fun cp => chi2 (spec_table a b (fst cp)) = Ok (snd cp))
                    ps.
Proof.
  induction ks as [|k ks IH]; simpl; intros ps H.
  - injection H as <-. split; constructor.
  - unfold test_category at 1 in H.
    destruct (chi2 (spec_table a b k)) as [p|e] eqn:Ep; simpl in H;
      [|discriminate].
    destruct (traverse (test_category chi2 a b) ks) as [qs|e]; simpl in H;
      [|discriminate].
    injection H as <-. destruct (IH qs eq_refl) as [H1 H2].
    split; [simpl; now rewrite H1 | constructor; [exact Ep | exact H2]].
Qed.

Lemma traverse_total (a b : Dict.t) (ks : list string) :
  (forall c, In c ks -> exists p, chi2 (spec_table a b c) = Ok p) ->
  exists ps, traverse (test_category chi2 a b) ks = Ok ps.
Proof.
  induction ks as [|k ks IH]; intros H; simpl; [eauto|].
  destruct (H k) as [p Hp]; [simpl; auto|].
  destruct IH as [ps Hps]; [intros c Hc; apply H; simpl; auto|].
  unfold test_category at 1. rewrite Hp. simpl. rewrite Hps. simpl. eauto.
Qed.

End EnrichmentLoop.

(** The stand-in for the library test has the two properties assumed of
    it. *)
Lemma chi2_proxy_raises : raises_on_zero_margin chi2_proxy.
Proof.
  intros a b c d Ha Hb Hc Hd Hz. unfold chi2_proxy.
  destruct (Z.ltb_spec a 0); [lia|]. destruct (Z.ltb_spec b 0); [lia|].
  destruct (Z.ltb_spec c 0); [lia|]. destruct (Z.ltb_spec d 0); [lia|].
  cbn [orb].
  destruct (Z.eqb_spec (a + b) 0); [reflexivity|].
  destruct (Z.eqb_spec (c + d) 0); [reflexivity|].
  destruct (Z.eqb_spec (a + c) 0); [reflexivity|].
  destruct (Z.eqb_spec (b + d) 0); [reflexivity|].
  lia.
Qed.

Lemma chi2_proxy_ones : one_on_equal_rows chi2_proxy.
Proof.
  intros x y Hx Hy. unfold chi2_proxy.
  destruct (Z.ltb_spec x 0); [lia|]. destruct (Z.ltb_spec y 0); [lia|].
  cbn [orb].
  destruct (Z.eqb_spec (x + y) 0); [lia|].
  destruct (Z.eqb_spec (x + x) 0); [lia|].
  destruct (Z.eqb_spec (y + y) 0); [lia|].
  cbn [orb]. replace (x * y - y * x) with 0 by lia. reflexivity.
Qed.

(** A traversal that raises does so at its first test that raises: the
    tests before it returned, those after it are not made. *)
Lemma traverse_Raise_first (chi2 : chi2_fun) (a b : Dict.t)
      (ks : list string) (e : exn) :
  traverse (test_category chi2 a b) ks = Raise e ->
  exists (pre : list string) (c : string) (post : list string),
    ks = pre ++ c :: post /\
    Forall (fun k => exists p, chi2 (spec_table a b k) = Ok p) pre /\
    chi2 (spec_table a b c) = Raise e.
Proof.
  induction ks as [|k ks IH]; simpl; [discriminate|].
  unfold test_category at 1.
  destruct (chi2 (spec_table a b k)) as [p|e'] eqn:Ek; cbn [bind].
  - destruct (traverse (test_category chi2 a b) ks) as [qs|e'']; cbn [bind];
      [discriminate|].
    intros [= ->]. destruct (IH eq_refl) as (pre & c & post & -> & Hpre & Hc).
    exists (k :: pre), c, post. split; [reflexivity|].
    split; [constructor; eauto | exact Hc].
  - intros [= ->]. exists [], k, ks. split; [reflexivity|].
    split; [constructor | exact Ek].
Qed.

(** C2, as the code has it. For every pair of count dictionaries the test
    loop is the traversal of the keys of [a], in their order, that asks
    [chi2] for the p-value of the category's table (rows A and B; the
    remainder of the row in one column, the category's own count in the
    other; a category missing from [b] counts zero there). When it returns,
    it returns one p-value per key of [a], so a category that only [b] has
    is never tested; and it returns whenever every test does. When a test
    raises, the loop raises the exception of the first test that does, the
    categories after it are not tested and no p-value is returned. *)
Theorem enrichment_tests_keys_of_a :
  forall (chi2 : chi2_fun) (a b : Dict.t),
    enrichment_loop chi2 a b
    = (ps <- traverse (test_category chi2 a b) (Dict.keys a) ;;
       Ok (a, touch_all (Dict.keys a) b, ps))
    /\ (forall a' b' ps,
           enrichment_loop chi2 a b = Ok (a', b', ps) ->
           map fst ps = Dict.keys a /\
           List.length ps = List.length a /\
           (forall c, ~ In c (Dict.keys a) -> ~ In c (map fst ps)) /\
           Forall (fun cp => chi2 (spec_table a b (fst cp)) = Ok (snd cp)) ps)
    /\ ((forall c, In c (Dict.keys a) ->
                   exists p, chi2 (spec_table a b c) = Ok p) ->
        exists ps,
          enrichment_loop chi2 a b = Ok (a, touch_all (Dict.keys a) b, ps))
    /\ (forall e : exn,
           enrichment_loop chi2 a b = Raise e ->
           exists (pre : list string) (c : string) (post : list string),
             Dict.keys a = pre ++ c :: post /\
             Forall (fun k => exists p, chi2 (spec_table a b k) = Ok p) pre /\
             chi2 (spec_table a b c) = Raise e).
Proof.
  intros chi2 a b. split; [apply enrichment_loop_eq|]. split; [|split].
  - intros a' b' ps. rewrite enrichment_loop_eq.
    destruct (traverse (test_category chi2 a b) (Dict.keys a)) as [qs|e] eqn:E;
      cbn [bind]; [|discriminate].
    intros [= <- <- <-].
    destruct (traverse_Ok_fst chi2 a b _ _ E) as [H1 H2].
    repeat split; try assumption.
    + rewrite <- (length_map fst), H1. apply length_map.
    + now rewrite H1.
  - intros Hall. rewrite enrichment_loop_eq.
    destruct (traverse_total chi2 a b _ Hall) as [ps Hps].
    exists ps. now rewrite Hps.
  - intros e. rewrite enrichment_loop_eq.
    destruct (traverse (test_category chi2 a b) (Dict.keys a)) as [qs|e'] eqn:E;
      cbn [bind]; [discriminate|].
    intros [= ->]. now apply traverse_Raise_first.
Qed.

(** C2, the part that fails: not every pair of mappings gets p-values. With
    two categories in A and an empty B the first table has an empty row; a
    test that refuses such tables, as the library's does, raises there, and
    neither category gets a p-value. *)
Lemma empty_second_set_gets_no_p_values :
  ~ (forall chi2 : chi2_fun,
        raises_on_zero_margin chi2 ->
        forall a b : Dict.t,
        exists (a' b' : Dict.t) (ps : list (string * Q)),
          enrichment_loop chi2 a b = Ok (a', b', ps) /\
          map fst ps = Dict.keys a).
Proof.
  intros H.
  destruct (H chi2_proxy chi2_proxy_raises [("T>C", 1); ("T>A", 1)] [])
    as (a' & b' & ps & Hrun & _).
  vm_compute in Hrun. discriminate.
Qed.

(** ** Sorting *)

Section InsertionSort.
Context {A : Type} (leb : A -> A -> bool).
Hypothesis leb_total : forall x y, leb x y = false -> leb y x = true.

Lemma insert_by_perm (x : A) (l : list A) :
  Permutation (insert_by leb x l) (x :: l).
Proof.
  induction l as [|y l IH]; simpl; [reflexivity|].
  destruct (leb x y); [reflexivity|].
  rewrite IH. apply perm_swap.
Qed.

Lemma sort_by_perm (l : list A) : Permutation (sort_by leb l) l.
Proof.
  induction l as [|x l IH]; simpl; [reflexivity|].
  rewrite insert_by_perm. now constructor.
Qed.

Lemma insert_by_hd (x z : A) (l : list A) :
  leb_rel leb z x -> HdRel (leb_rel leb) z l ->
  HdRel (leb_rel leb) z (insert_by leb x l).
Proof.
  intros Hzx Hl. destruct l as [|y l]; simpl; [now constructor|].
  destruct (leb x y); constructor; [exact Hzx|].
  now inversion Hl.
Qed.

Lemma insert_by_sorted (x : A) (l : list A) :
  Sorted (leb_rel leb) l -> Sorted (leb_rel leb) (insert_by leb x l).
Proof.
  induction l as [|y l IH]; simpl; intros Hs.
  - repeat constructor.
  - destruct (leb x y) eqn:E.
    + constructor; [exact Hs | constructor; exact E].
    + inversion Hs as [|? ? Hs' Hhd]; subst.
      constructor; [now apply IH|].
      apply insert_by_hd; [now apply leb_total | exact Hhd].
Qed.

Lemma sort_by_sorted (l : list A) : Sorted (leb_rel leb) (sort_by leb l).
Proof.
  induction l as [|x l IH]; simpl; [constructor|].
  now apply insert_by_sorted.
Qed.

End InsertionSort.

Section SortedDict.
Import Dict DictFacts.

Lemma compare_Lt_trans (x y z : string) :
  String.compare x y = Lt -> String.compare y z = Lt ->
  String.compare x z = Lt.
Proof.
  intros H1 H2. apply String_as_OT.cmp_lt.
  apply String_as_OT.cmp_lt in H1, H2.
  eapply String_as_OT.lt_trans; eassumption.
Qed.

Lemma item_leb_total (x y : string * Z) :
  item_leb x y = false -> item_leb y x = true.
Proof.
  unfold item_leb. rewrite (String.compare_antisym (fst y) (fst x)).
  destruct (String.compare (fst x) (fst y)); simpl; try discriminate;
    [|reflexivity].
  intros H. apply Z.leb_gt in H. apply Z.leb_le. lia.
Qed.

Lemma sorted_perm (l : list (string * Z)) : Permutation (sorted l) l.
Proof. apply sort_by_perm. Qed.

Lemma sorted_items_sorted (l : list (string * Z)) :
  Sorted (leb_rel item_leb) (sorted l).
Proof. apply sort_by_sorted. exact item_leb_total. Qed.

(** Sorted items with pairwise distinct keys have strictly increasing
    keys. *)
Lemma sorted_keys_lt (l : list (string * Z)) :
  Sorted (leb_rel item_leb) l ->
  NoDup (map fst l) ->
  StronglySorted key_lt (map fst l).
Proof.
  intros Hs Hnd. apply Sorted_StronglySorted.
  - intros x y z. apply compare_Lt_trans.
  - induction Hs as [|[k v] l Hs IH Hhd]; simpl; [constructor|].
    inversion Hnd as [|? ? Hk Hnd']; subst.
    constructor; [now apply IH|].
    destruct l as [|[k' v'] l]; simpl; constructor.
    inversion Hhd as [|? ? Hle]; subst. unfold leb_rel, item_leb in Hle.
    simpl in Hle, Hk. unfold key_lt.
    destruct (String.compare k k') eqn:E; try discriminate; [|reflexivity].
    apply String.compare_eq_iff in E. subst. tauto.
Qed.

Lemma dict_of_items_acc (l : list (string * Z)) :
  forall acc : Dict.t,
    NoDup (keys acc ++ map fst l) ->
    fold_left (fun d kv => setitem (fst kv) (snd kv) d) l acc = acc ++ l.
Proof.
  induction l as [|[k v] l IH]; intros acc Hnd; simpl.
  - now rewrite app_nil_r.
  - simpl in Hnd. rewrite keys_setitem_absent.
    + rewrite IH; [now rewrite <- app_assoc|].
      unfold keys. rewrite map_app, <- app_assoc. exact Hnd.
    + apply NoDup_remove_2 in Hnd. intros H. apply Hnd.
      apply in_or_app. now left.
Qed.

Lemma dict_of_items_NoDup (l : list (string * Z)) :
  NoDup (map fst l) -> dict_of_items l = l.
Proof. intros H. unfold dict_of_items. now rewrite dict_of_items_acc. Qed.

Lemma sort_dict_sorted (d : Dict.t) :
  NoDup (keys d) -> sort_dict d = sorted d.
Proof.
  intros H. unfold sort_dict, items. apply dict_of_items_NoDup.
  eapply Permutation_NoDup; [|exact H].
  apply Permutation_map. symmetry. apply sorted_perm.
Qed.

Lemma sort_dict_perm (d : Dict.t) :
  NoDup (keys d) -> Permutation (sort_dict d) d.
Proof. intros H. rewrite sort_dict_sorted by exact H. apply sorted_perm. Qed.

Lemma sort_dict_keys_lt (d : Dict.t) :
  NoDup (keys d) -> StronglySorted key_lt (keys (sort_dict d)).
Proof.
  intros H. rewrite sort_dict_sorted by exact H.
  apply sorted_keys_lt; [apply sorted_items_sorted|].
  eapply Permutation_NoDup; [|exact H].
  apply Permutation_map. symmetry. apply sorted_perm.
Qed.

Lemma sum_perm (l l' : list Z) : Permutation l l' -> sum l = sum l'.
Proof.
  induction 1 as [|x l l' _ IH|x y l|l l' l'' _ IH1 _ IH2].
  - reflexivity.
  - now rewrite !sum_cons, IH.
  - rewrite !sum_cons. lia.
  - congruence.
Qed.

Lemma sum_sort_dict (d : Dict.t) :
  NoDup (keys d) -> sum (values (sort_dict d)) = sum (values d).
Proof.
  intros H. apply sum_perm. apply Permutation_map. now apply sort_dict_perm.
Qed.

End SortedDict.

(** ** What the test loop leaves in [b] *)

Section Touch.
Import Dict DictFacts.

Lemma keys_zero_items (ks : list string) : keys (zero_items ks) = ks.
Proof.
  unfold keys, zero_items. rewrite map_map. simpl. apply map_id.
Qed.

Lemma values_zero_items (ks : list string) :
  sum (values (zero_items ks)) = 0.
Proof.
  induction ks as [|k ks IH]; [reflexivity|].
  unfold zero_items, values in *. simpl. rewrite sum_cons, IH. reflexivity.
Qed.

Lemma lookup_zero_items (k : string) (ks : list string) :
  In k ks -> lookup k (zero_items ks) = Some 0.
Proof.
  induction ks as [|k' ks IH]; simpl; [tauto|].
  destruct (String.eqb_spec k k') as [->|Hne]; [reflexivity|].
  intros [E|H]; [congruence | now apply IH].
Qed.

Lemma lookup_In (k : string) (v : Z) (d : Dict.t) :
  lookup k d = Some v -> In (k, v) d.
Proof.
  induction d as [|[k' v'] d IH]; simpl; [discriminate|].
  destruct (String.eqb_spec k k') as [->|Hne].
  - intros [= ->]. now left.
  - intros H. right. now apply IH.
Qed.

Lemma touch_present (k : string) (b : Dict.t) :
  In k (keys b) -> touch k b = b.
Proof. intros H. unfold touch. now rewrite getitem_present. Qed.

Lemma touch_absent (k : string) (b : Dict.t) :
  ~ In k (keys b) -> touch k b = b ++ [(k, 0)].
Proof. apply getitem_snd_absent. Qed.

(** The loop appends to [b], once each and with count zero, the keys it
    asks for that [b] lacks, and changes nothing else. *)
Lemma touch_all_appends (ks : list string) :
  forall b : Dict.t,
  exists added : list string,
    touch_all ks b = b ++ zero_items added /\
    NoDup added /\
    (forall k, In k added <-> In k ks /\ ~ In k (keys b)).
Proof.
  induction ks as [|k ks IH]; intros b.
  - exists []. simpl. rewrite app_nil_r.
    repeat split; [constructor | tauto | tauto | tauto].
  - unfold touch_all. simpl. fold (touch_all ks (touch k b)).
    destruct (in_dec string_dec k (keys b)) as [Hin|Hout].
    + rewrite touch_present by exact Hin.
      destruct (IH b) as (added & Heq & Hnd & Hiff).
      exists added. repeat split; try assumption.
      * right. now apply Hiff.
      * now apply Hiff.
      * intros [[<-|Hk] Hnk]; [tauto | apply Hiff; tauto].
    + rewrite touch_absent by exact Hout.
      destruct (IH (b ++ [(k, 0)])) as (added & Heq & Hnd & Hiff).
      assert (Hkeys : forall x, In x (keys (b ++ [(k, 0)]))
                                <-> In x (keys b) \/ x = k).
      { intros x. unfold keys. rewrite map_app, in_app_iff. simpl.
        intuition congruence. }
      exists (k :: added). split; [|split].
      * rewrite Heq, <- app_assoc. reflexivity.
      * constructor; [|exact Hnd].
        intros H. apply Hiff in H. apply (proj2 H). apply Hkeys. now right.
      * intros x. simpl. rewrite Hiff, Hkeys.
        destruct (string_dec k x) as [->|Hne]; [tauto|].
        split; [intros [E|H]; [congruence|tauto]|].
        intros [[E|H] Hx]; [congruence|]. right.
        split; [exact H|]. intros [H'|E]; [tauto | congruence].
Qed.

End Touch.

(** C10. When the test loop completes on dictionaries [a] and [b] (keys
    pairwise distinct in [b]), it has left [a] as it was and has appended to
    [b], with count zero, exactly the keys of [a] that [b] lacked. So every
    key of [a] is then a key of [b]; each appended key reads zero; and it
    shows up in the sorted dictionary with count zero and with the fraction
    [0 / total] at the same position of [b_frac]. *)
Theorem test_loop_inserts_zero_entries :
  forall (chi2 : chi2_fun) (a b a' b' : Dict.t) (ps : list (string * Q)),
    NoDup (Dict.keys b) ->
    enrichment_loop chi2 a b = Ok (a', b', ps) ->
    a' = a /\
    (exists added : list string,
        b' = b ++ map (fun k => (k, 0)) added /\
        NoDup added /\
        (forall k, In k added <-> In k (Dict.keys a) /\ ~ In k (Dict.keys b)))
    /\ incl (Dict.keys a) (Dict.keys b') /\
    (forall k,
        In k (Dict.keys a) -> ~ In k (Dict.keys b) ->
        Dict.lookup k b' = Some 0 /\
        exists i : nat,
          nth_error (Dict.keys (sort_dict b')) i = Some k /\
          nth_error (Dict.values (sort_dict b')) i = Some 0 /\
          nth_error (fractions (sort_dict b')) i
          = Some (PrimFloat.div (float_of_int 0)
                                (float_of_int (sum (Dict.values b))))).
Proof.
  intros chi2 a b a' b' ps Hnd Hloop.
  rewrite enrichment_loop_eq in Hloop.
  destruct (traverse (test_category chi2 a b) (Dict.keys a)) as [qs|e];
    cbn [bind] in Hloop; [|discriminate].
  injection Hloop as <- <- <-.
  destruct (touch_all_appends (Dict.keys a) b) as (added & Heq & Hna & Hiff).
  fold (zero_items added).
  assert (Hlook : forall k, In k (Dict.keys a) -> ~ In k (Dict.keys b) ->
                            Dict.lookup k (touch_all (Dict.keys a) b) = Some 0).
  { intros k Hka Hkb. rewrite Heq, DictFacts.lookup_app.
    apply DictFacts.lookup_None_keys in Hkb. rewrite Hkb.
    apply lookup_zero_items. apply Hiff. split; [exact Hka|].
    now apply DictFacts.lookup_None_keys. }
  assert (Hnd' : NoDup (Dict.keys (touch_all (Dict.keys a) b))).
  { rewrite Heq. unfold Dict.keys. rewrite map_app.
    fold (Dict.keys b). fold (Dict.keys (zero_items added)).
    rewrite keys_zero_items. apply NoDup_app; try assumption.
    intros x Hx Hx'. apply Hiff in Hx'. tauto. }
  split; [reflexivity|]. split; [exists added; auto|]. split.
  - intros k Hk. destruct (in_dec string_dec k (Dict.keys b)) as [Hin|Hout].
    + rewrite Heq. unfold Dict.keys. rewrite map_app. apply in_or_app.
      now left.
    + apply DictFacts.lookup_Some_keys. exists 0. now apply Hlook.
  - intros k Hka Hkb. split; [now apply Hlook|].
    assert (Hin : In (k, 0) (sort_dict (touch_all (Dict.keys a) b))).
    { eapply Permutation_in; [symmetry; now apply sort_dict_perm|].
      apply lookup_In. now apply Hlook. }
    apply In_nth_error in Hin as [i Hi]. exists i.
    pose proof (map_nth_error fst _ _ Hi) as Hk.
    pose proof (map_nth_error snd _ _ Hi) as Hv.
    split; [exact Hk|]. split; [exact Hv|].
    unfold fractions.
    rewrite (map_nth_error _ _ _ Hv). simpl snd.
    rewrite sum_sort_dict by exact Hnd'.
    do 3 f_equal. rewrite Heq. unfold Dict.values. rewrite map_app, sum_app.
    fold (Dict.values (zero_items added)). rewrite values_zero_items. lia.
Qed.

(** ** The call and the world *)

Section ReadsOnly.

Lemma reads_only_ret {A : Type} (x : A) :
  reads_only (ret x) (fun _ => Ok x).
Proof. intros w. split; reflexivity. Qed.

Lemma reads_only_lift {A : Type} (r : result A) :
  reads_only (lift r) (fun _ => r).
Proof. intros w. split; reflexivity. Qed.

Lemma reads_only_print (l : line) : reads_only (print l) (fun _ => Ok tt).
Proof. intros w. split; reflexivity. Qed.

Lemma reads_only_draw (ax : nat) (c : call) :
  reads_only (draw ax c) (fun _ => Ok tt).
Proof. intros w. split; reflexivity. Qed.

Lemma reads_only_bar (ax : nat) (x height : list float) (wd : float)
      (label color : string) :
  reads_only (bar ax x height wd label color)
             (fun _ => if broadcastable (List.length x) (List.length height)
                       then Ok tt else Raise ValueError).
Proof.
  intros w. unfold bar.
  destruct (broadcastable (List.length x) (List.length height));
    split; reflexivity.
Qed.

Lemma broadcastable_refl (n : nat) : broadcastable n n = true.
Proof. unfold broadcastable. now rewrite Nat.eqb_refl. Qed.

Lemma length_fractions (d : Dict.t) :
  List.length (fractions d) = List.length d.
Proof. unfold fractions, Dict.values. now rewrite !length_map. Qed.

Lemma length_arange (n : nat) : List.length (arange n) = n.
Proof. unfold arange. now rewrite length_map, length_seq. Qed.

Lemma length_add_scalar (xs : list float) (c : float) :
  List.length (add_scalar xs c) = List.length xs.
Proof. unfold add_scalar. apply length_map. Qed.

Lemma reads_only_iterrows (df : nat) :
  reads_only (iterrows df) (fun f => Ok (f df)).
Proof. intros w. split; reflexivity. Qed.

Lemma reads_only_bind {A B : Type} (m : M A) (k : A -> M B)
      (r : (nat -> DataFrame) -> result A)
      (rk : A -> (nat -> DataFrame) -> result B) :
  reads_only m r -> (forall x, reads_only (k x) (rk x)) ->
  reads_only (mbind m k) (fun f => bind (r f) (fun x => rk x f)).
Proof.
  intros Hm Hk w. unfold mbind. destruct (Hm w) as [H1 H2].
  destruct (m w) as [[x|e] w']; simpl in *; rewrite <- H1; simpl.
  - destruct (Hk x w') as [H3 H4]. rewrite H3, H4, H2. auto.
  - auto.
Qed.

(** A step that always succeeds and whose value the rest does not let
    into the result, such as the handle of the new figure. *)
Lemma reads_only_handle {A B : Type} (m : M A) (k : A -> M B)
      (r : (nat -> DataFrame) -> result B) :
  (forall w, exists x, fst (m w) = Ok x) ->
  (forall w, frames (snd (m w)) = frames w) ->
  (forall x, reads_only (k x) r) ->
  reads_only (mbind m k) r.
Proof.
  intros Hok Hfr Hk w. unfold mbind. destruct (Hok w) as [x Hx].
  specialize (Hfr w).
  destruct (m w) as [[y|e] w']; simpl in *; [|discriminate].
  destruct (Hk y w') as [H3 H4]. rewrite H3, H4, Hfr. auto.
Qed.

Lemma reads_only_ext {A : Type} (m : M A)
      (r r' : (nat -> DataFrame) -> result A) :
  (forall f, r f = r' f) -> reads_only m r -> reads_only m r'.
Proof. intros H Hm w. rewrite <- H. apply Hm. Qed.

Lemma reads_only_mfor {X : Type} (body : X -> M unit)
      (rb : X -> result unit) (xs : list X) :
  (forall x, reads_only (body x) (fun _ => rb x)) ->
  reads_only (mfor body xs) (fun _ => for_each (fun _ x => rb x) xs tt).
Proof.
  intros Hb. induction xs as [|x xs IH]; simpl.
  - apply reads_only_ret.
  - eapply reads_only_ext;
      [|eapply reads_only_bind; [apply Hb | intros u; apply IH]].
    intros f. simpl. destruct (rb x) as [[]|]; reflexivity.
Qed.

Lemma for_each_all_ok {X : Type} (rb : X -> result unit) (xs : list X) :
  (forall x, In x xs -> rb x = Ok tt) ->
  for_each (fun _ x => rb x) xs tt = Ok tt.
Proof.
  induction xs as [|x xs IH]; intros H; simpl; [reflexivity|].
  rewrite (H x) by (simpl; auto). simpl. apply IH.
  intros y Hy. apply H. simpl. auto.
Qed.

Lemma length_fdrcorrection (ps : list Q) (alpha : Q) :
  List.length (fdrcorrection ps alpha) = List.length ps.
Proof.
  unfold fdrcorrection. destruct (bh_cutoff alpha ps); apply length_map.
Qed.

Lemma reads_only_report_totals (labels : list string) (a b : Dict.t) :
  reads_only (report_totals labels a b)
             (fun _ => _ <- getindex labels 0 ;;
                       _ <- getindex labels 1 ;; Ok tt).
Proof.
  unfold report_totals.
  eapply reads_only_ext;
    [|apply reads_only_mfor
        with (rb := fun id : nat * Dict.t =>
                      _ <- getindex labels (fst id) ;; Ok tt)].
  - intros f. simpl.
    destruct (getindex labels 0); simpl; [|reflexivity].
    destruct (getindex labels 1); reflexivity.
  - intros id. eapply reads_only_ext;
      [|eapply reads_only_bind;
         [apply reads_only_lift | intros l0; apply reads_only_print]].
    reflexivity.
Qed.

Lemma reads_only_report_enrichment (sig : list bool)
      (unadj : list (string * Q)) :
  List.length sig = List.length unadj ->
  reads_only (report_enrichment sig unadj) (fun _ => Ok tt).
Proof.
  intros Hlen. unfold report_enrichment.
  eapply reads_only_ext;
    [|apply reads_only_mfor
        with (rb := fun isig : nat * bool =>
                      _ <- getindex unadj (fst isig) ;; Ok tt)].
  - intros f. apply for_each_all_ok. intros [i s] Hin. simpl.
    apply in_combine_l in Hin. apply in_seq in Hin.
    unfold getindex. destruct (nth_error unadj i) eqn:E; [reflexivity|].
    apply nth_error_None in E. lia.
  - intros isig. eapply reads_only_ext;
      [|eapply reads_only_bind;
         [apply reads_only_lift | intros cp; apply reads_only_print]].
    reflexivity.
Qed.

Lemma reads_only_plot (chi2 : chi2_fun) (df1 df2 : nat)
      (labels colors : list string) (indels : bool) (save : option string) :
  reads_only
    (plot_mutation_spectrum chi2 df1 df2 labels colors indels save)
    (fun f => spectrum_result chi2 labels colors indels (f df1) (f df2)).
Proof.
  unfold plot_mutation_spectrum.
  apply reads_only_handle; [intros w; eexists; reflexivity | reflexivity |].
  intros ax.
  eapply reads_only_ext; cycle 1.
  - eapply reads_only_bind; [apply reads_only_iterrows | intros rows1].
    eapply reads_only_bind; [apply reads_only_iterrows | intros rows2].
    eapply reads_only_bind; [apply reads_only_print | intros ?].
    eapply reads_only_bind; [apply reads_only_report_totals | intros ?].
    eapply reads_only_bind; [apply reads_only_print | intros ?].
    eapply reads_only_bind; [apply reads_only_print | intros ?].
    eapply reads_only_bind
      with (rk := fun (st : loop_state) (_ : nat -> DataFrame) =>
                    let '(a1, b1, unadj) := st in
                    _ <- getindex labels 0 ;;
                    _ <- getindex colors 0 ;;
                    _ <- getindex labels 1 ;;
                    _ <- getindex colors 1 ;;
                    _ <- (if broadcastable (List.length (sort_dict a1))
                                           (List.length (sort_dict b1))
                          then Ok tt else Raise ValueError) ;;
                    Ok (mkLocals
                          (count_mutations indels rows1)
                          (count_mutations indels rows2)
                          unadj
                          (fdrcorrection (map snd unadj) alpha_default)
                          (sort_dict a1) (sort_dict b1)
                          (fractions (sort_dict a1))
                          (fractions (sort_dict b1))));
      [apply reads_only_lift | intros [[a1 b1] unadj]].
    eapply reads_only_ext; cycle 1.
    + eapply reads_only_bind.
      { apply reads_only_report_enrichment.
        rewrite length_fdrcorrection. apply length_map. }
      intros ?.
      eapply reads_only_bind; [apply reads_only_lift | intros label0].
      eapply reads_only_bind; [apply reads_only_lift | intros color0].
      eapply reads_only_bind; [apply reads_only_bar | intros ?].
      eapply reads_only_bind; [apply reads_only_lift | intros label1].
      eapply reads_only_bind; [apply reads_only_lift | intros color1].
      eapply reads_only_bind; [apply reads_only_bar | intros ?].
      do 6 (eapply reads_only_bind; [apply reads_only_draw | intros ?]).
      eapply reads_only_bind with (r := fun _ => Ok tt).
      { destruct save as [name|]; [|apply reads_only_ret].
        eapply reads_only_ext;
          [|eapply reads_only_bind;
             [apply reads_only_draw | intros ?; apply reads_only_draw]].
        reflexivity. }
      intros ?. apply reads_only_ret.
    + intros f. cbn [bind].
      rewrite !length_add_scalar, !length_arange, !length_fractions.
      rewrite broadcastable_refl.
      destruct (getindex labels 0) as [l0|e]; cbn [bind]; [|reflexivity].
      destruct (getindex colors 0) as [c0|e]; cbn [bind]; [|reflexivity].
      destruct (getindex labels 1) as [l1|e]; cbn [bind]; [|reflexivity].
      destruct (getindex colors 1) as [c1|e]; cbn [bind]; [|reflexivity].
      destruct (broadcastable _ _); reflexivity.
  - intros f. unfold spectrum_result. cbn [bind].
    destruct (getindex labels 0) as [l0|e]; cbn [bind]; [|reflexivity].
    destruct (getindex labels 1) as [l1|e]; cbn [bind]; [|reflexivity].
    destruct (enrichment_loop chi2 _ _) as [[[a1 b1] unadj]|e]; cbn [bind];
      [|reflexivity].
    destruct (getindex colors 0) as [c0|e]; cbn [bind]; [|reflexivity].
    destruct (getindex colors 1) as [c1|e]; cbn [bind]; [|reflexivity].
    destruct (broadcastable _ _); reflexivity.
Qed.

End ReadsOnly.

(** C9. A call leaves the frames it was given as they were, whatever it
    prints, draws or raises. Its result (the counts, the p-values, the
    flags, the sorted dictionaries and the fractions, or the exception) is a
    function of the arguments and of the rows of the two frames alone: the
    same call made again right after, or made in any other world whose two
    frames hold the same rows, gives the same result. The library test
    enters as a function, so it is assumed to answer alike on like tables. *)
Theorem call_reads_only_and_repeats :
  forall (chi2 : chi2_fun) (df1 df2 : nat) (labels colors : list string)
         (indels : bool) (save : option string) (w : world),
    frames (snd (plot_mutation_spectrum chi2 df1 df2 labels colors indels
                                        save w))
    = frames w
    /\ fst (plot_mutation_spectrum chi2 df1 df2 labels colors indels save w)
       = spectrum_result chi2 labels colors indels
                         (frames w df1) (frames w df2)
    /\ fst (plot_mutation_spectrum chi2 df1 df2 labels colors indels save
              (snd (plot_mutation_spectrum chi2 df1 df2 labels colors indels
                                           save w)))
       = fst (plot_mutation_spectrum chi2 df1 df2 labels colors indels save w)
    /\ (forall w' : world,
           frames w' df1 = frames w df1 ->
           frames w' df2 = frames w df2 ->
           fst (plot_mutation_spectrum chi2 df1 df2 labels colors indels
                                       save w')
           = fst (plot_mutation_spectrum chi2 df1 df2 labels colors indels
                                         save w)).
Proof.
  intros chi2 df1 df2 labels colors indels save w.
  pose proof (reads_only_plot chi2 df1 df2 labels colors indels save) as H.
  destruct (H w) as [Hres Hfr].
  split; [exact Hfr|]. split; [exact Hres|]. split.
  - destruct (H (snd (plot_mutation_spectrum chi2 df1 df2 labels colors
                                             indels save w))) as [Hres' _].
    rewrite Hres', Hres, Hfr. reflexivity.
  - intros w' H1 H2. destruct (H w') as [Hres' _].
    rewrite Hres', Hres, H1, H2. reflexivity.
Qed.

(** The theorem above at work: [a] has a category that [b] lacks. *)
Lemma test_loop_inserts_zero_entries_witness :
  NoDup (Dict.keys [("T>C", 1); ("C>G", 1)]) /\
  (exists ps,
      enrichment_loop chi2_proxy
                      [("T>C", 2); ("T>A", 1)] [("T>C", 1); ("C>G", 1)]
      = Ok ([("T>C", 2); ("T>A", 1)],
            [("T>C", 1); ("C>G", 1); ("T>A", 0)], ps)) /\
  Dict.lookup "T>A" [("T>C", 1); ("C>G", 1); ("T>A", 0)] = Some 0.
Proof.
  assert (Hnd : NoDup (Dict.keys [("T>C", 1); ("C>G", 1)])).
  { repeat constructor; simpl; intuition discriminate. }
  assert (Hrun : enrichment_loop chi2_proxy
                   [("T>C", 2); ("T>A", 1)] [("T>C", 1); ("C>G", 1)]
                 = Ok ([("T>C", 2); ("T>A", 1)],
                       [("T>C", 1); ("C>G", 1); ("T>A", 0)],
                       [("T>C", 36 # 41); ("T>A", 24 # 44)])).
  { vm_compute. reflexivity. }
  split; [exact Hnd|]. split; [eexists; exact Hrun|].
  destruct (test_loop_inserts_zero_entries chi2_proxy _ _ _ _ _ Hnd Hrun)
    as (_ & _ & _ & H).
  apply H; simpl; intuition discriminate.
Defined.

(** ** The correction step *)

Section Correction.

Lemma threshold_below_one (n rank : Z) :
  0 < rank <= n ->
  Qle_bool 1 ((rank # 1) / (n # 1) * alpha_default) = false.
Proof.
  intros [Hr Hn].
  destruct (Qle_bool 1 ((rank # 1) / (n # 1) * alpha_default)) eqn:E;
    [|reflexivity].
  apply Qle_bool_iff in E. exfalso.
  assert (H1 : ((rank # 1) / (n # 1) <= 1)%Q).
  { apply Qle_shift_div_r.
    - unfold Qlt. simpl. lia.
    - rewrite Qmult_1_l. unfold Qle. cbn [Qnum Qden]. lia. }
  assert (H2 : ((rank # 1) / (n # 1) * alpha_default <= 1 * alpha_default)%Q).
  { apply Qmult_le_compat_r; [exact H1 | unfold Qle; simpl; lia]. }
  assert (H3 : (1 * alpha_default < 1)%Q) by (unfold Qlt; simpl; lia).
  apply (Qlt_irrefl 1). eapply Qle_lt_trans; [|exact H3].
  eapply Qle_trans; eassumption.
Qed.

Lemma bh_passing_ones (n : Z) (l : list Q) :
  forall rank : Z,
    0 < rank -> rank + Z.of_nat (List.length l) - 1 <= n ->
    Forall (fun p => p = 1%Q) l ->
    bh_passing alpha_default n rank l = [].
Proof.
  induction l as [|p l IH]; intros rank Hr Hn Hall; simpl; [reflexivity|].
  inversion Hall as [|? ? Hp Hl]; subst.
  rewrite threshold_below_one by (simpl List.length in Hn; lia).
  apply IH; [lia | simpl List.length in Hn; lia | exact Hl].
Qed.

(** P-values that are all one are never flagged. *)
Lemma fdrcorrection_ones (ps : list Q) :
  Forall (fun p => p = 1%Q) ps ->
  fdrcorrection ps alpha_default = map (fun _ => false) ps.
Proof.
  intros Hall. unfold fdrcorrection, bh_cutoff.
  rewrite bh_passing_ones; [reflexivity | lia | |].
  - rewrite (Permutation_length (sort_by_perm Qle_bool ps)). lia.
  - eapply Permutation_Forall; [symmetry; apply sort_by_perm | exact Hall].
Qed.

(** A p-value no larger than a flagged one is flagged too. *)
Lemma fdrcorrection_monotone (ps : list Q) (alpha : Q) (i j : nat) (p q : Q) :
  nth_error ps i = Some p -> nth_error ps j = Some q ->
  (p <= q)%Q ->
  nth_error (fdrcorrection ps alpha) j = Some true ->
  nth_error (fdrcorrection ps alpha) i = Some true.
Proof.
  intros Hi Hj Hpq. unfold fdrcorrection.
  destruct (bh_cutoff alpha ps) as [c|].
  - rewrite (map_nth_error _ _ _ Hi), (map_nth_error _ _ _ Hj).
    intros [= H]. f_equal. apply Qle_bool_iff. apply Qle_bool_iff in H.
    eapply Qle_trans; eassumption.
  - rewrite (map_nth_error _ _ _ Hj). discriminate.
Qed.

(** In a hypothesis that says a run of steps returned, the indexing steps
    at its head returned. *)
Ltac index_ok :=
  repeat match goal with
         | H : context [bind (getindex ?l ?i) _] |- _ =>
             destruct (getindex l i); simpl in H; [|discriminate H]
         end.

(** The value a successful call returns does not depend on the labels and
    colors it was given. *)
Lemma spectrum_result_args (chi2 : chi2_fun) (labels colors labels' colors' :
                                                list string)
      (indels : bool) (rows1 rows2 : list row) (l l' : locals) :
  spectrum_result chi2 labels colors indels rows1 rows2 = Ok l ->
  spectrum_result chi2 labels' colors' indels rows1 rows2 = Ok l' ->
  l' = l.
Proof.
  unfold spectrum_result. intros H H'. index_ok.
  destruct (enrichment_loop chi2 _ _) as [[[a1 b1] unadj]|e]; simpl in *;
    [|discriminate].
  index_ok. destruct (broadcastable _ _); [congruence | discriminate].
Qed.

Lemma spectrum_result_Ok (chi2 : chi2_fun) (labels colors : list string)
      (indels : bool) (rows1 rows2 : list row) (l : locals) :
  spectrum_result chi2 labels colors indels rows1 rows2 = Ok l ->
  exists a1 b1,
    enrichment_loop chi2 (count_mutations indels rows1)
                    (count_mutations indels rows2)
    = Ok (a1, b1, unadj_p_vals l) /\
    l = mkLocals (count_mutations indels rows1) (count_mutations indels rows2)
                 (unadj_p_vals l)
                 (fdrcorrection (map snd (unadj_p_vals l)) alpha_default)
                 (sort_dict a1) (sort_dict b1)
                 (fractions (sort_dict a1)) (fractions (sort_dict b1)).
Proof.
  unfold spectrum_result. intros H. index_ok.
  destruct (enrichment_loop chi2 _ _) as [[[a1 b1] unadj]|e]; simpl in *;
    [|discriminate].
  index_ok. destruct (broadcastable _ _); [|discriminate].
  injection H as <-. exists a1, b1. split; reflexivity.
Qed.

(** A call that returns had arrays that fit for its second [ax.bar]. *)
Lemma spectrum_result_fits (chi2 : chi2_fun) (labels colors : list string)
      (indels : bool) (rows1 rows2 : list row) (l : locals) :
  spectrum_result chi2 labels colors indels rows1 rows2 = Ok l ->
  broadcastable (List.length (sorted_a l)) (List.length (sorted_b l)) = true.
Proof.
  unfold spectrum_result. intros H. index_ok.
  destruct (enrichment_loop chi2 _ _) as [[[a1 b1] unadj]|e]; simpl in *;
    [|discriminate].
  index_ok.
  destruct (broadcastable _ _) eqn:E; [|discriminate].
  injection H as <-. exact E.
Qed.

(** What a returning call has done in its correction step. *)
Lemma fdr_step_sig (chi2 : chi2_fun) (df1 df2 : nat)
      (labels colors : list string) (indels : bool) (save : option string)
      (w : world) (l : locals) :
  fst (plot_mutation_spectrum chi2 df1 df2 labels colors indels save w)
  = Ok l ->
  exists a1 b1,
    enrichment_loop chi2 (count_mutations indels (frames w df1))
                    (count_mutations indels (frames w df2))
    = Ok (a1, b1, unadj_p_vals l) /\
    signif l = fdrcorrection (map snd (unadj_p_vals l)) alpha_default.
Proof.
  intros Hrun.
  rewrite (proj1 (reads_only_plot chi2 df1 df2 labels colors indels save w))
    in Hrun.
  destruct (spectrum_result_Ok _ _ _ _ _ _ _ Hrun) as (a1 & b1 & Hloop & Hl).
  exists a1, b1. split; [exact Hloop|]. rewrite Hl at 1. reflexivity.
Qed.

End Correction.

(** C7, as the code has it. Whenever a call returns, its flags are the
    Benjamini-Hochberg flags of the whole vector of unadjusted p-values, in
    the order the test loop produced them, at the level [alpha_default]
    = 5/100 that the library uses when the caller passes none. The call
    passes none and has no parameter for it: another successful call on the
    same rows with the same indel policy, whatever its labels, colors and
    output name, returns the same flags. On the reference vector
    [0.001, 0.2, 0.5, 0.8] only the smallest p-value is flagged. *)
Theorem fdr_step_at_library_default :
  forall (chi2 : chi2_fun) (df1 df2 : nat) (labels colors : list string)
         (indels : bool) (save : option string) (w : world) (l : locals),
    fst (plot_mutation_spectrum chi2 df1 df2 labels colors indels save w)
    = Ok l ->
    (exists a1 b1,
        enrichment_loop chi2 (count_mutations indels (frames w df1))
                        (count_mutations indels (frames w df2))
        = Ok (a1, b1, unadj_p_vals l)) /\
    signif l = fdrcorrection (map snd (unadj_p_vals l)) alpha_default /\
    List.length (signif l) = List.length (unadj_p_vals l) /\
    alpha_default = (5 # 100)%Q /\
    (forall (labels' colors' : list string) (save' : option string)
            (w' : world) (l' : locals),
        frames w' df1 = frames w df1 ->
        frames w' df2 = frames w df2 ->
        fst (plot_mutation_spectrum chi2 df1 df2 labels' colors' indels
                                    save' w') = Ok l' ->
        signif l' = signif l) /\
    fdrcorrection [1 # 1000; 2 # 10; 5 # 10; 8 # 10]%Q alpha_default
    = [true; false; false; false].
Proof.
  intros chi2 df1 df2 labels colors indels save w l Hrun.
  rewrite (proj1 (reads_only_plot chi2 df1 df2 labels colors indels save w))
    in Hrun.
  destruct (spectrum_result_Ok _ _ _ _ _ _ _ Hrun) as (a1 & b1 & Hloop & Hl).
  split; [eauto|]. split; [rewrite Hl at 1; reflexivity|].
  split; [rewrite Hl at 1; simpl; rewrite length_fdrcorrection;
          apply length_map|].
  split; [reflexivity|]. split; [|reflexivity].
  intros labels' colors' save' w' l' H1 H2 Hrun'.
  rewrite (proj1 (reads_only_plot chi2 df1 df2 labels' colors' indels save'
                                  w')), H1, H2 in Hrun'.
  now rewrite (spectrum_result_args _ _ _ _ _ _ _ _ _ _ Hrun Hrun').
Qed.

(** The theorem above on the example frames. *)
Lemma fdr_step_at_library_default_witness :
  exists l : locals,
    fst (plot_mutation_spectrum chi2_proxy 0 1 default_labels default_colors
                                false None example_world) = Ok l /\
    signif l = [false; false].
Proof.
  destruct (fst (plot_mutation_spectrum chi2_proxy 0 1 default_labels
                                        default_colors false None
                                        example_world)) as [l|e] eqn:Hrun.
  - exists l. split; [reflexivity|].
    destruct (fdr_step_at_library_default _ _ _ _ _ _ _ _ _ Hrun)
      as (_ & Hsig & _).
    rewrite Hsig. vm_compute in Hrun. injection Hrun as <-.
    vm_compute. reflexivity.
  - vm_compute in Hrun. discriminate.
Defined.

(** C7, the part that fails: the level is not one a caller can override.
    On the example frames the p-values would all be flagged at the level
    1/2, yet no choice of labels, colors, indel policy and output name makes
    a call return those flags. *)
Lemma fdr_level_not_overridable :
  ~ (exists (labels colors : list string) (indels : bool)
            (save : option string) (l : locals),
        fst (plot_mutation_spectrum chi2_proxy 0 1 labels colors indels save
                                    example_world) = Ok l /\
        signif l = fdrcorrection (map snd (unadj_p_vals l)) (1 # 2)).
Proof.
  intros (labels & colors & indels & save & l & Hrun & Hsig).
  destruct (fdr_step_sig _ _ _ _ _ _ _ _ _ Hrun) as (a1 & b1 & Hloop & Hdef).
  rewrite Hdef in Hsig. clear Hdef Hrun.
  assert (Hps : unadj_p_vals l = [("T>C", 256 # 768); ("T>A", 256 # 768)]%Q).
  { assert (HL : enrichment_loop chi2_proxy
                   (count_mutations indels (frames example_world 0))
                   (count_mutations indels (frames example_world 1))
                 = Ok ([("T>C", 3); ("T>A", 1)], [("T>C", 1); ("T>A", 3)],
                       [("T>C", 256 # 768); ("T>A", 256 # 768)]%Q))
      by (destruct indels; vm_compute; reflexivity).
    rewrite HL in Hloop. now injection Hloop as _ _ <-. }
  rewrite Hps in Hsig. vm_compute in Hsig. discriminate.
Qed.

(** ** Identical sets *)

Section IdenticalSets.
Import Dict DictFacts.

Lemma touch_all_present (ks : list string) (b : Dict.t) :
  incl ks (keys b) -> touch_all ks b = b.
Proof.
  induction ks as [|k ks IH]; intros H; [reflexivity|].
  unfold touch_all. simpl. rewrite touch_present by (apply H; simpl; auto).
  apply IH. intros x Hx. apply H. simpl. auto.
Qed.

Lemma In_lookup (k : string) (v : Z) (d : Dict.t) :
  NoDup (keys d) -> In (k, v) d -> lookup k d = Some v.
Proof.
  induction d as [|[k' v'] d IH]; simpl; [tauto|].
  intros Hnd [E|Hin].
  - injection E as -> ->. now rewrite String.eqb_refl.
  - inversion Hnd as [|? ? Hk Hnd']; subst.
    destruct (String.eqb_spec k k') as [->|Hne]; [|now apply IH].
    exfalso. apply Hk. change k' with (fst (k', v)). now apply in_map.
Qed.

Lemma positive_values (d : Dict.t) :
  positive d -> NoDup (keys d) -> Forall (fun v => 0 < v) (values d).
Proof.
  intros Hp Hnd. apply Forall_forall. intros v Hv.
  apply in_map_iff in Hv as [[k v'] [<- Hin]].
  apply (Hp k). now apply In_lookup.
Qed.

Lemma sum_positive (l : list Z) :
  Forall (fun v => 0 < v) l -> Z.of_nat (List.length l) <= sum l.
Proof.
  induction 1 as [|v l Hv _ IH]; [reflexivity|].
  rewrite sum_cons. simpl List.length. lia.
Qed.

(** Each count is positive, and the other categories, one or more each,
    make up the rest of the total. *)
Lemma count_sum_bounds (d : Dict.t) (c : string) :
  positive d -> NoDup (keys d) -> In c (keys d) ->
  0 < count c d /\
  count c d + Z.of_nat (List.length d) - 1 <= sum (values d).
Proof.
  intros Hp Hnd Hc.
  apply lookup_Some_keys in Hc as [v Hv].
  pose proof (positive_values d Hp Hnd) as Hall.
  unfold count. rewrite Hv.
  apply lookup_In in Hv as Hin. apply in_split in Hin as (l1 & l2 & ->).
  unfold values in *. rewrite map_app in *. simpl in *.
  apply Forall_app in Hall as [H1 H2].
  inversion H2 as [|? ? Hv0 H2']; subst.
  rewrite sum_app, sum_cons.
  apply sum_positive in H1, H2'.
  rewrite length_app. simpl. rewrite !length_map in *. lia.
Qed.

(** With two categories or more, each count is positive and leaves a
    positive remainder. *)
Lemma count_lt_sum (d : Dict.t) (c : string) :
  positive d -> NoDup (keys d) -> In c (keys d) ->
  (2 <= List.length d)%nat ->
  0 < count c d < sum (values d).
Proof.
  intros Hp Hnd Hc Hlen.
  pose proof (count_sum_bounds d c Hp Hnd Hc). lia.
Qed.

Lemma traverse_ones (chi2 : chi2_fun) (a b : Dict.t) (ks : list string) :
  (forall c, In c ks -> chi2 (spec_table a b c) = Ok 1%Q) ->
  traverse (test_category chi2 a b) ks = Ok (map (fun c => (c, 1%Q)) ks).
Proof.
  induction ks as [|k ks IH]; intros H; simpl; [reflexivity|].
  unfold test_category at 1. rewrite (H k) by (simpl; auto). simpl.
  rewrite IH; [reflexivity|]. intros c Hc. apply H. simpl. auto.
Qed.

End IdenticalSets.

(** C6, as the code has it. When both sets hold the same rows and the
    retained rows span no category or at least two, the test loop returns,
    every p-value it returns is one and no category is flagged. The fact
    used of the library test is that two equal rows of positive counts give
    the p-value one. *)
Theorem identical_sets_never_flagged :
  forall (chi2 : chi2_fun) (indels : bool) (df : DataFrame),
    one_on_equal_rows chi2 ->
    List.length (count_mutations indels df) <> 1%nat ->
    exists ps : list (string * Q),
      enrichment_loop chi2 (count_mutations indels df)
                      (count_mutations indels df)
      = Ok (count_mutations indels df, count_mutations indels df, ps) /\
      map fst ps = Dict.keys (count_mutations indels df) /\
      Forall (fun cp => snd cp = 1%Q) ps /\
      Forall (fun flag => flag = false)
             (fdrcorrection (map snd ps) alpha_default).
Proof.
  intros chi2 indels df Hones Hlen.
  set (a := count_mutations indels df) in *.
  assert (Hp : Dict.positive a) by apply positive_count_mutations.
  assert (Hnd : NoDup (Dict.keys a)) by apply NoDup_count_mutations.
  assert (Htab : forall c, In c (Dict.keys a) ->
                           chi2 (spec_table a a c) = Ok 1%Q).
  { intros c Hc. unfold spec_table. apply Hones.
    - assert (H2 : (2 <= List.length a)%nat).
      { destruct a as [|x [|y a']]; simpl in *; [tauto | congruence | lia]. }
      pose proof (count_lt_sum a c Hp Hnd Hc H2). lia.
    - destruct (DictFacts.lookup_Some_keys c a) as [_ H].
      destruct (H Hc) as [v Hv]. unfold Dict.count. rewrite Hv.
      now apply (Hp c). }
  exists (map (fun c => (c, 1%Q)) (Dict.keys a)).
  split; [|split; [|split]].
  - rewrite enrichment_loop_eq, (traverse_ones chi2 a a _ Htab). simpl.
    rewrite touch_all_present by apply incl_refl. reflexivity.
  - rewrite map_map. simpl. apply map_id.
  - apply Forall_forall. intros cp Hcp.
    apply in_map_iff in Hcp as [c [<- _]]. reflexivity.
  - rewrite fdrcorrection_ones.
    + apply Forall_forall. intros f Hf.
      apply in_map_iff in Hf as [p [<- _]]. reflexivity.
    + apply Forall_forall. intros p Hp'. rewrite map_map in Hp'.
      apply in_map_iff in Hp' as [c [<- _]]. reflexivity.
Qed.

(** The theorem above on a frame with two categories. *)
Lemma identical_sets_never_flagged_witness :
  one_on_equal_rows chi2_proxy /\
  List.length (count_mutations false example_df1) <> 1%nat /\
  exists ps : list (string * Q),
    enrichment_loop chi2_proxy (count_mutations false example_df1)
                    (count_mutations false example_df1)
    = Ok (count_mutations false example_df1,
          count_mutations false example_df1, ps) /\
    map fst ps = Dict.keys (count_mutations false example_df1) /\
    Forall (fun cp => snd cp = 1%Q) ps /\
    Forall (fun flag => flag = false)
           (fdrcorrection (map snd ps) alpha_default).
Proof.
  assert (Hlen : List.length (count_mutations false example_df1) <> 1%nat)
    by (vm_compute; discriminate).
  split; [exact chi2_proxy_ones|]. split; [exact Hlen|].
  exact (identical_sets_never_flagged chi2_proxy false example_df1
                                      chi2_proxy_ones Hlen).
Defined.

(** C6, the part that fails: for identical sets whose retained rows all
    carry one label, the only table has an empty column; a test that
    refuses such tables, as the library's does, gives no p-value and the
    loop raises. *)
Lemma identical_single_category_raises :
  ~ (forall chi2 : chi2_fun,
        raises_on_zero_margin chi2 -> one_on_equal_rows chi2 ->
        forall (indels : bool) (df : DataFrame),
        exists ps : list (string * Q),
          enrichment_loop chi2 (count_mutations indels df)
                          (count_mutations indels df)
          = Ok (count_mutations indels df, count_mutations indels df, ps) /\
          Forall (fun cp => snd cp = 1%Q) ps /\
          Forall (fun flag => flag = false)
                 (fdrcorrection (map snd ps) alpha_default)).
Proof.
  intros H.
  destruct (H chi2_proxy chi2_proxy_raises chi2_proxy_ones false
              [mkRow "1" "T>C"]) as (ps & Hrun & _).
  vm_compute in Hrun. discriminate.
Qed.

(** ** How many bars each set gets *)

Section BarCounts.
Import Dict DictFacts.

Lemma length_sort_dict (d : Dict.t) :
  NoDup (keys d) -> List.length (sort_dict d) = List.length d.
Proof. intros H. apply Permutation_length. now apply sort_dict_perm. Qed.

(** The keys of [a] split into those [b] has and those it lacks. *)
Lemma keys_split_length (ka kb added : list string) :
  NoDup ka -> NoDup kb -> NoDup added ->
  (forall k, In k added <-> In k ka /\ ~ In k kb) ->
  (List.length ka <= List.length kb + List.length added)%nat /\
  (List.length ka = (List.length kb + List.length added)%nat <-> incl kb ka).
Proof.
  intros Ha Hb Hadd Hiff.
  set (inb := fun k => if in_dec string_dec k kb then true else false).
  assert (Hpart : (List.length (filter inb ka)
                   + List.length (filter (fun k => negb (inb k)) ka)
                   = List.length ka)%nat).
  { clear. induction ka as [|k ka IH]; simpl; [reflexivity|].
    destruct (inb k); simpl; lia. }
  assert (Hout : List.length (filter (fun k => negb (inb k)) ka)
                 = List.length added).
  { apply Permutation_length. apply NoDup_Permutation.
    - now apply NoDup_filter.
    - exact Hadd.
    - intros k. rewrite filter_In, Hiff. unfold inb.
      destruct (in_dec string_dec k kb); simpl; intuition congruence. }
  assert (Hin : incl (filter inb ka) kb).
  { intros k Hk. apply filter_In in Hk as [_ Hk]. unfold inb in Hk.
    destruct (in_dec string_dec k kb); [assumption | discriminate]. }
  assert (Hnd : NoDup (filter inb ka)) by now apply NoDup_filter.
  pose proof (NoDup_incl_length Hnd Hin) as Hle.
  split; [lia|]. split.
  - intros Heq. assert (Hle' : (List.length kb
                              <= List.length (filter inb ka))%nat) by lia.
    pose proof (NoDup_length_incl Hnd Hle' Hin) as Hback.
    intros k Hk. apply Hback in Hk. now apply filter_In in Hk as [Hk _].
  - intros Hincl.
    assert (Hback : incl kb (filter inb ka)).
    { intros k Hk. apply filter_In. split; [now apply Hincl|].
      unfold inb. destruct (in_dec string_dec k kb); [reflexivity|tauto]. }
    pose proof (NoDup_incl_length Hb Hback). lia.
Qed.

Lemma bar_counts (chi2 : chi2_fun) (a b a' b' : Dict.t)
      (ps : list (string * Q)) :
  NoDup (keys a) -> NoDup (keys b) ->
  enrichment_loop chi2 a b = Ok (a', b', ps) ->
  List.length (fractions (sort_dict a')) = List.length a /\
  (List.length (fractions (sort_dict a'))
   <= List.length (fractions (sort_dict b')))%nat /\
  (List.length (fractions (sort_dict a'))
   = List.length (fractions (sort_dict b'))
   <-> incl (keys b) (keys a)).
Proof.
  intros Ha Hb Hloop. rewrite enrichment_loop_eq in Hloop.
  destruct (traverse _ _) as [qs|e]; simpl in Hloop; [|discriminate].
  injection Hloop as <- <- _.
  destruct (touch_all_appends (keys a) b) as (added & Heq & Hna & Hiff).
  assert (Hb' : NoDup (keys (touch_all (keys a) b))).
  { rewrite Heq. unfold keys. rewrite map_app.
    fold (keys b). fold (keys (zero_items added)). rewrite keys_zero_items.
    apply NoDup_app; try assumption.
    intros x Hx Hx'. apply Hiff in Hx'. tauto. }
  rewrite !length_fractions, !length_sort_dict by assumption.
  rewrite Heq, length_app. unfold zero_items. rewrite length_map.
  destruct (keys_split_length (keys a) (keys b) added Ha Hb Hna Hiff)
    as [Hle Heqv].
  unfold keys in Hle, Heqv. rewrite !length_map in Hle, Heqv.
  split; [reflexivity|]. split; [lia|]. split.
  - intros H. apply Heqv. lia.
  - intros H. apply Heqv in H. lia.
Qed.

End BarCounts.

(** ** The binary64 division

    The library specifies [PrimFloat.div] by [SFdiv] on the representation
    [Prim2SF]. For two integers below [2^53] that function is followed
    here step by step: both convert exactly, to significands of 53 bits;
    the quotient of the significands is computed to 53 or 54 bits with the
    position of the remainder; it is rounded to nearest, ties to even. *)

Section BinaryDivision.

Lemma digits2_size (p : BinNums.positive) : digits2_pos p = Pos.size p.
Proof. induction p; simpl; congruence. Qed.

Lemma digits2_log2 (p : BinNums.positive) : Zpos (digits2_pos p) = Z.log2 (Zpos p) + 1.
Proof.
  rewrite digits2_size. destruct p; cbn [Pos.size Z.log2]; lia.
Qed.

Lemma digits2_unique (p : BinNums.positive) (d : Z) :
  2 ^ (d - 1) <= Zpos p < 2 ^ d -> 0 < d -> Zpos (digits2_pos p) = d.
Proof.
  intros H Hd. rewrite digits2_log2.
  rewrite (Z.log2_unique (Zpos p) (d - 1)); [lia | lia |].
  replace (Z.succ (d - 1)) with d by lia. exact H.
Qed.

Lemma iter_xO (p k : BinNums.positive) :
  Zpos (Pos.iter xO p k) = Zpos p * 2 ^ Zpos k.
Proof.
  induction k as [|k IH] using Pos.peano_ind.
  - simpl. lia.
  - rewrite Pos.iter_succ, Pos2Z.inj_succ, Z.pow_succ_r by lia.
    rewrite Pos2Z.inj_xO, IH. lia.
Qed.

Lemma fexp_normal (e : Z) :
  -1021 <= e -> fexp prec emax e = e - 53.
Proof. intros H. unfold fexp, emin, prec, emax. lia. Qed.

Lemma binary_round_aux_exact (s : bool) (m : BinNums.positive) (e : Z) :
  Zpos (digits2_pos m) = 53 -> -1074 <= e <= 971 ->
  binary_round_aux prec emax s (Zpos m) e loc_Exact = S754_finite s m e.
Proof.
  intros Hd He. unfold binary_round_aux, shr_fexp. cbn [Zdigits2].
  rewrite Hd, fexp_normal by lia.
  replace (53 + e - 53 - e) with 0 by lia. cbn [shr shr_record_of_loc].
  cbn [shr_m loc_of_shr_record round_nearest_even Zdigits2].
  rewrite Hd, fexp_normal by lia.
  replace (53 + e - 53 - e) with 0 by lia. cbn [shr shr_record_of_loc shr_m].
  unfold emax, prec. destruct (Z.leb_spec e (1024 - 53)); [reflexivity | lia].
Qed.

Lemma to_Z_of_Z (z : Z) : 0 <= z < 2 ^ 63 -> Uint63Axioms.to_Z (Uint63.of_Z z) = z.
Proof.
  intros H. change (Uint63.to_Z (Uint63.of_Z z) = z).
  rewrite Uint63.of_Z_spec. apply Z.mod_small. exact H.
Qed.

Lemma float_of_int_zero : Prim2SF (float_of_int 0) = S754_zero false.
Proof. reflexivity. Qed.

Lemma float_of_int_pos (z : Z) :
  0 < z < 2 ^ 53 ->
  Prim2SF (float_of_int z)
  = S754_finite false (Z.to_pos (z * 2 ^ (52 - Z.log2 z))) (Z.log2 z - 52).
Proof.
  intros Hz. unfold float_of_int.
  destruct (Z.ltb_spec z 0); [lia|].
  rewrite of_uint63_spec, to_Z_of_Z by (split; [lia|]; apply Z.lt_trans with (2^53); [lia|reflexivity]).
  destruct z as [|p|p]; try lia.
  cbn [binary_normalize]. unfold binary_round.
  pose proof (Z.log2_spec (Zpos p) ltac:(lia)) as Hlog.
  assert (Hl : 0 <= Z.log2 (Zpos p) <= 52).
  { split; [apply Z.log2_nonneg|].
    assert (Z.log2 (Zpos p) < 53); [|lia].
    apply Z.log2_lt_pow2; lia. }
  rewrite Z.add_0_r, digits2_log2, fexp_normal by lia.
  unfold shl_align.
  destruct (Z.log2 (Zpos p) + 1 - 53 - 0) as [|k|k] eqn:Ek; try lia.
  - assert (E : Z.log2 (Zpos p) = 52) by lia. rewrite E. simpl (2 ^ (52 - 52)).
    rewrite Z.mul_1_r. simpl Z.to_pos.
    rewrite binary_round_aux_exact; [reflexivity | rewrite digits2_log2; lia | lia].
  - assert (Ek' : Zpos k = 52 - Z.log2 (Zpos p)) by lia.
    rewrite binary_round_aux_exact.
    + f_equal; [|lia]. apply Pos2Z.inj. rewrite iter_xO, Ek'.
      rewrite Z2Pos.id; [reflexivity|]. apply Z.mul_pos_pos; [lia|].
      apply Z.pow_pos_nonneg; lia.
    + apply digits2_unique; [|lia]. rewrite iter_xO, Ek'.
      assert (H0 : 0 < 2 ^ (52 - Z.log2 (Zpos p)))
        by (apply Z.pow_pos_nonneg; lia).
      assert (E1 : 2 ^ (53 - 1)
                   = 2 ^ Z.log2 (Zpos p) * 2 ^ (52 - Z.log2 (Zpos p)))
        by (rewrite <- Z.pow_add_r by lia; f_equal; lia).
      assert (E2 : 2 ^ 53
                   = 2 ^ Z.succ (Z.log2 (Zpos p))
                     * 2 ^ (52 - Z.log2 (Zpos p)))
        by (rewrite <- Z.pow_add_r by lia; f_equal; lia).
      rewrite E1, E2. split.
      * apply Z.mul_le_mono_nonneg_r; lia.
      * apply Z.mul_lt_mono_pos_r; lia.
    + lia.
Qed.

Lemma Q_of_float_SF2Q (x : float) : Q_of_float x = SF2Q (Prim2SF x).
Proof. reflexivity. Qed.

Lemma new_location_spec (nb r : Z) :
  0 < nb -> 0 <= r < nb ->
  new_location nb r
  = if r =? 0 then loc_Exact else loc_Inexact (2 * r ?= nb).
Proof.
  intros Hnb Hr. unfold new_location.
  destruct (Z.even nb) eqn:Ev.
  - unfold new_location_even. reflexivity.
  - unfold new_location_odd. destruct (r =? 0); [reflexivity|]. f_equal.
    assert (Hodd : Z.odd nb = true) by (rewrite <- Z.negb_even, Ev; reflexivity).
    apply Z.odd_spec in Hodd. destruct Hodd as [k Hk].
    destruct (Z.compare_spec (2 * r + 1) nb), (Z.compare_spec (2 * r) nb);
      try reflexivity; lia.
Qed.

(** The last step of a rounding: a significand of 53 bits is kept, [2^53]
    is renormalized. *)
Lemma round_finish (s : bool) (M e : Z) :
  2 ^ 52 <= M <= 2 ^ 53 -> -1074 <= e <= 970 ->
  (let '(mrs, e') := shr_fexp prec emax M e loc_Exact in
   match shr_m mrs with
   | Z0 => S754_zero s
   | Zpos m => if e' <=? emax - prec then S754_finite s m e'
               else S754_infinity s
   | Zneg _ => S754_nan
   end)
  = if M =? 2 ^ 53 then S754_finite s (Z.to_pos (2 ^ 52)) (e + 1)
    else S754_finite s (Z.to_pos M) e.
Proof.
  intros HM He. destruct (Z.eqb_spec M (2 ^ 53)) as [E|E].
  - subst M. unfold shr_fexp. cbn [Zdigits2].
    change (Zdigits2 (2 ^ 53)) with 54.
    rewrite fexp_normal by lia. replace (54 + e - 53 - e) with 1 by lia.
    cbn. destruct (Z.leb_spec (e + 1) 971); [reflexivity | lia].
  - destruct M as [|p|p]; try lia. unfold shr_fexp. cbn [Zdigits2].
    rewrite (digits2_unique p 53) by lia.
    rewrite fexp_normal by lia. replace (53 + e - 53 - e) with 0 by lia.
    cbn [shr shr_record_of_loc shr_m]. unfold emax, prec.
    destruct (Z.leb_spec e (1024 - 53)); [|lia].
    rewrite Pos2Z.id. reflexivity.
Qed.

Lemma round_nearest_even_range (m : Z) (l : location) :
  m <= round_nearest_even m l <= m + 1.
Proof.
  destruct l as [|[| |]]; cbn [round_nearest_even]; try lia.
  destruct (Z.even m); lia.
Qed.

Lemma loc_of_record_of_loc (m : Z) (l : location) :
  loc_of_shr_record (shr_record_of_loc m l) = l.
Proof. destruct l as [|[| |]]; reflexivity. Qed.

(** A quotient with 53 bits is rounded as it is. *)
Lemma round_aux_53 (s : bool) (q e : Z) (l : location) :
  2 ^ 52 <= q < 2 ^ 53 -> -1074 <= e <= 970 ->
  binary_round_aux prec emax s q e l
  = let M := round_nearest_even q l in
    if M =? 2 ^ 53 then S754_finite s (Z.to_pos (2 ^ 52)) (e + 1)
    else S754_finite s (Z.to_pos M) e.
Proof.
  intros Hq He. unfold binary_round_aux.
  destruct q as [|p|p]; try lia.
  unfold shr_fexp at 1. cbn [Zdigits2].
  rewrite (digits2_unique p 53) by lia.
  rewrite fexp_normal by lia. replace (53 + e - 53 - e) with 0 by lia.
  cbn [shr]. 
  replace (shr_m (shr_record_of_loc (Z.pos p) l)) with (Z.pos p)
    by (destruct l as [|[| |]]; reflexivity).
  rewrite loc_of_record_of_loc.
  pose proof (round_nearest_even_range (Zpos p) l) as HM.
  apply round_finish; lia.
Qed.

(** A quotient with 54 bits is shifted by one bit and then rounded. *)
Lemma round_aux_54 (s : bool) (q e : Z) (l : location) :
  2 ^ 53 <= q < 2 ^ 54 -> -1074 <= e <= 969 ->
  binary_round_aux prec emax s q e l
  = let M := round_nearest_even (q / 2) (shifted_loc q l) in
    if M =? 2 ^ 53 then S754_finite s (Z.to_pos (2 ^ 52)) (e + 2)
    else S754_finite s (Z.to_pos M) (e + 1).
Proof.
  intros Hq He. unfold binary_round_aux.
  destruct q as [|p|p]; try lia.
  unfold shr_fexp at 1. cbn [Zdigits2].
  rewrite (digits2_unique p 54) by lia.
  rewrite fexp_normal by lia. replace (54 + e - 53 - e) with 1 by lia.
  cbn [shr iter_pos].
  assert (Hs : shr_1 (shr_record_of_loc (Z.pos p) l)
               = shr_record_of_loc (Z.pos p / 2) (shifted_loc (Z.pos p) l)).
  { destruct p as [p|p|]; [| |lia].
    - replace (Z.pos p~1 / 2) with (Z.pos p)
        by (apply (Z.div_unique _ 2 _ 1); lia).
      destruct l as [|[| |]]; reflexivity.
    - replace (Z.pos p~0 / 2) with (Z.pos p)
        by (apply (Z.div_unique _ 2 _ 0); lia).
      destruct l as [|[| |]]; reflexivity. }
  rewrite Hs.
  replace (shr_m (shr_record_of_loc (Z.pos p / 2) (shifted_loc (Z.pos p) l)))
    with (Z.pos p / 2)
    by (destruct (shifted_loc (Z.pos p) l) as [|[| |]]; reflexivity).
  rewrite loc_of_record_of_loc.
  pose proof (round_nearest_even_range (Z.pos p / 2)
                                       (shifted_loc (Z.pos p) l)) as HM.
  assert (2 ^ 52 <= Z.pos p / 2 < 2 ^ 53).
  { split; [apply Z.div_le_lower_bound; lia
           | apply Z.div_lt_upper_bound; lia]. }
  replace (e + 2) with (e + 1 + 1) by lia.
  apply round_finish; lia.
Qed.

Lemma rne_quotient (n d : Z) :
  0 < d -> 0 <= n ->
  round_nearest_even (n / d) (new_location d (n mod d))
  = round_half_even n d.
Proof.
  intros Hd Hn. pose proof (Z.mod_pos_bound n d Hd) as Hr.
  rewrite new_location_spec by lia. unfold round_half_even.
  destruct (Z.eqb_spec (n mod d) 0) as [E|E].
  - rewrite E. cbn [round_nearest_even].
    assert (H0 : (2 * 0 ?= d) = Lt) by (apply Z.compare_lt_iff; lia).
    rewrite H0. reflexivity.
  - cbn [round_nearest_even].
    destruct (2 * (n mod d) ?= d); reflexivity.
Qed.

Lemma rne_half_quotient (n d : Z) :
  0 < d -> 0 <= n ->
  round_nearest_even ((2 * n) / d / 2)
    (shifted_loc ((2 * n) / d) (new_location d ((2 * n) mod d)))
  = round_half_even n d.
Proof.
  intros Hd Hn.
  pose proof (Z.mod_pos_bound (2 * n) d Hd) as Hr.
  pose proof (Z.div_mod (2 * n) d ltac:(lia)) as Hdm.
  set (q := 2 * n / d) in *. set (r := (2 * n) mod d) in *.
  pose proof (Z.div_mod q 2 ltac:(lia)) as Hq.
  pose proof (Z.mod_pos_bound q 2 ltac:(lia)) as Hb.
  rewrite Zmod_odd in Hq, Hb.
  rewrite new_location_spec by lia.
  assert (Hdiv : n / d = q / 2).
  { symmetry. apply (Z.div_unique_pos n d (q / 2) (n - d * (q / 2))); [|lia].
    destruct (Z.odd q); nia. }
  assert (Hmod : 2 * (n mod d) = (if Z.odd q then d else 0) + r).
  { pose proof (Z.div_mod n d ltac:(lia)) as Hn'. rewrite Hdiv in Hn'.
    destruct (Z.odd q); nia. }
  unfold round_half_even. rewrite Hmod, Hdiv. unfold shifted_loc.
  destruct (Z.odd q), (Z.eqb_spec r 0) as [E|E];
    cbn [round_nearest_even].
  - rewrite E, Z.add_0_r, Z.compare_refl. reflexivity.
  - assert (H0 : (d + r ?= d) = Gt) by (apply Z.compare_gt_iff; lia).
    rewrite H0. reflexivity.
  - rewrite E.
    assert (H0 : (0 + 0 ?= d) = Lt) by (apply Z.compare_lt_iff; lia).
    rewrite H0. reflexivity.
  - assert (H0 : (0 + r ?= d) = Lt) by (apply Z.compare_lt_iff; lia).
    rewrite H0. reflexivity.
Qed.

Lemma round_half_even_scale (c n d : Z) :
  0 < c -> 0 < d ->
  round_half_even (c * n) (c * d) = round_half_even n d.
Proof.
  intros Hc Hd. unfold round_half_even.
  rewrite Z.div_mul_cancel_l, Zmult_mod_distr_l by lia.
  replace (2 * (c * (n mod d))) with (c * (2 * (n mod d))) by ring.
  rewrite <- Zmult_compare_compat_l by lia. reflexivity.
Qed.

Lemma SFdiv_normal (m1 m2 : BinNums.positive) (e1 e2 : Z) :
  2 ^ 52 <= Zpos m1 < 2 ^ 53 -> 2 ^ 52 <= Zpos m2 < 2 ^ 53 ->
  -52 <= e1 - e2 <= 0 ->
  SFdiv prec emax (S754_finite false m1 e1) (S754_finite false m2 e2)
  = binary_round_aux prec emax false
      ((Zpos m1 * 2 ^ 53) / Zpos m2) (e1 - e2 - 53)
      (new_location (Zpos m2) ((Zpos m1 * 2 ^ 53) mod Zpos m2)).
Proof.
  intros H1 H2 He. unfold SFdiv, SFdiv_core_binary. cbn [Zdigits2 xorb].
  rewrite (digits2_unique m1 53), (digits2_unique m2 53) by lia.
  rewrite fexp_normal by lia.
  replace (Z.min (53 + e1 - (53 + e2) - 53) (e1 - e2)) with (e1 - e2 - 53)
    by lia.
  replace (e1 - e2 - (e1 - e2 - 53)) with 53 by lia.
  rewrite Z.shiftl_mul_pow2 by lia.
  unfold Z.div, Z.modulo.
  destruct (Z.div_eucl (Z.pos m1 * 2 ^ 53) (Z.pos m2)) as [q r].
  reflexivity.
Qed.

Lemma finish_value (M E : Z) :
  2 ^ 52 <= M <= 2 ^ 53 -> E < -1 ->
  exists q,
    SF2Q (if M =? 2 ^ 53 then S754_finite false (Z.to_pos (2 ^ 52)) (E + 1)
          else S754_finite false (Z.to_pos M) E) = Some q /\
    (q == Qmake M (Z.to_pos (2 ^ (- E))))%Q.
Proof.
  intros HM HE.
  assert (Hp : 0 < 2 ^ (- E)) by (apply Z.pow_pos_nonneg; lia).
  assert (Hp1 : 0 < 2 ^ (- (E + 1))) by (apply Z.pow_pos_nonneg; lia).
  assert (Hpp : 2 ^ (- E) = 2 * 2 ^ (- (E + 1))).
  { rewrite <- Z.pow_succ_r by lia. f_equal. lia. }
  destruct (Z.eqb_spec M (2 ^ 53)) as [EM|EM]; cbn [SF2Q].
  - destruct (Z.leb_spec 0 (E + 1)); [lia|].
    eexists. split; [reflexivity|]. unfold Qeq. cbn [Qnum Qden].
    rewrite !Z2Pos.id by lia. subst M. rewrite Hpp.
    change (2 ^ 53) with (2 * 2 ^ 52). ring.
  - destruct (Z.leb_spec 0 E); [lia|].
    eexists. split; [reflexivity|]. unfold Qeq. cbn [Qnum Qden].
    rewrite !Z2Pos.id by lia. reflexivity.
Qed.

(** Binary64 division of two integers below [2^53] is the exact quotient
    rounded to nearest, ties to even. *)
Theorem div_is_nearest (v t : Z) :
  0 < v <= t -> t < 2 ^ 53 ->
  exists q,
    Q_of_float (PrimFloat.div (float_of_int v) (float_of_int t)) = Some q /\
    (q == div_nearest v t)%Q.
Proof.
  intros Hv Ht. rewrite Q_of_float_SF2Q, FloatAxioms.div_spec.
  rewrite !float_of_int_pos by lia.
  pose proof (Z.log2_spec v ltac:(lia)) as Lv.
  pose proof (Z.log2_spec t ltac:(lia)) as Lt.
  pose proof (Z.log2_nonneg v) as Nv. pose proof (Z.log2_nonneg t) as Nt.
  assert (Hvt : Z.log2 v <= Z.log2 t) by (apply Z.log2_le_mono; lia).
  assert (Ht52 : Z.log2 t <= 52).
  { assert (Z.log2 t < 53); [apply Z.log2_lt_pow2; lia | lia]. }
  set (a := 52 - Z.log2 v) in *. set (b := 52 - Z.log2 t) in *.
  assert (Ha : 0 < 2 ^ a) by (apply Z.pow_pos_nonneg; lia).
  assert (Hb : 0 < 2 ^ b) by (apply Z.pow_pos_nonneg; lia).
  assert (Hm1 : 2 ^ 52 <= v * 2 ^ a < 2 ^ 53).
  { assert (E1 : 2 ^ 52 = 2 ^ Z.log2 v * 2 ^ a)
      by (rewrite <- Z.pow_add_r by lia; f_equal; lia).
    assert (E2 : 2 ^ 53 = 2 ^ Z.succ (Z.log2 v) * 2 ^ a)
      by (rewrite <- Z.pow_add_r by lia; f_equal; lia).
    rewrite E1, E2. split;
      [apply Z.mul_le_mono_nonneg_r | apply Z.mul_lt_mono_pos_r]; lia. }
  assert (Hm2 : 2 ^ 52 <= t * 2 ^ b < 2 ^ 53).
  { assert (E1 : 2 ^ 52 = 2 ^ Z.log2 t * 2 ^ b)
      by (rewrite <- Z.pow_add_r by lia; f_equal; lia).
    assert (E2 : 2 ^ 53 = 2 ^ Z.succ (Z.log2 t) * 2 ^ b)
      by (rewrite <- Z.pow_add_r by lia; f_equal; lia).
    rewrite E1, E2. split;
      [apply Z.mul_le_mono_nonneg_r | apply Z.mul_lt_mono_pos_r]; lia. }
  set (m1 := v * 2 ^ a) in *. set (m2 := t * 2 ^ b) in *.
  unfold SF64div.
  rewrite SFdiv_normal by (rewrite ?Z2Pos.id; lia).
  rewrite !Z2Pos.id by lia.
  set (E := Z.log2 v - 52 - (Z.log2 t - 52) - 53).
  assert (Hpow : 2 ^ 52 * 2 = 2 ^ 53) by reflexivity.
  unfold div_nearest, quotient_exponent.
  (* the test of [quotient_exponent] compares the two significands *)
  assert (Hab : 2 ^ (52 + Z.log2 t - Z.log2 v) * 2 ^ b = 2 ^ 52 * 2 ^ a).
  { rewrite <- !Z.pow_add_r by lia. f_equal. lia. }
  assert (Htest : (v * 2 ^ (52 + Z.log2 t - Z.log2 v) <? 2 ^ 52 * t)
                  = (m1 <? m2)).
  { apply eq_true_iff_eq. rewrite !Z.ltb_lt. unfold m1, m2.
    assert (0 < 2 ^ (52 + Z.log2 t - Z.log2 v))
      by (apply Z.pow_pos_nonneg; lia).
    split; intros H'; nia. }
  rewrite Htest.
  destruct (Z.ltb_spec m1 m2) as [Hlt|Hge].
  - (* 53 bits in the quotient *)
    assert (Hq : 2 ^ 52 <= m1 * 2 ^ 53 / m2 < 2 ^ 53).
    { split; [apply Z.div_le_lower_bound | apply Z.div_lt_upper_bound]; nia. }
    rewrite round_aux_53 by (unfold E; lia). cbv zeta.
    rewrite rne_quotient by lia.
    pose proof (round_nearest_even_range (m1 * 2 ^ 53 / m2)
                  (new_location m2 ((m1 * 2 ^ 53) mod m2))) as HM.
    rewrite rne_quotient in HM by lia.
    destruct (finish_value (round_half_even (m1 * 2 ^ 53) m2) E
                ltac:(lia) ltac:(unfold E; lia)) as (q & Hq1 & Hq2).
    exists q. split; [exact Hq1|]. rewrite Hq2.
    replace (- E) with (52 + Z.log2 t - Z.log2 v + 1) by (unfold E; lia).
    replace (round_half_even (m1 * 2 ^ 53) m2)
      with (round_half_even (v * 2 ^ (52 + Z.log2 t - Z.log2 v + 1)) t);
      [reflexivity|].
    rewrite <- (round_half_even_scale (2 ^ b)) by lia.
    f_equal; [|unfold m2; ring].
    unfold m1. rewrite Z.pow_add_r by lia.
    change (2 ^ 1) with 2. change (2 ^ 53) with (2 ^ 52 * 2). nia.
  - (* 54 bits *)
    assert (Hq : 2 ^ 53 <= m1 * 2 ^ 53 / m2 < 2 ^ 54).
    { change (2 ^ 54) with (2 ^ 53 * 2).
      split; [apply Z.div_le_lower_bound | apply Z.div_lt_upper_bound]; nia. }
    rewrite round_aux_54 by (unfold E; lia). cbv zeta.
    replace (m1 * 2 ^ 53) with (2 * (m1 * 2 ^ 52))
      by (change (2 ^ 53) with (2 ^ 52 * 2); ring).
    rewrite rne_half_quotient by lia.
    pose proof (round_nearest_even_range (2 * (m1 * 2 ^ 52) / m2 / 2)
                  (shifted_loc (2 * (m1 * 2 ^ 52) / m2)
                     (new_location m2 ((2 * (m1 * 2 ^ 52)) mod m2)))) as HM.
    rewrite rne_half_quotient in HM by lia.
    assert (Hq' : 2 ^ 52 <= 2 * (m1 * 2 ^ 52) / m2 / 2 < 2 ^ 53).
    { replace (2 * (m1 * 2 ^ 52)) with (m1 * 2 ^ 53)
        by (change (2 ^ 53) with (2 ^ 52 * 2); ring).
      split; [apply Z.div_le_lower_bound | apply Z.div_lt_upper_bound]; lia. }
    replace (E + 2) with (E + 1 + 1) by lia.
    destruct (finish_value (round_half_even (m1 * 2 ^ 52) m2) (E + 1)
                ltac:(lia) ltac:(unfold E; lia)) as (q & Hq1 & Hq2).
    exists q. split; [exact Hq1|]. rewrite Hq2.
    replace (- (E + 1)) with (52 + Z.log2 t - Z.log2 v) by (unfold E; lia).
    replace (round_half_even (m1 * 2 ^ 52) m2)
      with (round_half_even (v * 2 ^ (52 + Z.log2 t - Z.log2 v)) t);
      [reflexivity|].
    rewrite <- (round_half_even_scale (2 ^ b)) by lia.
    f_equal; [|unfold m2; ring].
    unfold m1. nia.
Qed.

Lemma div_zero_numerator (t : Z) :
  0 < t < 2 ^ 53 ->
  Q_of_float (PrimFloat.div (float_of_int 0) (float_of_int t)) = Some 0%Q.
Proof.
  intros Ht. rewrite Q_of_float_SF2Q, FloatAxioms.div_spec.
  rewrite (float_of_int_pos t) by lia. rewrite float_of_int_zero.
  reflexivity.
Qed.

End BinaryDivision.

(** ** Normalization *)

Section Normalization.
Import Dict DictFacts.









Lemma Qsum_same_den (p : BinNums.positive) (l : list Z) :
  (Qsum (map (fun v => v # p) l) == sum l # p)%Q.
Proof.
  induction l as [|v l IH]; simpl.
  - reflexivity.
  - rewrite IH, sum_cons. unfold Qeq, Qplus. simpl. lia.
Qed.

Lemma exact_fractions_sum (d : Dict.t) :
  0 < sum (values d) -> (Qsum (exact_fractions d) == 1)%Q.
Proof.
  intros H. unfold exact_fractions. rewrite Qsum_same_den.
  unfold Qeq. simpl. rewrite Z2Pos.id by exact H. lia.
Qed.

Lemma round_half_even_bound (n d : Z) :
  0 < d -> Z.abs (2 * (round_half_even n d * d - n)) <= d.
Proof.
  intros Hd. unfold round_half_even.
  pose proof (Z.div_mod n d ltac:(lia)) as Hdm.
  pose proof (Z.mod_pos_bound n d Hd) as Hr.
  destruct (Z.compare_spec (2 * (n mod d)) d) as [E|E|E];
    [destruct (Z.even (n / d))| |]; nia.
Qed.

Lemma quotient_exponent_bound (v t : Z) :
  0 < v <= t ->
  0 < quotient_exponent v t /\
  2 ^ 52 * t <= v * 2 ^ quotient_exponent v t.
Proof.
  intros [Hv Hvt]. unfold quotient_exponent.
  assert (Hl : Z.log2 v <= Z.log2 t) by (apply Z.log2_le_mono; lia).
  pose proof (Z.log2_nonneg v) as Hlv.
  destruct (Z.ltb_spec (v * 2 ^ (52 + Z.log2 t - Z.log2 v)) (2 ^ 52 * t))
    as [Hlt|Hge]; [|split; [lia | exact Hge]].
  split; [lia|].
  destruct (Z.log2_spec v Hv) as [Hv1 _].
  destruct (Z.log2_spec t ltac:(lia)) as [_ Ht2].
  replace (52 + Z.log2 t - Z.log2 v + 1)
    with (53 + Z.log2 t - Z.log2 v) by lia.
  assert (Hp : 2 ^ Z.log2 v * 2 ^ (53 + Z.log2 t - Z.log2 v)
               = 2 ^ 52 * 2 ^ (Z.succ (Z.log2 t))).
  { rewrite <- !Z.pow_add_r by lia. f_equal. lia. }
  assert (0 < 2 ^ (53 + Z.log2 t - Z.log2 v))
    by (apply Z.pow_pos_nonneg; lia).
  nia.
Qed.

Lemma div_nearest_zero (t : Z) : 0 < t -> (div_nearest 0 t == 0)%Q.
Proof.
  intros Ht. unfold div_nearest, round_half_even.
  rewrite Z.mul_0_l, Z.div_0_l, Z.mod_0_l by lia.
  destruct (Z.compare_spec (2 * 0) t); try lia. reflexivity.
Qed.

(** The rounded quotient is within the relative error [2^-53] of the
    exact one. *)
Lemma div_nearest_error (v t : Z) :
  0 <= v <= t -> 0 < t ->
  (Qabs (div_nearest v t - (v # Z.to_pos t))
   <= (v # Z.to_pos t) * (1 # 2 ^ 53))%Q.
Proof.
  intros [Hv Hvt] Ht.
  destruct (Z.eq_dec v 0) as [->|Hne].
  - rewrite div_nearest_zero by exact Ht.
    unfold Qle, Qabs, Qminus, Qplus, Qopp, Qmult. simpl. lia.
  - destruct (quotient_exponent_bound v t ltac:(lia)) as [He Hx].
    unfold div_nearest.
    set (e := quotient_exponent v t) in *.
    assert (HP : 0 < 2 ^ e) by (apply Z.pow_pos_nonneg; lia).
    pose proof (round_half_even_bound (v * 2 ^ e) t Ht) as Hm.
    set (m := round_half_even (v * 2 ^ e) t) in *.
    apply Qabs_Qle_condition.
    unfold Qle, Qminus, Qplus, Qopp, Qmult. cbn [Qnum Qden].
    rewrite !Pos2Z.inj_mul, !Z2Pos.id by lia.
    change (Z.pos (2 ^ 53)) with (2 ^ 53).
    set (P := 2 ^ e) in *.
    assert (H53 : 2 ^ 53 = 2 * 2 ^ 52) by reflexivity.
    assert (0 < 2 ^ 52) by reflexivity.
    split; nia.
Qed.

Lemma Qsum_error (f g : Z -> Q) (eps : Q) (vs : list Z) :
  (forall v, In v vs -> (Qabs (f v - g v) <= g v * eps)%Q) ->
  (Qabs (Qsum (map f vs) - Qsum (map g vs)) <= Qsum (map g vs) * eps)%Q.
Proof.
  induction vs as [|v vs IH]; intros H.
  - unfold Qle, Qabs, Qminus, Qplus, Qopp, Qmult. simpl. lia.
  - cbn [map]. change (Qsum (f v :: map f vs)) with (f v + Qsum (map f vs))%Q.
    change (Qsum (g v :: map g vs)) with (g v + Qsum (map g vs))%Q.
    assert (E1 : (f v + Qsum (map f vs) - (g v + Qsum (map g vs))
                  == (f v - g v) + (Qsum (map f vs) - Qsum (map g vs)))%Q)
      by ring.
    assert (E2 : ((g v + Qsum (map g vs)) * eps
                  == g v * eps + Qsum (map g vs) * eps)%Q) by ring.
    setoid_rewrite E1. setoid_rewrite E2.
    eapply Qle_trans; [apply Qabs_triangle|].
    apply Qplus_le_compat; [apply H; simpl; auto|].
    apply IH. intros w Hw. apply H. simpl. auto.
Qed.

Lemma le_sum (l : list Z) (v : Z) :
  Forall (fun x => 0 <= x) l -> In v l -> 0 <= v <= sum l.
Proof.
  induction 1 as [|x l Hx Hl IH]; simpl; [tauto|].
  assert (0 <= sum l).
  { clear IH. induction Hl as [|y l Hy _ IH]; [reflexivity|].
    rewrite sum_cons. lia. }
  rewrite sum_cons. intros [<-|Hin]; [lia|].
  specialize (IH Hin). lia.
Qed.

(** The rounded fractions of a dictionary add up to one within [2^-53]. *)
Lemma nearest_fractions_sum (d : Dict.t) :
  Forall (fun v => 0 <= v) (values d) ->
  0 < sum (values d) ->
  (Qabs (Qsum (nearest_fractions d) - 1) <= 1 # 2 ^ 53)%Q.
Proof.
  intros Hnn Hpos. unfold nearest_fractions.
  pose proof (exact_fractions_sum d Hpos) as Hex. unfold exact_fractions in Hex.
  assert (Hb := Qsum_error (fun v => div_nearest v (sum (values d)))
                           (fun v => v # Z.to_pos (sum (values d)))
                           (1 # 2 ^ 53)%Q (values d)).
  cbv beta in Hb. setoid_rewrite Hex in Hb.
  eapply Qle_trans; [apply Hb|].
  - intros v Hv. apply div_nearest_error; [|exact Hpos].
    now apply le_sum.
  - unfold Qle. simpl. lia.
Qed.


Lemma Qsum_Forall2 (l l' : list Q) :
  Forall2 Qeq l l' -> (Qsum l == Qsum l')%Q.
Proof.
  induction 1 as [|x y l l' Hxy _ IH]; [reflexivity|].
  change (x + Qsum l == y + Qsum l')%Q. now rewrite Hxy, IH.
Qed.

(** Every quotient of a count by a total that is not below it is the
    exact quotient rounded to nearest. *)
Lemma divisions_nearest (t : Z) (vs : list Z) :
  0 < t < 2 ^ 53 -> Forall (fun v => 0 <= v <= t) vs ->
  exists qs : list Q,
    map (fun v => Q_of_float (PrimFloat.div (float_of_int v)
                                            (float_of_int t))) vs
    = map Some qs /\
    Forall2 Qeq qs (map (fun v => div_nearest v t) vs).
Proof.
  intros Ht. induction 1 as [|v vs Hv _ (qs & Hqs & Hall)].
  - exists []. split; [reflexivity | constructor].
  - assert (Hq : exists q,
               Q_of_float (PrimFloat.div (float_of_int v) (float_of_int t))
               = Some q /\ (q == div_nearest v t)%Q).
    { destruct (Z.eq_dec v 0) as [->|Hne].
      - exists 0%Q. split; [now apply div_zero_numerator|].
        symmetry. apply div_nearest_zero. lia.
      - apply div_is_nearest; lia. }
    destruct Hq as (q & Hq1 & Hq2). exists (q :: qs). cbn [map].
    rewrite Hq1, Hqs. split; [reflexivity | now constructor].
Qed.

(** The fractions the code computes for a dictionary of non-negative counts
    with a positive total below [2^53]: finite numbers, each the quotient
    rounded to nearest, and together within [2^-53] of one. *)
Lemma fractions_sum (d : Dict.t) :
  Forall (fun v => 0 <= v) (values d) ->
  0 < sum (values d) < 2 ^ 53 ->
  exists qs : list Q,
    map Q_of_float (fractions d) = map Some qs /\
    Forall2 Qeq qs (nearest_fractions d) /\
    (Qabs (Qsum qs - 1) <= 1 # 2 ^ 53)%Q.
Proof.
  intros Hnn Ht.
  destruct (divisions_nearest (sum (values d)) (values d) Ht)
    as (qs & Hqs & Hall).
  { apply Forall_forall. intros v Hv. now apply le_sum. }
  exists qs. unfold fractions. rewrite map_map. split; [exact Hqs|].
  split; [exact Hall|].
  rewrite (Qsum_Forall2 _ _ Hall). apply nearest_fractions_sum; lia || assumption.
Qed.



End Normalization.



(** The same first set against a second set with two categories: two
    heights for no position, and the second [ax.bar] refuses them. *)
Lemma empty_first_set_against_two_categories :
  fst (plot_mutation_spectrum chi2_proxy 0 1 default_labels default_colors
                              false None
                              (world_of [mkRow "X" "T>C"]
                                        [mkRow "1" "T>A"; mkRow "1" "T>C"]))
  = Raise ValueError.
Proof. vm_compute. reflexivity. Qed.

(** C4, as the code has it. For a dictionary of non-negative counts with
    a positive total below [2^53], [sorted] puts the items in strictly
    increasing label order and the dictionary rebuilt from them holds the
    same items. In whatever order those items are traversed, the fractions
    the code computes are finite binary64 numbers, each the count divided
    by the total and rounded to nearest, and they sum to one within
    [2^-53]; the exact quotients sum to one. For [A = {"T>C": 10, "T>A": 5}]
    and [B = {"T>C": 5, "T>A": 10}] the sorted category order is ["T>A"]
    before ["T>C"], in that order the fractions are [0.333, 0.667] for A
    and [0.667, 0.333] for B, and the binary64 values computed add up to
    [1.0]. *)
Theorem sorted_fractions_sum_to_one :
  forall d : Dict.t,
    Forall (fun v => 0 <= v) (Dict.values d) ->
    0 < sum (Dict.values d) < 2 ^ 53 ->
    Permutation (sorted (Dict.items d)) d /\
    (NoDup (Dict.keys d) ->
     StronglySorted key_lt (map fst (sorted (Dict.items d))) /\
     Permutation (sort_dict d) d) /\
    (forall d' : Dict.t,
        Permutation d' d ->
        fractions d'
        = map (fun v => PrimFloat.div (float_of_int v)
                                      (float_of_int (sum (Dict.values d))))
              (Dict.values d') /\
        exists qs : list Q,
          map Q_of_float (fractions d') = map Some qs /\
          Forall2 Qeq qs (nearest_fractions d') /\
          (Qabs (Qsum qs - 1) <= 1 # 2 ^ 53)%Q) /\
    (Qsum (exact_fractions d) == 1)%Q /\
    map fst (sorted (Dict.items scenario_A)) = ["T>A"; "T>C"] /\
    map fst (sorted (Dict.items scenario_B)) = ["T>A"; "T>C"] /\
    close_to 0.0005 (fractions (sorted (Dict.items scenario_A)))
             [0.333; 0.667]%float = true /\
    close_to 0.0005 (fractions (sorted (Dict.items scenario_B)))
             [0.667; 0.333]%float = true /\
    fold_left PrimFloat.add
              (fractions (sorted (Dict.items scenario_A))) 0%float
    = 1%float /\
    fold_left PrimFloat.add
              (fractions (sorted (Dict.items scenario_B))) 0%float
    = 1%float.
Proof.
  intros d Hnn Hsum.
  split; [apply sorted_perm|].
  split.
  { intros Hnd. split; [|now apply sort_dict_perm].
    apply sorted_keys_lt; [apply sorted_items_sorted|].
    eapply Permutation_NoDup; [|exact Hnd].
    apply Permutation_map. symmetry. apply sorted_perm. }
  split.
  { intros d' Hperm.
    assert (Hv : Permutation (Dict.values d') (Dict.values d))
      by now apply Permutation_map.
    assert (Hs : sum (Dict.values d') = sum (Dict.values d))
      by now apply sum_perm.
    split; [unfold fractions; now rewrite Hs|].
    apply fractions_sum; [|now rewrite Hs].
    eapply Permutation_Forall; [symmetry; exact Hv | exact Hnn]. }
  split; [apply exact_fractions_sum; lia|].
  split; [vm_compute; reflexivity|].
  split; [vm_compute; reflexivity|].
  split; [vm_compute; reflexivity|].
  split; [vm_compute; reflexivity|].
  split; vm_compute; reflexivity.
Qed.

(** The theorem above on the mapping A of the scenario, traversed in the
    order it was built in. *)
Lemma sorted_fractions_sum_to_one_witness :
  Forall (fun v => 0 <= v) (Dict.values scenario_A) /\
  0 < sum (Dict.values scenario_A) < 2 ^ 53 /\
  exists qs : list Q,
    map Q_of_float (fractions scenario_A) = map Some qs /\
    (Qabs (Qsum qs - 1) <= 1 # 2 ^ 53)%Q.
Proof.
  assert (Hnn : Forall (fun v => 0 <= v) (Dict.values scenario_A)).
  { repeat constructor; simpl; lia. }
  assert (Hpos : 0 < sum (Dict.values scenario_A) < 2 ^ 53).
  { split; reflexivity. }
  split; [exact Hnn|]. split; [exact Hpos|].
  destruct (sorted_fractions_sum_to_one _ Hnn Hpos)
    as (_ & _ & Hany & _).
  destruct (Hany scenario_A (Permutation_refl _))
    as (_ & qs & Hqs & _ & Hb).
  exists qs. split; [exact Hqs | exact Hb].
Defined.

(** C4, the part that fails: in sorted category order the fractions of the
    scenario's A are not [0.667, 0.333]; they are the other way round. *)
Lemma scenario_fractions_are_swapped :
  close_to 0.0005 (fractions (sort_dict scenario_A))
           [0.667; 0.333]%float = false /\
  close_to 0.0005 (fractions (sort_dict scenario_B))
           [0.333; 0.667]%float = false /\
  fractions (sort_dict scenario_A)
  = [0.33333333333333331; 0.66666666666666663]%float.
Proof.
  split; [vm_compute; reflexivity|].
  split; vm_compute; reflexivity.
Qed.

(** C8 at the failing input: B has a category that A lacks. The call
    returns; A's only bar is for ["T>C"], B's first bar is for ["T>A"], and
    the one tick label, taken from A, is ["T>C"]. *)
Theorem bars_misaligned_when_b_has_extra_key :
  exists (l : locals) (w' : world),
    plot_mutation_spectrum chi2_proxy 0 1 default_labels default_colors
                           false None
                           (world_of [mkRow "1" "T>C"]
                                     [mkRow "1" "T>A"; mkRow "1" "T>C"])
    = (Ok l, w') /\
    Dict.keys (sorted_a l) = ["T>C"] /\
    Dict.keys (sorted_b l) = ["T>A"; "T>C"] /\
    nth_error (Dict.keys (sorted_a l)) 0
    <> nth_error (Dict.keys (sorted_b l)) 0 /\
    a_frac l = [1%float] /\
    b_frac l = [0.5%float; 0.5%float] /\
    figures w'
    = [[Bar [0%float] [1%float] width "a" "#66c2a5";
        Bar [width] [0.5%float; 0.5%float] width "b" "#fc8d62";
        SetXticks [PrimFloat.div width 2%float];
        SetXticklabels ["T>C"];
        SetYlabel "Fraction"; SetXlabel "Mutation type"; Legend; Despine]].
Proof.
  eexists. eexists. split; [vm_compute; reflexivity|].
  split; [vm_compute; reflexivity|].
  split; [vm_compute; reflexivity|].
  split; [vm_compute; discriminate|].
  split; [vm_compute; reflexivity|].
  split; vm_compute; reflexivity.
Qed.

(** ** When the bars do line up *)

Section Alignment.
Import Dict DictFacts.

Lemma key_lt_irrefl (k : string) : ~ key_lt k k.
Proof.
  unfold key_lt. intros H. pose proof (String.compare_antisym k k) as Ha.
  rewrite H in Ha. discriminate.
Qed.

Lemma key_lt_asym (k k' : string) : key_lt k k' -> ~ key_lt k' k.
Proof.
  intros H H'. apply (key_lt_irrefl k). unfold key_lt in *.
  eapply compare_Lt_trans; eassumption.
Qed.

(** Two strictly increasing lists with the same elements are equal. *)
Lemma strictly_sorted_unique (l1 : list string) :
  forall l2 : list string,
    StronglySorted key_lt l1 -> StronglySorted key_lt l2 ->
    (forall x, In x l1 <-> In x l2) -> l1 = l2.
Proof.
  induction l1 as [|x r1 IH]; intros [|y r2] H1 H2 Hiff.
  - reflexivity.
  - exfalso. apply (proj2 (Hiff y)). simpl. auto.
  - exfalso. apply (proj1 (Hiff x)). simpl. auto.
  - apply StronglySorted_inv in H1 as [Hs1 Hx].
    apply StronglySorted_inv in H2 as [Hs2 Hy].
    rewrite Forall_forall in Hx, Hy.
    assert (Exy : x = y).
    { destruct (proj1 (Hiff x) (or_introl eq_refl)) as [E|Hin]; [auto|].
      destruct (proj2 (Hiff y) (or_introl eq_refl)) as [E|Hin']; [auto|].
      exfalso. apply (key_lt_asym x y); auto. }
    subst y. f_equal. apply IH; try assumption.
    intros z. split; intros Hz.
    + destruct (proj1 (Hiff z) (or_intror Hz)) as [E|Hin]; [|exact Hin].
      subst z. exfalso. apply (key_lt_irrefl x). now apply Hx.
    + destruct (proj2 (Hiff z) (or_intror Hz)) as [E|Hin]; [|exact Hin].
      subst z. exfalso. apply (key_lt_irrefl x). now apply Hy.
Qed.

Lemma keys_sort_dict_In (d : Dict.t) (k : string) :
  NoDup (keys d) -> In k (keys (sort_dict d)) <-> In k (keys d).
Proof.
  intros H. pose proof (sort_dict_perm d H) as Hp.
  apply (Permutation_map fst) in Hp.
  split; apply Permutation_in; [exact Hp | now symmetry].
Qed.

(** When every category of B is also one of A, the loop has made the two
    key sets equal and the sorted dictionaries pair bar for bar. *)
Lemma bars_aligned_when_b_within_a (chi2 : chi2_fun) (a b a' b' : Dict.t)
      (ps : list (string * Q)) :
  NoDup (keys a) -> NoDup (keys b) -> incl (keys b) (keys a) ->
  enrichment_loop chi2 a b = Ok (a', b', ps) ->
  keys (sort_dict a') = keys (sort_dict b').
Proof.
  intros Ha Hb Hincl Hloop. rewrite enrichment_loop_eq in Hloop.
  destruct (traverse _ _) as [qs|e]; simpl in Hloop; [|discriminate].
  injection Hloop as <- <- _.
  destruct (touch_all_appends (keys a) b) as (added & Heq & Hna & Hiff).
  assert (Hb' : NoDup (keys (touch_all (keys a) b))).
  { rewrite Heq. unfold keys. rewrite map_app.
    fold (keys b). fold (keys (zero_items added)). rewrite keys_zero_items.
    apply NoDup_app; try assumption.
    intros x Hx Hx'. apply Hiff in Hx'. tauto. }
  apply strictly_sorted_unique; try now apply sort_dict_keys_lt.
  intros k. rewrite !keys_sort_dict_In by assumption.
  rewrite Heq. unfold keys at 2. rewrite map_app, in_app_iff.
  fold (keys b). fold (keys (zero_items added)). rewrite keys_zero_items, Hiff.
  split.
  - intros Hk. destruct (in_dec string_dec k (keys b)); tauto.
  - intros [Hk|[Hk _]]; [now apply Hincl | exact Hk].
Qed.

End Alignment.

(** * Further properties of [plot_mutation_spectrum] *)

(** ** Totals *)

Section Totals.
Import Dict DictFacts.

Lemma sum_setitem_present (k : string) (v v0 : Z) (d : Dict.t) :
  lookup k d = Some v0 ->
  sum (values (setitem k v d)) = sum (values d) - v0 + v.
Proof.
  induction d as [|[k' v'] d IH]; simpl; [discriminate|].
  destruct (String.eqb_spec k k') as [->|Hne].
  - intros [= ->]. unfold values. simpl. rewrite !sum_cons. lia.
  - intros H. unfold values in *. simpl. rewrite !sum_cons, IH by exact H.
    lia.
Qed.

Lemma sum_incr (k : string) (d : Dict.t) :
  sum (values (incr k d)) = sum (values d) + 1.
Proof.
  unfold incr, getitem. destruct (lookup k d) as [v|] eqn:E.
  - rewrite (sum_setitem_present k (v + 1) v d E). lia.
  - rewrite (sum_setitem_present k (0 + 1) 0).
    + unfold values. rewrite map_app, sum_app. simpl. unfold sum at 2. simpl.
      lia.
    + rewrite lookup_app, E. simpl. now rewrite String.eqb_refl.
Qed.

Lemma sum_fold (indels : bool) (df : DataFrame) :
  forall a : Dict.t,
    sum (values (fold_left (count_row indels) df a))
    = sum (values a) + Z.of_nat (List.length (retained indels df)).
Proof.
  induction df as [|r df IH]; intros a; simpl; [lia|].
  rewrite IH, count_row_retained.
  destruct (retained_row indels r); [rewrite sum_incr; simpl List.length|];
    lia.
Qed.

End Totals.

(** X1. The total a call reports for a set, the sum of the counts of its
    dictionary, is the number of rows of the frame that pass the filter:
    every retained row is counted exactly once, whatever its label. *)
Theorem total_is_number_of_retained_rows :
  forall (indels : bool) (df : DataFrame),
    sum (Dict.values (count_mutations indels df))
    = Z.of_nat (List.length (retained indels df)).
Proof.
  intros indels df. unfold count_mutations. rewrite sum_fold. reflexivity.
Qed.

(** ** The tables the tests are asked about *)

Section Tables.
Import Dict DictFacts.

Lemma sum_count_mutations (indels : bool) (df : DataFrame) :
  sum (values (count_mutations indels df))
  = Z.of_nat (List.length (retained indels df)).
Proof. unfold count_mutations. rewrite sum_fold. reflexivity. Qed.

Lemma count_bounds (indels : bool) (df : DataFrame) (c : string) :
  0 <= count c (count_mutations indels df)
  <= sum (values (count_mutations indels df)).
Proof.
  destruct (in_dec string_dec c (keys (count_mutations indels df)))
    as [Hin|Hout].
  - destruct (count_sum_bounds _ c (positive_count_mutations indels df)
                               (NoDup_count_mutations indels df) Hin)
      as [H0 H1].
    assert (1 <= Z.of_nat (List.length (count_mutations indels df))).
    { destruct (count_mutations indels df); [contradiction|].
      simpl List.length. lia. }
    lia.
  - apply lookup_None_keys in Hout. unfold count. rewrite Hout.
    rewrite sum_count_mutations. lia.
Qed.

Lemma spec_table_count_table (indels : bool) (df1 df2 : DataFrame)
      (c : string) :
  In c (keys (count_mutations indels df1)) ->
  count_table (Z.of_nat (List.length (retained indels df1)))
              (Z.of_nat (List.length (retained indels df2)))
              (spec_table (count_mutations indels df1)
                          (count_mutations indels df2) c).
Proof.
  intros Hin. unfold count_table, spec_table.
  pose proof (count_bounds indels df1 c) as Ha.
  pose proof (count_bounds indels df2 c) as Hb.
  destruct (count_sum_bounds _ c (positive_count_mutations indels df1)
                             (NoDup_count_mutations indels df1) Hin)
    as [H0 _].
  rewrite <- !sum_count_mutations.
  do 4 eexists. split; [reflexivity|]. repeat split; lia.
Qed.

End Tables.

(** X3. The tests are only ever asked about well-formed tables: for every
    category of the first set the table has non-negative entries, a positive
    count of the category in the first row, and rows that add up to the
    sizes of the two filtered sets. The outcome of the test loop therefore
    depends on the library test only through its answers on such tables. *)
Theorem tests_see_only_count_tables :
  forall (indels : bool) (df1 df2 : DataFrame),
    (forall c,
        In c (Dict.keys (count_mutations indels df1)) ->
        count_table (Z.of_nat (List.length (retained indels df1)))
                    (Z.of_nat (List.length (retained indels df2)))
                    (spec_table (count_mutations indels df1)
                                (count_mutations indels df2) c)) /\
    (forall chi2 chi2' : chi2_fun,
        (forall t,
            count_table (Z.of_nat (List.length (retained indels df1)))
                        (Z.of_nat (List.length (retained indels df2))) t ->
            chi2 t = chi2' t) ->
        enrichment_loop chi2 (count_mutations indels df1)
                        (count_mutations indels df2)
        = enrichment_loop chi2' (count_mutations indels df1)
                          (count_mutations indels df2)).
Proof.
  intros indels df1 df2.
  split; [intros c; apply spec_table_count_table|].
  intros chi2 chi2' Hagree. rewrite !enrichment_loop_eq.
  rewrite (traverse_ext
             (test_category chi2 (count_mutations indels df1)
                            (count_mutations indels df2))
             (test_category chi2' (count_mutations indels df1)
                            (count_mutations indels df2)));
    [reflexivity|].
  intros c Hc. unfold test_category. rewrite Hagree; [reflexivity|].
  now apply spec_table_count_table.
Qed.

(** X4. When a call returns, the first set gets one bar per category of
    its own and the second set never fewer: the second set gets a bar for
    every category of either set. The two series have the same length
    exactly when every category of the second set occurs in the first. *)
Theorem second_set_never_has_fewer_bars :
  forall (chi2 : chi2_fun) (df1 df2 : nat) (labels colors : list string)
         (indels : bool) (save : option string) (w : world) (l : locals),
    fst (plot_mutation_spectrum chi2 df1 df2 labels colors indels save w)
    = Ok l ->
    List.length (a_frac l) = List.length (counts_a l) /\
    (List.length (a_frac l) <= List.length (b_frac l))%nat /\
    (List.length (a_frac l) = List.length (b_frac l)
     <-> incl (Dict.keys (counts_b l)) (Dict.keys (counts_a l))).
Proof.
  intros chi2 df1 df2 labels colors indels save w l Hrun.
  rewrite (proj1 (reads_only_plot chi2 df1 df2 labels colors indels save w))
    in Hrun.
  destruct (spectrum_result_Ok _ _ _ _ _ _ _ Hrun) as (a1 & b1 & Hloop & Hl).
  rewrite Hl. cbn [a_frac b_frac counts_a counts_b].
  eapply bar_counts; [apply NoDup_count_mutations
                     | apply NoDup_count_mutations | exact Hloop].
Qed.

(** The theorem above on the frames of the misaligned example: one bar for
    the first set, two for the second. *)
Lemma second_set_never_has_fewer_bars_witness :
  exists l : locals,
    fst (plot_mutation_spectrum chi2_proxy 0 1 default_labels default_colors
                                false None
                                (world_of [mkRow "1" "T>C"]
                                          [mkRow "1" "T>A"; mkRow "1" "T>C"]))
    = Ok l /\
    (List.length (a_frac l) <= List.length (b_frac l))%nat.
Proof.
  destruct (fst (plot_mutation_spectrum chi2_proxy 0 1 default_labels
                                        default_colors false None
                                        (world_of [mkRow "1" "T>C"]
                                                  [mkRow "1" "T>A";
                                                   mkRow "1" "T>C"])))
    as [l|e] eqn:Hrun.
  - exists l. split; [reflexivity|].
    exact (proj1 (proj2 (second_set_never_has_fewer_bars _ _ _ _ _ _ _ _ _
                                                         Hrun))).
  - vm_compute in Hrun. discriminate.
Defined.

(** ** What a call leaves in the world *)

Section Effects.

Lemma run_bind {A B : Type} (m : M A) (k : A -> M B) (w w' : world) (x : A) :
  m w = (Ok x, w') -> mbind m k w = k x w'.
Proof. intros H. unfold mbind. now rewrite H. Qed.

Lemma run_bind_raise {A B : Type} (m : M A) (k : A -> M B) (w w' : world)
      (e : exn) :
  m w = (Raise e, w') -> mbind m k w = (Raise e, w').
Proof. intros H. unfold mbind. now rewrite H. Qed.

Lemma report_totals_run (l0 l1 : string) (ls : list string) (a b : Dict.t)
      (w : world) :
  report_totals (l0 :: l1 :: ls) a b w
  = (Ok tt, mkWorld (frames w)
                    (stdout w ++ [Total (sum (Dict.values a)) l0;
                                  Total (sum (Dict.values b)) l1])
                    (figures w)).
Proof. unfold report_totals. cbn. rewrite <- app_assoc. reflexivity. Qed.

Lemma mfor_report (unadj : list (string * Q)) :
  forall (sig : list bool) (post pre : list (string * Q)) (w : world),
    unadj = pre ++ post ->
    List.length sig = List.length post ->
    mfor (fun isig : nat * bool =>
            cp <-- lift (getindex unadj (fst isig)) ;;;
            print (Enrichment (snd isig) (fst cp) (snd cp)))
         (combine (seq (List.length pre) (List.length sig)) sig) w
    = (Ok tt, mkWorld (frames w) (stdout w ++ enrichment_lines sig post)
                      (figures w)).
Proof.
  induction sig as [|s sig IH]; intros post pre w Hu Hlen.
  - destruct post; [|discriminate]. destruct w. cbn. now rewrite app_nil_r.
  - destruct post as [|[c p] post]; [discriminate|].
    cbn [List.length seq combine mfor].
    erewrite run_bind; cycle 1.
    { erewrite run_bind; cycle 1.
      { unfold lift. rewrite Hu. unfold getindex. cbn [fst].
        rewrite nth_error_app2, Nat.sub_diag by lia. reflexivity. }
      reflexivity. }
    replace (S (List.length pre)) with (List.length (pre ++ [(c, p)]))
      by (rewrite length_app; simpl; lia).
    rewrite (IH post (pre ++ [(c, p)])).
    + cbn [frames stdout figures fst snd]. unfold enrichment_lines.
      cbn [combine map fst snd]. rewrite <- app_assoc. reflexivity.
    + rewrite Hu, <- app_assoc. reflexivity.
    + simpl in Hlen. lia.
Qed.

Lemma report_enrichment_run (sig : list bool) (unadj : list (string * Q))
      (w : world) :
  List.length sig = List.length unadj ->
  report_enrichment sig unadj w
  = (Ok tt, mkWorld (frames w) (stdout w ++ enrichment_lines sig unadj)
                    (figures w)).
Proof.
  intros H. unfold report_enrichment.
  exact (mfor_report unadj sig unadj [] w eq_refl H).
Qed.

Lemma add_call_last (figs : list figure) (f : figure) (c : call) :
  add_call (List.length figs) c (figs ++ [f]) = figs ++ [f ++ [c]].
Proof.
  induction figs as [|g figs IH]; simpl; [reflexivity | now rewrite IH].
Qed.

(** The first [ax.bar] of a call always has arrays that fit; the second
    has as many positions as the first set has categories and as many
    heights as the second. *)
Lemma bar_first (fig : nat) (d : Dict.t) (wd : float) (l c : string) :
  bar fig (arange (List.length (fractions d))) (fractions d) wd l c
  = draw fig (Bar (arange (List.length (fractions d))) (fractions d) wd l c).
Proof. unfold bar. now rewrite length_arange, broadcastable_refl. Qed.

Lemma bar_second (fig : nat) (d d' : Dict.t) (dx wd : float)
      (l c : string) :
  bar fig (add_scalar (arange (List.length (fractions d))) dx)
      (fractions d') wd l c
  = if broadcastable (List.length d) (List.length d')
    then draw fig (Bar (add_scalar (arange (List.length (fractions d))) dx)
                       (fractions d') wd l c)
    else lift (Raise ValueError).
Proof.
  unfold bar.
  now rewrite length_add_scalar, length_arange, !length_fractions.
Qed.

(** The steps up to the test loop, for two labels or more. *)
Ltac run_to_loop :=
  unfold plot_mutation_spectrum;
  do 4 (erewrite run_bind by reflexivity);
  erewrite run_bind by apply report_totals_run;
  do 2 (erewrite run_bind by reflexivity);
  cbn [frames stdout figures].

Ltac run_loop Hloop st :=
  match goal with
  | |- mbind ?m ?k ?w0 = _ =>
      rewrite (run_bind m k w0 w0 st)
        by (unfold lift; rewrite Hloop; reflexivity)
  end;
  cbv beta iota;
  erewrite run_bind
    by (apply report_enrichment_run; rewrite length_fdrcorrection;
        apply length_map);
  cbn [frames stdout figures].

(** A call whose tests all return, given two labels and colors or more. *)
Lemma plot_run_ok (chi2 : chi2_fun) (df1 df2 : nat) (l0 l1 c0 c1 : string)
      (ls cs : list string) (indels : bool) (save : option string) (w : world)
      (a1 b1 : Dict.t) (unadj : list (string * Q)) :
  enrichment_loop chi2 (count_mutations indels (frames w df1))
                  (count_mutations indels (frames w df2))
  = Ok (a1, b1, unadj) ->
  broadcastable (List.length (sort_dict a1)) (List.length (sort_dict b1))
  = true ->
  plot_mutation_spectrum chi2 df1 df2 (l0 :: l1 :: ls) (c0 :: c1 :: cs)
                         indels save w
  = (Ok (mkLocals (count_mutations indels (frames w df1))
                  (count_mutations indels (frames w df2))
                  unadj (fdrcorrection (map snd unadj) alpha_default)
                  (sort_dict a1) (sort_dict b1)
                  (fractions (sort_dict a1)) (fractions (sort_dict b1))),
     mkWorld (frames w)
             (stdout w
              ++ totals_lines l0 l1 (count_mutations indels (frames w df1))
                              (count_mutations indels (frames w df2))
              ++ enrichment_lines
                   (fdrcorrection (map snd unadj) alpha_default) unadj)
             (figures w
              ++ [figure_calls l0 l1 c0 c1 save (sort_dict a1)
                               (sort_dict b1)])).
Proof.
  intros Hloop Hfit. run_to_loop. run_loop Hloop (a1, b1, unadj).
  do 2 (erewrite run_bind by reflexivity; cbn [frames stdout figures]).
  rewrite bar_first.
  do 3 (erewrite run_bind by reflexivity; cbn [frames stdout figures]).
  rewrite bar_second, Hfit.
  do 7 (erewrite run_bind by reflexivity; cbn [frames stdout figures]).
  rewrite !add_call_last.
  destruct save as [name|].
  - erewrite run_bind by (erewrite run_bind by reflexivity; reflexivity).
    cbn [frames stdout figures]. rewrite !add_call_last.
    unfold ret, figure_calls, totals_lines. cbn [app].
    rewrite <- !app_assoc. reflexivity.
  - erewrite run_bind by reflexivity.
    unfold ret, figure_calls, totals_lines. cbn [app].
    rewrite <- !app_assoc. reflexivity.
Qed.

(** A call whose tests all return and whose second [ax.bar] refuses its
    arrays: the report is out and the bars of the first set are drawn. *)
Lemma plot_run_bar_raise (chi2 : chi2_fun) (df1 df2 : nat)
      (l0 l1 c0 c1 : string) (ls cs : list string) (indels : bool)
      (save : option string) (w : world)
      (a1 b1 : Dict.t) (unadj : list (string * Q)) :
  enrichment_loop chi2 (count_mutations indels (frames w df1))
                  (count_mutations indels (frames w df2))
  = Ok (a1, b1, unadj) ->
  broadcastable (List.length (sort_dict a1)) (List.length (sort_dict b1))
  = false ->
  plot_mutation_spectrum chi2 df1 df2 (l0 :: l1 :: ls) (c0 :: c1 :: cs)
                         indels save w
  = (Raise ValueError,
     mkWorld (frames w)
             (stdout w
              ++ totals_lines l0 l1 (count_mutations indels (frames w df1))
                              (count_mutations indels (frames w df2))
              ++ enrichment_lines
                   (fdrcorrection (map snd unadj) alpha_default) unadj)
             (figures w
              ++ [[Bar (arange (List.length (fractions (sort_dict a1))))
                       (fractions (sort_dict a1)) width l0 c0]])).
Proof.
  intros Hloop Hfit. run_to_loop. run_loop Hloop (a1, b1, unadj).
  do 2 (erewrite run_bind by reflexivity; cbn [frames stdout figures]).
  rewrite bar_first.
  do 3 (erewrite run_bind by reflexivity; cbn [frames stdout figures]).
  rewrite bar_second, Hfit.
  erewrite run_bind_raise by reflexivity.
  rewrite add_call_last.
  unfold totals_lines. cbn [app]. rewrite <- !app_assoc. reflexivity.
Qed.

(** A call in which a test raises. *)
Lemma plot_run_loop_raise (chi2 : chi2_fun) (df1 df2 : nat) (l0 l1 : string)
      (ls colors : list string) (indels : bool) (save : option string)
      (w : world) (e : exn) :
  enrichment_loop chi2 (count_mutations indels (frames w df1))
                  (count_mutations indels (frames w df2))
  = Raise e ->
  plot_mutation_spectrum chi2 df1 df2 (l0 :: l1 :: ls) colors indels save w
  = (Raise e,
     mkWorld (frames w)
             (stdout w
              ++ totals_lines l0 l1 (count_mutations indels (frames w df1))
                              (count_mutations indels (frames w df2)))
             (figures w ++ [[]])).
Proof.
  intros Hloop. run_to_loop.
  erewrite run_bind_raise by (unfold lift; rewrite Hloop; reflexivity).
  unfold totals_lines. rewrite <- !app_assoc. reflexivity.
Qed.

(** A call with fewer than two labels. *)
Lemma plot_run_no_label (chi2 : chi2_fun) (df1 df2 : nat)
      (colors : list string) (indels : bool) (save : option string)
      (w : world) :
  plot_mutation_spectrum chi2 df1 df2 [] colors indels save w
  = (Raise IndexError,
     mkWorld (frames w)
             (stdout w ++ [Text "Numbers of DNMs in each category:"])
             (figures w ++ [[]])).
Proof.
  unfold plot_mutation_spectrum.
  do 4 (erewrite run_bind by reflexivity).
  erewrite run_bind_raise by reflexivity. reflexivity.
Qed.

Lemma plot_run_one_label (chi2 : chi2_fun) (df1 df2 : nat) (l0 : string)
      (colors : list string) (indels : bool) (save : option string)
      (w : world) :
  plot_mutation_spectrum chi2 df1 df2 [l0] colors indels save w
  = (Raise IndexError,
     mkWorld (frames w)
             (stdout w
              ++ [Text "Numbers of DNMs in each category:";
                  Total (sum (Dict.values
                                (count_mutations indels (frames w df1)))) l0])
             (figures w ++ [[]])).
Proof.
  unfold plot_mutation_spectrum.
  do 4 (erewrite run_bind by reflexivity).
  erewrite run_bind_raise by reflexivity.
  cbn [frames stdout figures]. rewrite <- app_assoc. reflexivity.
Qed.

(** A call with fewer than two colors whose tests all return. *)
Lemma plot_run_no_color (chi2 : chi2_fun) (df1 df2 : nat) (l0 l1 : string)
      (ls : list string) (indels : bool) (save : option string) (w : world)
      (a1 b1 : Dict.t) (unadj : list (string * Q)) :
  enrichment_loop chi2 (count_mutations indels (frames w df1))
                  (count_mutations indels (frames w df2))
  = Ok (a1, b1, unadj) ->
  plot_mutation_spectrum chi2 df1 df2 (l0 :: l1 :: ls) [] indels save w
  = (Raise IndexError,
     mkWorld (frames w)
             (stdout w
              ++ totals_lines l0 l1 (count_mutations indels (frames w df1))
                              (count_mutations indels (frames w df2))
              ++ enrichment_lines
                   (fdrcorrection (map snd unadj) alpha_default) unadj)
             (figures w ++ [[]])).
Proof.
  intros Hloop. run_to_loop. run_loop Hloop (a1, b1, unadj).
  erewrite run_bind by reflexivity.
  erewrite run_bind_raise by reflexivity.
  unfold totals_lines. cbn [app]. rewrite <- !app_assoc. reflexivity.
Qed.

Lemma plot_run_one_color (chi2 : chi2_fun) (df1 df2 : nat)
      (l0 l1 c0 : string) (ls : list string) (indels : bool)
      (save : option string) (w : world)
      (a1 b1 : Dict.t) (unadj : list (string * Q)) :
  enrichment_loop chi2 (count_mutations indels (frames w df1))
                  (count_mutations indels (frames w df2))
  = Ok (a1, b1, unadj) ->
  plot_mutation_spectrum chi2 df1 df2 (l0 :: l1 :: ls) [c0] indels save w
  = (Raise IndexError,
     mkWorld (frames w)
             (stdout w
              ++ totals_lines l0 l1 (count_mutations indels (frames w df1))
                              (count_mutations indels (frames w df2))
              ++ enrichment_lines
                   (fdrcorrection (map snd unadj) alpha_default) unadj)
             (figures w
              ++ [[Bar (arange (List.length (fractions (sort_dict a1))))
                       (fractions (sort_dict a1)) width l0 c0]])).
Proof.
  intros Hloop. run_to_loop. run_loop Hloop (a1, b1, unadj).
  do 2 (erewrite run_bind by reflexivity; cbn [frames stdout figures]).
  rewrite bar_first.
  do 2 (erewrite run_bind by reflexivity; cbn [frames stdout figures]).
  erewrite run_bind_raise by reflexivity.
  rewrite add_call_last.
  unfold totals_lines. cbn [app]. rewrite <- !app_assoc. reflexivity.
Qed.

End Effects.

Section Outcomes.

(** A returning call had two labels and two colors or more, and its tests
    all returned. *)
Lemma plot_Ok_inv (chi2 : chi2_fun) (df1 df2 : nat)
      (labels colors : list string) (indels : bool) (save : option string)
      (w : world) (l : locals) :
  fst (plot_mutation_spectrum chi2 df1 df2 labels colors indels save w)
  = Ok l ->
  exists l0 l1 ls c0 c1 cs a1 b1,
    labels = l0 :: l1 :: ls /\ colors = c0 :: c1 :: cs /\
    enrichment_loop chi2 (count_mutations indels (frames w df1))
                    (count_mutations indels (frames w df2))
    = Ok (a1, b1, unadj_p_vals l) /\
    l = mkLocals (count_mutations indels (frames w df1))
                 (count_mutations indels (frames w df2))
                 (unadj_p_vals l)
                 (fdrcorrection (map snd (unadj_p_vals l)) alpha_default)
                 (sort_dict a1) (sort_dict b1)
                 (fractions (sort_dict a1)) (fractions (sort_dict b1)).
Proof.
  destruct labels as [|l0 [|l1 ls]].
  - rewrite plot_run_no_label. discriminate.
  - rewrite plot_run_one_label. discriminate.
  - destruct (enrichment_loop chi2
                (count_mutations indels (frames w df1))
                (count_mutations indels (frames w df2)))
      as [[[a1 b1] unadj]|e] eqn:Hloop.
    + destruct colors as [|c0 [|c1 cs]].
      * rewrite (plot_run_no_color _ _ _ _ _ _ _ _ _ _ _ _ Hloop).
        discriminate.
      * rewrite (plot_run_one_color _ _ _ _ _ _ _ _ _ _ _ _ _ Hloop).
        discriminate.
      * destruct (broadcastable (List.length (sort_dict a1))
                                (List.length (sort_dict b1))) eqn:Hfit.
        -- rewrite (plot_run_ok _ _ _ _ _ _ _ _ _ _ _ _ _ _ _ Hloop Hfit).
           cbn [fst]. intros [= <-]. cbn [unadj_p_vals].
           exists l0, l1, ls, c0, c1, cs, a1, b1. repeat split.
        -- rewrite (plot_run_bar_raise _ _ _ _ _ _ _ _ _ _ _ _ _ _ _ Hloop
                                       Hfit).
           discriminate.
    + rewrite (plot_run_loop_raise _ _ _ _ _ _ _ _ _ _ _ Hloop).
      discriminate.
Qed.

(** A returning call had arrays that fit for its second [ax.bar]. *)
Lemma plot_Ok_fits (chi2 : chi2_fun) (df1 df2 : nat)
      (labels colors : list string) (indels : bool) (save : option string)
      (w : world) (l : locals) :
  fst (plot_mutation_spectrum chi2 df1 df2 labels colors indels save w)
  = Ok l ->
  broadcastable (List.length (sorted_a l)) (List.length (sorted_b l)) = true.
Proof.
  rewrite (proj1 (reads_only_plot chi2 df1 df2 labels colors indels save w)).
  apply spectrum_result_fits.
Qed.

Lemma length_enrichment_lines (sig : list bool) (unadj : list (string * Q)) :
  List.length sig = List.length unadj ->
  List.length (enrichment_lines sig unadj) = List.length unadj.
Proof.
  intros H. unfold enrichment_lines. rewrite length_map, length_combine. lia.
Qed.

Lemma nth_enrichment_lines (sig : list bool) :
  forall (unadj : list (string * Q)) (i : nat) (s : bool) (c : string)
         (p : Q),
    nth_error sig i = Some s -> nth_error unadj i = Some (c, p) ->
    nth_error (enrichment_lines sig unadj) i = Some (Enrichment s c p).
Proof.
  induction sig as [|s0 sig IH]; intros [|cp unadj] [|i] s c p Hs Hu;
    try discriminate; simpl in *.
  - injection Hs as ->. injection Hu as ->. reflexivity.
  - now apply IH.
Qed.

(** What a returning loop has returned. *)
Lemma loop_Ok_keys (chi2 : chi2_fun) (a b a' b' : Dict.t)
      (ps : list (string * Q)) :
  enrichment_loop chi2 a b = Ok (a', b', ps) ->
  map fst ps = Dict.keys a /\ List.length ps = List.length a /\ a' = a.
Proof.
  rewrite enrichment_loop_eq.
  destruct (traverse (test_category chi2 a b) (Dict.keys a)) as [qs|e] eqn:E;
    cbn [bind]; [|discriminate].
  intros [= <- <- <-].
  destruct (traverse_Ok_fst chi2 a b _ _ E) as [H1 H2].
  split; [exact H1|]. split; [|reflexivity].
  rewrite <- (length_map fst), H1. apply length_map.
Qed.

(** What a dictionary holds does not depend on the order of its items. *)
Lemma lookup_perm (d d' : Dict.t) (k : string) :
  NoDup (Dict.keys d) -> Permutation d' d ->
  Dict.lookup k d' = Dict.lookup k d.
Proof.
  intros Hnd Hp.
  assert (Hnd' : NoDup (Dict.keys d')).
  { eapply Permutation_NoDup; [|exact Hnd].
    apply Permutation_map. now symmetry. }
  destruct (Dict.lookup k d) as [v|] eqn:E.
  - apply In_lookup; [exact Hnd'|].
    eapply Permutation_in; [symmetry; exact Hp | now apply lookup_In].
  - apply DictFacts.lookup_None_keys. apply DictFacts.lookup_None_keys in E.
    intros Hin. apply E.
    eapply Permutation_in; [apply Permutation_map; exact Hp | exact Hin].
Qed.

Lemma count_touch_all (ks : list string) (c : string) :
  forall b : Dict.t, Dict.count c (touch_all ks b) = Dict.count c b.
Proof.
  induction ks as [|k ks IH]; intros b; [reflexivity|].
  unfold touch_all in *. simpl. rewrite IH. apply count_touch.
Qed.

Lemma sum_touch_all (ks : list string) :
  forall b : Dict.t,
    sum (Dict.values (touch_all ks b)) = sum (Dict.values b).
Proof.
  induction ks as [|k ks IH]; intros b; [reflexivity|].
  unfold touch_all in *. simpl. rewrite IH. apply sum_touch.
Qed.

Lemma NoDup_touch_all (ks : list string) (b : Dict.t) :
  NoDup (Dict.keys b) -> NoDup (Dict.keys (touch_all ks b)).
Proof.
  intros Hb. destruct (touch_all_appends ks b) as (added & Heq & Hna & Hiff).
  rewrite Heq. unfold Dict.keys. rewrite map_app.
  fold (Dict.keys b). fold (Dict.keys (zero_items added)).
  rewrite keys_zero_items. apply NoDup_app; try assumption.
  intros x Hx Hx'. apply Hiff in Hx'. tauto.
Qed.

(** The fraction at the place of a key is that key's count over the
    total. *)
Lemma fractions_nth (d : Dict.t) (i : nat) (k : string) :
  NoDup (Dict.keys d) ->
  nth_error (Dict.keys d) i = Some k ->
  nth_error (fractions d) i
  = Some (PrimFloat.div (float_of_int (Dict.count k d))
                        (float_of_int (sum (Dict.values d)))).
Proof.
  intros Hnd Hk. unfold Dict.keys in Hk. rewrite nth_error_map in Hk.
  destruct (nth_error d i) as [[k' v]|] eqn:E; [|discriminate].
  injection Hk as ->.
  assert (Hl : Dict.lookup k d = Some v).
  { apply In_lookup; [exact Hnd|]. eapply nth_error_In. exact E. }
  unfold fractions, Dict.values, Dict.count. rewrite Hl.
  rewrite !nth_error_map, E. reflexivity.
Qed.

Lemma fractions_sort_dict_nth (d : Dict.t) (i : nat) (k : string) :
  NoDup (Dict.keys d) ->
  nth_error (Dict.keys (sort_dict d)) i = Some k ->
  nth_error (fractions (sort_dict d)) i
  = Some (PrimFloat.div (float_of_int (Dict.count k d))
                        (float_of_int (sum (Dict.values d)))).
Proof.
  intros Hnd Hk. pose proof (sort_dict_perm d Hnd) as Hp.
  rewrite (fractions_nth _ _ _ ltac:(eapply Permutation_NoDup;
                                       [apply Permutation_map; symmetry;
                                        exact Hp | exact Hnd]) Hk).
  unfold Dict.count. rewrite (lookup_perm d _ k Hnd Hp).
  now rewrite sum_sort_dict.
Qed.

End Outcomes.

(** X5. Whatever a call does, return or raise, it only adds to the world
    it ran in: the frames are as before, the lines printed earlier are still
    there with new ones after them only, and the figures made earlier are
    as they were, followed by exactly one new figure. *)
Theorem call_only_adds_to_the_world :
  forall (chi2 : chi2_fun) (df1 df2 : nat) (labels colors : list string)
         (indels : bool) (save : option string) (w : world),
    extends w (snd (plot_mutation_spectrum chi2 df1 df2 labels colors indels
                                           save w)).
Proof.
  intros chi2 df1 df2 labels colors indels save w. unfold extends.
  destruct labels as [|l0 [|l1 ls]].
  - rewrite plot_run_no_label. cbn. eauto.
  - rewrite plot_run_one_label. cbn. eauto.
  - destruct (enrichment_loop chi2
                (count_mutations indels (frames w df1))
                (count_mutations indels (frames w df2)))
      as [[[a1 b1] unadj]|e] eqn:Hloop.
    + destruct colors as [|c0 [|c1 cs]].
      * rewrite (plot_run_no_color _ _ _ _ _ _ _ _ _ _ _ _ Hloop).
        cbn [snd frames stdout figures]. eauto.
      * rewrite (plot_run_one_color _ _ _ _ _ _ _ _ _ _ _ _ _ Hloop).
        cbn [snd frames stdout figures]. eauto.
      * destruct (broadcastable (List.length (sort_dict a1))
                                (List.length (sort_dict b1))) eqn:Hfit.
        -- rewrite (plot_run_ok _ _ _ _ _ _ _ _ _ _ _ _ _ _ _ Hloop Hfit).
           cbn [snd frames stdout figures]. eauto.
        -- rewrite (plot_run_bar_raise _ _ _ _ _ _ _ _ _ _ _ _ _ _ _ Hloop
                                       Hfit).
           cbn [snd frames stdout figures]. eauto.
    + rewrite (plot_run_loop_raise _ _ _ _ _ _ _ _ _ _ _ Hloop).
      cbn [snd frames stdout figures]. eauto.
Qed.

(** X6. A returning call has printed the heading, the two totals with the
    first two labels, the blank line and the enrichment heading, and then
    exactly one line per tested category: as many lines as the first set has
    categories, in the order of the tests, each with the category's own
    unadjusted p-value and starred exactly when its flag is set. *)
Theorem report_has_one_line_per_test :
  forall (chi2 : chi2_fun) (df1 df2 : nat) (labels colors : list string)
         (indels : bool) (save : option string) (w : world) (l : locals),
    fst (plot_mutation_spectrum chi2 df1 df2 labels colors indels save w)
    = Ok l ->
    stdout (snd (plot_mutation_spectrum chi2 df1 df2 labels colors indels
                                        save w))
    = stdout w
      ++ totals_lines (nth 0 labels "") (nth 1 labels "")
                      (counts_a l) (counts_b l)
      ++ enrichment_lines (signif l) (unadj_p_vals l) /\
    List.length (enrichment_lines (signif l) (unadj_p_vals l))
    = List.length (counts_a l) /\
    (forall (i : nat) (c : string) (p : Q),
        nth_error (unadj_p_vals l) i = Some (c, p) ->
        exists s : bool,
          nth_error (signif l) i = Some s /\
          nth_error (enrichment_lines (signif l) (unadj_p_vals l)) i
          = Some (Enrichment s c p)).
Proof.
  intros chi2 df1 df2 labels colors indels save w l Hrun.
  destruct (plot_Ok_inv _ _ _ _ _ _ _ _ _ Hrun)
    as (l0 & l1 & ls & c0 & c1 & cs & a1 & b1 & -> & -> & Hloop & Hl).
  assert (Hlen : List.length (signif l) = List.length (unadj_p_vals l)).
  { rewrite Hl at 1. cbn [signif]. rewrite length_fdrcorrection.
    apply length_map. }
  pose proof (plot_Ok_fits _ _ _ _ _ _ _ _ _ Hrun) as Hfit.
  rewrite Hl in Hfit. cbn [sorted_a sorted_b] in Hfit.
  split; [|split].
  - rewrite (plot_run_ok _ _ _ _ _ _ _ _ _ _ _ _ _ _ _ Hloop Hfit).
    cbn [snd stdout nth]. rewrite Hl at 3 4 5. reflexivity.
  - rewrite length_enrichment_lines by exact Hlen.
    destruct (loop_Ok_keys _ _ _ _ _ _ Hloop) as (_ & H & _).
    rewrite H, Hl. reflexivity.
  - intros i c p Hi.
    destruct (nth_error (signif l) i) as [s|] eqn:Hs.
    + exists s. split; [reflexivity|]. now apply nth_enrichment_lines.
    + apply nth_error_None in Hs.
      assert (i < List.length (unadj_p_vals l))%nat
        by (apply nth_error_Some; congruence).
      lia.
Qed.

(** The theorem above on the example frames: two labels, two tests, two
    report lines, neither starred. *)
Lemma report_has_one_line_per_test_witness :
  exists l : locals,
    fst (plot_mutation_spectrum chi2_proxy 0 1 default_labels default_colors
                                false None example_world) = Ok l /\
    stdout (snd (plot_mutation_spectrum chi2_proxy 0 1 default_labels
                                        default_colors false None
                                        example_world))
    = [Text "Numbers of DNMs in each category:";
       Total 4 "a"; Total 4 "b"; Text ""; Text "Mutation enrichment:";
       Enrichment false "T>C" (256 # 768);
       Enrichment false "T>A" (256 # 768)].
Proof.
  destruct (fst (plot_mutation_spectrum chi2_proxy 0 1 default_labels
                                        default_colors false None
                                        example_world)) as [l|e] eqn:Hrun.
  - exists l. split; [reflexivity|].
    rewrite (proj1 (report_has_one_line_per_test _ _ _ _ _ _ _ _ _ Hrun)).
    vm_compute in Hrun. injection Hrun as <-. vm_compute. reflexivity.
  - vm_compute in Hrun. discriminate.
Defined.

(** X7. In the figure of a returning call every bar stands for its own
    category. The figure holds the two [ax.bar] calls with the fractions of
    the two sets and the tick labels taken from the first set. The height
    at the place of a tick label is that category's count in the first set
    divided by the first set's total; the heights of the second set are, in
    the order of its own categories, each category's count in the second
    set (zero for a category only the first set has) divided by the second
    set's total. The positions and heights of the second [ax.bar] fit: they
    are equally many, or one of the two is a single one. *)
Theorem figure_of_a_returning_call :
  forall (chi2 : chi2_fun) (df1 df2 : nat) (labels colors : list string)
         (indels : bool) (save : option string) (w : world) (l : locals),
    fst (plot_mutation_spectrum chi2 df1 df2 labels colors indels save w)
    = Ok l ->
    (exists f : figure,
        figures (snd (plot_mutation_spectrum chi2 df1 df2 labels colors
                                             indels save w))
        = figures w ++ [f] /\
        In (Bar (arange (List.length (a_frac l))) (a_frac l) width
                (nth 0 labels "") (nth 0 colors "")) f /\
        In (Bar (add_scalar (arange (List.length (a_frac l))) width)
                (b_frac l) width (nth 1 labels "") (nth 1 colors "")) f /\
        In (SetXticklabels (Dict.keys (sorted_a l))) f) /\
    (forall (i : nat) (k : string),
        nth_error (Dict.keys (sorted_a l)) i = Some k ->
        nth_error (a_frac l) i
        = Some (PrimFloat.div
                  (float_of_int (Dict.count k (counts_a l)))
                  (float_of_int (sum (Dict.values (counts_a l)))))) /\
    (forall (i : nat) (k : string),
        nth_error (Dict.keys (sorted_b l)) i = Some k ->
        nth_error (b_frac l) i
        = Some (PrimFloat.div
                  (float_of_int (Dict.count k (counts_b l)))
                  (float_of_int (sum (Dict.values (counts_b l)))))) /\
    (List.length (a_frac l) = List.length (b_frac l) \/
     List.length (a_frac l) = 1%nat \/ List.length (b_frac l) = 1%nat).
Proof.
  intros chi2 df1 df2 labels colors indels save w l Hrun.
  destruct (plot_Ok_inv _ _ _ _ _ _ _ _ _ Hrun)
    as (l0 & l1 & ls & c0 & c1 & cs & a1 & b1 & -> & -> & Hloop & Hl).
  pose proof (plot_Ok_fits _ _ _ _ _ _ _ _ _ Hrun) as Hfit.
  rewrite Hl in Hfit. cbn [sorted_a sorted_b] in Hfit.
  rewrite (plot_run_ok _ _ _ _ _ _ _ _ _ _ _ _ _ _ _ Hloop Hfit).
  cbn [snd figures nth]. rewrite Hl.
  cbn [sorted_a sorted_b a_frac b_frac counts_a counts_b].
  pose proof Hloop as Hloop'. rewrite enrichment_loop_eq in Hloop'.
  destruct (traverse _ _) as [ps|e]; cbn [bind] in Hloop'; [|discriminate].
  injection Hloop' as <- <- _.
  set (a := count_mutations indels (frames w df1)) in *.
  set (b := count_mutations indels (frames w df2)) in *.
  assert (Hnda : NoDup (Dict.keys a)) by apply NoDup_count_mutations.
  assert (Hndb : NoDup (Dict.keys b)) by apply NoDup_count_mutations.
  split; [|split; [|split]].
  - eexists. split; [reflexivity|]. unfold figure_calls.
    split; [left; reflexivity|].
    split; [right; left; reflexivity|].
    right; right; right; left; reflexivity.
  - intros i k Hk. now apply fractions_sort_dict_nth.
  - intros i k Hk.
    rewrite (fractions_sort_dict_nth _ _ _ (NoDup_touch_all _ _ Hndb) Hk).
    now rewrite count_touch_all, sum_touch_all.
  - rewrite !length_fractions.
    unfold broadcastable in Hfit. rewrite !orb_true_iff, !Nat.eqb_eq in Hfit.
    tauto.
Qed.

(** The theorem above on the frames of the misaligned example: the single
    bar of the first set has height one, the two of the second a half
    each. *)
Lemma figure_of_a_returning_call_witness :
  exists l : locals,
    fst (plot_mutation_spectrum chi2_proxy 0 1 default_labels default_colors
                                false None
                                (world_of [mkRow "1" "T>C"]
                                          [mkRow "1" "T>A"; mkRow "1" "T>C"]))
    = Ok l /\
    (List.length (a_frac l) = List.length (b_frac l) \/
     List.length (a_frac l) = 1%nat \/ List.length (b_frac l) = 1%nat) /\
    List.length (a_frac l) = 1%nat.
Proof.
  destruct (fst (plot_mutation_spectrum chi2_proxy 0 1 default_labels
                                        default_colors false None
                                        (world_of [mkRow "1" "T>C"]
                                                  [mkRow "1" "T>A";
                                                   mkRow "1" "T>C"])))
    as [l|e] eqn:Hrun.
  - exists l. split; [reflexivity|].
    split;
      [exact (proj2 (proj2 (proj2 (figure_of_a_returning_call
                                     _ _ _ _ _ _ _ _ _ Hrun))))|].
    vm_compute in Hrun. injection Hrun as <-. reflexivity.
  - vm_compute in Hrun. discriminate.
Defined.

(** X8. When a test raises, the call raises the same exception at once: the
    heading and both totals have been printed, but no line of the
    enrichment report, not even for the categories tested before, and the
    figure made at the start of the call is left behind empty. *)
Theorem failed_test_leaves_totals_and_empty_figure :
  forall (chi2 : chi2_fun) (df1 df2 : nat) (l0 l1 : string)
         (ls colors : list string) (indels : bool) (save : option string)
         (w : world) (e : exn),
    enrichment_loop chi2 (count_mutations indels (frames w df1))
                    (count_mutations indels (frames w df2))
    = Raise e ->
    fst (plot_mutation_spectrum chi2 df1 df2 (l0 :: l1 :: ls) colors indels
                                save w) = Raise e /\
    stdout (snd (plot_mutation_spectrum chi2 df1 df2 (l0 :: l1 :: ls) colors
                                        indels save w))
    = stdout w
      ++ totals_lines l0 l1 (count_mutations indels (frames w df1))
                      (count_mutations indels (frames w df2)) /\
    figures (snd (plot_mutation_spectrum chi2 df1 df2 (l0 :: l1 :: ls) colors
                                         indels save w))
    = figures w ++ [[]].
Proof.
  intros chi2 df1 df2 l0 l1 ls colors indels save w e Hloop.
  rewrite (plot_run_loop_raise _ _ _ _ _ _ _ _ _ _ _ Hloop).
  repeat split.
Qed.

(** The theorem above on two identical frames with a single category, where
    the only table has an empty column. *)
Lemma failed_test_leaves_totals_and_empty_figure_witness :
  enrichment_loop chi2_proxy
                  (count_mutations false
                     (frames (world_of [mkRow "1" "T>C"] [mkRow "1" "T>C"])
                             0%nat))
                  (count_mutations false
                     (frames (world_of [mkRow "1" "T>C"] [mkRow "1" "T>C"])
                             1%nat))
  = Raise ValueError /\
  stdout (snd (plot_mutation_spectrum chi2_proxy 0 1 ["a"; "b"]
                                      default_colors false None
                                      (world_of [mkRow "1" "T>C"]
                                                [mkRow "1" "T>C"])))
  = [Text "Numbers of DNMs in each category:";
     Total 1 "a"; Total 1 "b"; Text ""; Text "Mutation enrichment:"].
Proof.
  assert (H : enrichment_loop chi2_proxy
                (count_mutations false
                   (frames (world_of [mkRow "1" "T>C"] [mkRow "1" "T>C"])
                           0%nat))
                (count_mutations false
                   (frames (world_of [mkRow "1" "T>C"] [mkRow "1" "T>C"])
                           1%nat))
              = Raise ValueError) by (vm_compute; reflexivity).
  split; [exact H|].
  rewrite (proj1 (proj2 (failed_test_leaves_totals_and_empty_figure
                           chi2_proxy 0 1 "a" "b" [] default_colors false
                           None _ _ H))).
  vm_compute. reflexivity.
Defined.

(** X9. With fewer than two labels a call raises [IndexError] while it
    reports the totals, before any test is run: the outcome and the world
    it leaves are the same whatever the library test would answer, the new
    figure is empty, and nothing of the enrichment report is printed. *)
Theorem missing_label_fails_before_the_tests :
  forall (chi2 chi2' : chi2_fun) (df1 df2 : nat) (labels colors : list string)
         (indels : bool) (save : option string) (w : world),
    (List.length labels < 2)%nat ->
    plot_mutation_spectrum chi2 df1 df2 labels colors indels save w
    = plot_mutation_spectrum chi2' df1 df2 labels colors indels save w /\
    fst (plot_mutation_spectrum chi2 df1 df2 labels colors indels save w)
    = Raise IndexError /\
    figures (snd (plot_mutation_spectrum chi2 df1 df2 labels colors indels
                                         save w))
    = figures w ++ [[]] /\
    stdout (snd (plot_mutation_spectrum chi2 df1 df2 labels colors indels
                                        save w))
    = stdout w
      ++ Text "Numbers of DNMs in each category:"
         :: map (Total (sum (Dict.values
                               (count_mutations indels (frames w df1)))))
                labels.
Proof.
  intros chi2 chi2' df1 df2 labels colors indels save w Hlen.
  destruct labels as [|l0 [|l1 ls]]; [| |simpl in Hlen; lia].
  - rewrite !plot_run_no_label. repeat split.
  - rewrite !plot_run_one_label. repeat split.
Qed.

(** The theorem above with a single label. *)
Lemma missing_label_fails_before_the_tests_witness :
  (List.length ["paternal"] < 2)%nat /\
  fst (plot_mutation_spectrum chi2_proxy 0 1 ["paternal"] default_colors
                              false None example_world)
  = Raise IndexError.
Proof.
  assert (H : (List.length ["paternal"] < 2)%nat) by (simpl; lia).
  split; [exact H|].
  exact (proj1 (proj2 (missing_label_fails_before_the_tests
                         chi2_proxy chi2_proxy 0 1 ["paternal"]
                         default_colors false None example_world H))).
Defined.

(** X10. With two labels but fewer than two colors, a call whose tests all
    return raises [IndexError] only at the bars, after the whole report has
    been printed: with no color the new figure is still empty, with one
    color the bars of the first set have been drawn and nothing else. *)
Theorem missing_color_fails_after_the_report :
  forall (chi2 : chi2_fun) (df1 df2 : nat) (l0 l1 : string)
         (ls colors : list string) (indels : bool) (save : option string)
         (w : world) (a1 b1 : Dict.t) (unadj : list (string * Q)),
    enrichment_loop chi2 (count_mutations indels (frames w df1))
                    (count_mutations indels (frames w df2))
    = Ok (a1, b1, unadj) ->
    (List.length colors < 2)%nat ->
    fst (plot_mutation_spectrum chi2 df1 df2 (l0 :: l1 :: ls) colors indels
                                save w) = Raise IndexError /\
    stdout (snd (plot_mutation_spectrum chi2 df1 df2 (l0 :: l1 :: ls) colors
                                        indels save w))
    = stdout w
      ++ totals_lines l0 l1 (count_mutations indels (frames w df1))
                      (count_mutations indels (frames w df2))
      ++ enrichment_lines (fdrcorrection (map snd unadj) alpha_default)
                          unadj /\
    figures (snd (plot_mutation_spectrum chi2 df1 df2 (l0 :: l1 :: ls) colors
                                         indels save w))
    = figures w
      ++ [map (Bar (arange (List.length (fractions (sort_dict a1))))
                   (fractions (sort_dict a1)) width l0)
              colors].
Proof.
  intros chi2 df1 df2 l0 l1 ls colors indels save w a1 b1 unadj Hloop Hlen.
  destruct colors as [|c0 [|c1 cs]]; [| |simpl in Hlen; lia].
  - rewrite (plot_run_no_color _ _ _ _ _ _ _ _ _ _ _ _ Hloop). repeat split.
  - rewrite (plot_run_one_color _ _ _ _ _ _ _ _ _ _ _ _ _ Hloop).
    repeat split.
Qed.

(** The theorem above on the example frames with a single color. *)
Lemma missing_color_fails_after_the_report_witness :
  (List.length ["dodgerblue"] < 2)%nat /\
  fst (plot_mutation_spectrum chi2_proxy 0 1 ["a"; "b"] ["dodgerblue"]
                              false None example_world)
  = Raise IndexError.
Proof.
  assert (Hlen : (List.length ["dodgerblue"] < 2)%nat) by (simpl; lia).
  assert (Hloop : enrichment_loop chi2_proxy
                    (count_mutations false (frames example_world 0%nat))
                    (count_mutations false (frames example_world 1%nat))
                  = Ok ([("T>C", 3); ("T>A", 1)], [("T>C", 1); ("T>A", 3)],
                        [("T>C", 256 # 768); ("T>A", 256 # 768)]%Q))
    by (vm_compute; reflexivity).
  split; [exact Hlen|].
  exact (proj1 (missing_color_fails_after_the_report
                  chi2_proxy 0 1 "a" "b" [] ["dodgerblue"] false None
                  example_world _ _ _ Hloop Hlen)).
Defined.

(** * The cells that call the function *)

(** ** The order of binary64 numbers *)

Section FloatOrder.

Lemma compare_cont_swap (p q : BinNums.positive) :
  Pos.compare_cont Eq q p = CompOpp (Pos.compare_cont Eq p q).
Proof. rewrite Pos.compare_cont_antisym. reflexivity. Qed.

Lemma SFcompare_antisym (x y : spec_float) :
  SFcompare y x = option_map CompOpp (SFcompare x y).
Proof.
  destruct x as [sx|sx| |sx mx ex], y as [sy|sy| |sy my ey];
    try destruct sx; try destruct sy; simpl; try reflexivity.
  - rewrite (Z.compare_antisym ex ey), (compare_cont_swap mx my).
    destruct (ex ?= ey); simpl; try reflexivity.
  - rewrite (Z.compare_antisym ex ey), (compare_cont_swap mx my).
    destruct (ex ?= ey); simpl; try reflexivity.
Qed.

Lemma SFcompare_refl (x : spec_float) :
  SFcompare x x = match x with S754_nan => None | _ => Some Eq end.
Proof.
  destruct x as [s|s| |s m e]; try destruct s; simpl; try reflexivity;
    rewrite Z.compare_refl;
    change (Pos.compare_cont Eq m m) with (Pos.compare m m);
    rewrite Pos.compare_refl; reflexivity.
Qed.

Lemma is_nan_spec (x : float) :
  PrimFloat.is_nan x = true <-> Prim2SF x = S754_nan.
Proof.
  unfold PrimFloat.is_nan. rewrite FloatAxioms.eqb_spec. unfold SFeqb.
  rewrite SFcompare_refl. destruct (Prim2SF x); simpl; split; congruence.
Qed.

Lemma SFcompare_None (x y : spec_float) :
  SFcompare x y = None <-> x = S754_nan \/ y = S754_nan.
Proof.
  destruct x as [sx|sx| |sx mx ex], y as [sy|sy| |sy my ey];
    try destruct sx; try destruct sy; simpl;
    split; try discriminate; try tauto; intros [H|H]; discriminate.
Qed.

(** For numbers, [x < c] is the negation of [c <= x]. *)
Lemma ltb_leb (x c : float) :
  PrimFloat.is_nan x = false -> PrimFloat.is_nan c = false ->
  PrimFloat.ltb x c = negb (PrimFloat.leb c x).
Proof.
  intros Hx Hc. rewrite ltb_spec, leb_spec. unfold SFltb, SFleb.
  rewrite (SFcompare_antisym (Prim2SF x) (Prim2SF c)).
  destruct (SFcompare (Prim2SF x) (Prim2SF c)) as [[| |]|] eqn:E;
    simpl; try reflexivity.
  exfalso. apply SFcompare_None in E.
  destruct E as [E|E]; apply is_nan_spec in E; congruence.
Qed.

(** A NaN is neither below, nor at most, nor at least anything. *)
Lemma nan_compares_false (x c : float) :
  PrimFloat.is_nan x = true ->
  PrimFloat.ltb x c = false /\ PrimFloat.leb x c = false /\
  PrimFloat.leb c x = false.
Proof.
  intros Hx. apply is_nan_spec in Hx.
  rewrite ltb_spec, !leb_spec. unfold SFltb, SFleb. rewrite Hx.
  simpl. destruct (Prim2SF c); simpl; auto.
Qed.

Lemma SFcompare_le_lt_trans (x y z : spec_float) :
  SFcompare x y = Some Lt \/ SFcompare x y = Some Eq ->
  SFcompare y z = Some Lt -> SFcompare x z = Some Lt.
Proof.
  destruct x as [sx|sx| |sx mx ex], y as [sy|sy| |sy my ey],
           z as [sz|sz| |sz mz ez];
    try destruct sx; try destruct sy; try destruct sz; simpl;
    intros [H1|H1] H2; try discriminate; try reflexivity;
    change (Pos.compare_cont Eq) with Pos.compare in *;
    repeat match goal with
           | H : context [Z.compare ?a ?b] |- _ =>
               destruct (Z.compare_spec a b); simpl in H; try discriminate
           | H : context [Pos.compare ?a ?b] |- _ =>
               destruct (Pos.compare_spec a b); simpl in H; try discriminate
           end;
    repeat match goal with
           | |- context [Z.compare ?a ?b] =>
               destruct (Z.compare_spec a b); simpl; try lia
           | |- context [Pos.compare ?a ?b] =>
               destruct (Pos.compare_spec a b); simpl; try lia
           end;
    try reflexivity; try lia.
Qed.

(** Nothing is at most [lo] and at least [hi] when [lo < hi]. *)
Lemma leb_ltb_disjoint (x lo hi : float) :
  PrimFloat.ltb lo hi = true ->
  PrimFloat.leb x lo = true -> PrimFloat.leb hi x = false.
Proof.
  rewrite ltb_spec, !leb_spec. unfold SFltb, SFleb. intros Hlh Hxl.
  assert (H1 : SFcompare (Prim2SF x) (Prim2SF lo) = Some Lt \/
               SFcompare (Prim2SF x) (Prim2SF lo) = Some Eq).
  { destruct (SFcompare (Prim2SF x) (Prim2SF lo)) as [[| |]|];
      try discriminate; auto. }
  assert (H2 : SFcompare (Prim2SF lo) (Prim2SF hi) = Some Lt).
  { destruct (SFcompare (Prim2SF lo) (Prim2SF hi)) as [[| |]|];
      try discriminate; auto. }
  pose proof (SFcompare_le_lt_trans _ _ _ H1 H2) as H3.
  rewrite (SFcompare_antisym (Prim2SF x) (Prim2SF hi)), H3. reflexivity.
Qed.

End FloatOrder.

(** ** Selections and what the function counts of them *)

Section Selections.
Import Dict DictFacts.

Lemma length_filter_ext {A : Type} (p q : A -> bool) (l : list A) :
  (forall x, In x l -> p x = q x) ->
  List.length (filter p l) = List.length (filter q l).
Proof.
  induction l as [|x l IH]; intros H; simpl; [reflexivity|].
  rewrite (H x) by (simpl; auto).
  specialize (IH (fun y Hy => H y (or_intror Hy))).
  destruct (q x); simpl; now rewrite IH.
Qed.

Lemma length_filter_filter {A : Type} (p q : A -> bool) (l : list A) :
  List.length (filter q (filter p l))
  = List.length (filter (fun x => p x && q x) l).
Proof.
  induction l as [|x l IH]; simpl; [reflexivity|].
  destruct (p x); simpl; [destruct (q x); simpl; now rewrite IH | exact IH].
Qed.

Lemma length_filter_map {A B : Type} (f : A -> B) (p : B -> bool)
      (l : list A) :
  List.length (filter p (map f l))
  = List.length (filter (fun x => p (f x)) l).
Proof.
  induction l as [|x l IH]; simpl; [reflexivity|].
  destruct (p (f x)); simpl; now rewrite IH.
Qed.

Lemma length_filter_disjoint {A : Type} (p q : A -> bool) (l : list A) :
  (forall x, In x l -> p x = true -> q x = false) ->
  (List.length (filter p l) + List.length (filter q l)
   = List.length (filter (fun x => p x || q x) l))%nat.
Proof.
  induction l as [|x l IH]; intros H; simpl; [reflexivity|].
  specialize (IH (fun y Hy => H y (or_intror Hy))).
  pose proof (H x (or_introl eq_refl)) as Hx.
  destruct (p x); simpl; [rewrite Hx by reflexivity; simpl; lia|].
  destruct (q x); simpl; lia.
Qed.

(** With indels included only the chromosome decides. *)
Lemma retained_true (d : dnm) :
  retained_row true (mkRow (dnm_chrom d) (dnm_mut d)) = is_autosomal d.
Proof.
  unfold retained_row, is_autosomal. simpl.
  destruct (dnm_chrom d =? "X")%string; reflexivity.
Qed.

Lemma reported_total_query (p : dnm -> bool) (df : list dnm) :
  reported_total true (query p df)
  = number_of (fun d => p d && is_autosomal d) df.
Proof.
  unfold reported_total, number_of, query, as_rows.
  rewrite sum_count_mutations. f_equal. unfold retained.
  rewrite length_filter_map, length_filter_filter.
  apply length_filter_ext. intros d _. now rewrite retained_true.
Qed.

Lemma spec_count_as_rows (m : string) (df : list dnm) :
  spec_count true m (as_rows df)
  = number_of (fun d => is_autosomal d && (dnm_mut d =? m)%string) df.
Proof.
  unfold number_of. induction df as [|d df IH]; [reflexivity|].
  cbn [as_rows map spec_count chrom mut filter]. fold (as_rows df).
  rewrite IH. unfold is_autosomal at 2.
  destruct (dnm_chrom d =? "X")%string; simpl; [lia|].
  rewrite andb_false_r.
  destruct (dnm_mut d =? m)%string; simpl List.length; lia.
Qed.

Lemma count_query (p : dnm -> bool) (m : string) (df : list dnm) :
  count m (count_mutations true (as_rows (query p df)))
  = number_of (fun d => p d && (is_autosomal d && (dnm_mut d =? m)%string))
              df.
Proof.
  unfold count_mutations. rewrite count_fold. unfold count. simpl.
  rewrite spec_count_as_rows. unfold number_of, query.
  now rewrite length_filter_filter.
Qed.

Lemma site_eqb_eq (s t : site) : site_eqb s t = true <-> s = t.
Proof.
  destruct s as [[c1 s1] e1], t as [[c2 s2] e2]. unfold site_eqb. simpl.
  rewrite !andb_true_iff, String.eqb_eq, !Z.eqb_eq.
  split; [intros [[-> ->] ->]; reflexivity | intros [= -> -> ->]; auto].
Qed.

Lemma seen_In (s : site) (seen : list site) :
  existsb (site_eqb s) seen = true <-> In s seen.
Proof.
  rewrite existsb_exists. split.
  - intros (t & Ht & E). apply site_eqb_eq in E. now subst.
  - intros H. exists s. split; [exact H | now apply site_eqb_eq].
Qed.

Lemma drop_duplicates_seen_sites (df : list dnm) :
  forall (seen : list site) (s : site),
    In s (map site_of (drop_duplicates_seen seen df))
    <-> In s (map site_of df) /\ ~ In s seen.
Proof.
  induction df as [|d df IH]; intros seen s; simpl; [tauto|].
  destruct (existsb (site_eqb (site_of d)) seen) eqn:E.
  - apply seen_In in E. rewrite IH. intuition congruence.
  - assert (Hd : ~ In (site_of d) seen)
      by (rewrite <- seen_In; congruence).
    simpl. rewrite IH. simpl.
    destruct (site_eqb (site_of d) s) eqn:Es.
    + apply site_eqb_eq in Es. subst s. tauto.
    + assert (site_of d <> s)
        by (intros Heq; apply site_eqb_eq in Heq; congruence).
      tauto.
Qed.

Lemma drop_duplicates_seen_NoDup (df : list dnm) :
  forall seen : list site,
    NoDup (map site_of (drop_duplicates_seen seen df)).
Proof.
  induction df as [|d df IH]; intros seen; simpl; [constructor|].
  destruct (existsb (site_eqb (site_of d)) seen); [apply IH|].
  simpl. constructor; [|apply IH].
  rewrite drop_duplicates_seen_sites. simpl. tauto.
Qed.

Lemma drop_duplicates_seen_first (df : list dnm) :
  forall (seen : list site) (d : dnm),
    In d (drop_duplicates_seen seen df)
    <-> ~ In (site_of d) seen /\
        find (fun d' => site_eqb (site_of d') (site_of d)) df = Some d.
Proof.
  induction df as [|d0 df IH]; intros seen d; simpl.
  - split; [tauto | intros [_ H]; discriminate].
  - destruct (existsb (site_eqb (site_of d0)) seen) eqn:E.
    + apply seen_In in E. rewrite IH.
      destruct (site_eqb (site_of d0) (site_of d)) eqn:Es.
      * apply site_eqb_eq in Es. rewrite <- Es. tauto.
      * tauto.
    + assert (Hd : ~ In (site_of d0) seen)
        by (rewrite <- seen_In; congruence).
      simpl. rewrite IH. simpl.
      destruct (site_eqb (site_of d0) (site_of d)) eqn:Es.
      * apply site_eqb_eq in Es. split.
        -- intros [->|[H _]]; [tauto | tauto].
        -- intros [H [= ->]]. auto.
      * assert (site_of d0 <> site_of d)
          by (intros Heq; apply site_eqb_eq in Heq; congruence).
        split.
        -- intros [->|[H1 H2]]; [congruence | tauto].
        -- intros [H1 H2]. right. tauto.
Qed.

Lemma drop_duplicates_seen_fixed (df : list dnm) :
  forall seen : list site,
    NoDup (map site_of df) ->
    (forall d, In d df -> ~ In (site_of d) seen) ->
    drop_duplicates_seen seen df = df.
Proof.
  induction df as [|d df IH]; intros seen Hnd Hseen; simpl; [reflexivity|].
  inversion Hnd as [|? ? Hd Hnd']; subst.
  destruct (existsb (site_eqb (site_of d)) seen) eqn:E.
  - apply seen_In in E. exfalso. apply (Hseen d); simpl; auto.
  - f_equal. apply IH; [exact Hnd'|].
    intros d' Hd' [Heq|Hin].
    + apply Hd. rewrite Heq. now apply in_map.
    + apply (Hseen d'); simpl; auto.
Qed.

End Selections.

(** ** The sets of DNMs the cells pass in *)

Section Cells.
Import Dict DictFacts.

Lemma ltb_not_leb (x y : float) :
  PrimFloat.ltb x y = true -> PrimFloat.leb y x = false.
Proof.
  rewrite ltb_spec, leb_spec. unfold SFltb, SFleb.
  rewrite (SFcompare_antisym (Prim2SF x) (Prim2SF y)).
  destruct (SFcompare (Prim2SF x) (Prim2SF y)) as [[| |]|];
    simpl; congruence.
Qed.

Lemma In_query (p : dnm -> bool) (df : list dnm) (d : dnm) :
  In d (query p df) <-> In d df /\ p d = true.
Proof. unfold query. apply filter_In. Qed.

Lemma phase_is_disjoint (d : dnm) :
  phase_is "paternal" d = true -> phase_is "maternal" d = false.
Proof.
  unfold phase_is. destruct (dnm_phase d) as [q|]; [|discriminate].
  intros H. apply String.eqb_eq in H. subst q. reflexivity.
Qed.

Lemma reported_total_pair (p q : dnm -> bool) (df : list dnm) :
  (forall d, In d df -> p d = true -> q d = false) ->
  reported_total true (query p df) + reported_total true (query q df)
  = number_of (fun d => (p d || q d) && is_autosomal d) df.
Proof.
  intros Hpq. rewrite !reported_total_query. unfold number_of.
  rewrite <- Nat2Z.inj_add. f_equal.
  rewrite length_filter_disjoint.
  - apply length_filter_ext. intros d _.
    destruct (p d), (q d), (is_autosomal d); reflexivity.
  - intros d Hd H. apply andb_true_iff in H. destruct H as [H _].
    rewrite (Hpq d Hd H). reflexivity.
Qed.

Lemma length_filter_drop_duplicates_seen (p : dnm -> bool) (df : list dnm) :
  forall seen : list site,
    (List.length (filter p (drop_duplicates_seen seen df))
     <= List.length (filter p df))%nat.
Proof.
  induction df as [|d df IH]; intros seen; simpl; [lia|].
  destruct (existsb (site_eqb (site_of d)) seen); simpl.
  - specialize (IH seen). destruct (p d); simpl; lia.
  - specialize (IH (site_of d :: seen)). destruct (p d); simpl; lia.
Qed.

Lemma reported_total_length (indels : bool) (df : list dnm) :
  reported_total indels df
  = number_of (fun d => retained_row indels (mkRow (dnm_chrom d) (dnm_mut d)))
              df.
Proof.
  unfold reported_total, number_of, as_rows.
  rewrite sum_count_mutations. f_equal. unfold retained.
  apply length_filter_map.
Qed.

End Cells.

(** X11. The paternal and maternal sets of the phase cells have no row in
    common, a row without a phase is in neither, each category's count in a
    set is the number of autosomal rows of that phase and category, and the
    two reported totals add up to the number of autosomal rows phased to
    either parent. *)
Theorem phase_sets_split_the_phased_rows :
  forall (df : list dnm) (m : string),
    (forall d, In d (fst (phase_sets df)) -> ~ In d (snd (phase_sets df))) /\
    (forall d, dnm_phase d = None ->
               ~ In d (fst (phase_sets df)) /\ ~ In d (snd (phase_sets df))) /\
    Dict.count m (count_mutations true (as_rows (fst (phase_sets df))))
    = number_of (fun d => phase_is "paternal" d
                          && (is_autosomal d && (dnm_mut d =? m)%string)) df /\
    Dict.count m (count_mutations true (as_rows (snd (phase_sets df))))
    = number_of (fun d => phase_is "maternal" d
                          && (is_autosomal d && (dnm_mut d =? m)%string)) df /\
    reported_total true (fst (phase_sets df))
    + reported_total true (snd (phase_sets df))
    = number_of (fun d => (phase_is "paternal" d || phase_is "maternal" d)
                          && is_autosomal d) df.
Proof.
  intros df m. unfold phase_sets. cbn [fst snd].
  split; [|split; [|split; [|split]]].
  - intros d H1 H2. apply In_query in H1, H2.
    destruct H1 as [_ H1], H2 as [_ H2].
    rewrite (phase_is_disjoint d H1) in H2. discriminate.
  - intros d Hd. split; intros H; apply In_query in H; destruct H as [_ H];
      unfold phase_is in H; rewrite Hd in H; discriminate.
  - apply count_query.
  - apply count_query.
  - apply reported_total_pair. intros d _. apply phase_is_disjoint.
Qed.

(** X12. At a cut that is a number, the two sets of a median cell split the
    rows whose age is known: such a row is in exactly one of them, a row
    whose age is missing is in neither, and the two reported totals add up
    to the number of autosomal rows with a known age. *)
Theorem median_sets_split_the_rows_with_known_age :
  forall (col : dnm -> float) (c : float) (df : list dnm),
    PrimFloat.is_nan c = false ->
    (forall d, PrimFloat.is_nan (col d) = false ->
               age_lt col c d = negb (age_ge col c d)) /\
    (forall d, PrimFloat.is_nan (col d) = true ->
               ~ In d (fst (median_sets col c df)) /\
               ~ In d (snd (median_sets col c df))) /\
    reported_total true (fst (median_sets col c df))
    + reported_total true (snd (median_sets col c df))
    = number_of (fun d => negb (PrimFloat.is_nan (col d)) && is_autosomal d)
                df.
Proof.
  intros col c df Hc. unfold median_sets. cbn [fst snd].
  split; [|split].
  - intros d Hd. unfold age_lt, age_ge. now apply ltb_leb.
  - intros d Hd. destruct (nan_compares_false (col d) c Hd) as (H1 & _ & H3).
    split; intros H; apply In_query in H; destruct H as [_ H];
      unfold age_lt, age_ge in H; congruence.
  - rewrite reported_total_pair.
    + unfold number_of. f_equal. apply length_filter_ext. intros d _.
      f_equal. unfold age_lt, age_ge.
      destruct (PrimFloat.is_nan (col d)) eqn:Hd.
      * destruct (nan_compares_false (col d) c Hd) as (-> & _ & ->).
        reflexivity.
      * rewrite (ltb_leb (col d) c Hd Hc).
        destruct (PrimFloat.leb c (col d)); reflexivity.
    + intros d _. unfold age_lt, age_ge. intros H.
      now apply ltb_not_leb.
Qed.

(** The theorem above at the paternal cut of the notebook, 29.2, on the
    example table. *)
Lemma median_sets_split_the_rows_with_known_age_witness :
  PrimFloat.is_nan 29.2%float = false /\
  reported_total true
    (fst (median_sets paternal_age_at_birth 29.2%float example_dnms))
  + reported_total true
      (snd (median_sets paternal_age_at_birth 29.2%float example_dnms))
  = 3.
Proof.
  split; [reflexivity|].
  rewrite (proj2 (proj2 (median_sets_split_the_rows_with_known_age
                           paternal_age_at_birth 29.2%float example_dnms
                           eq_refl))).
  vm_compute. reflexivity.
Defined.

(** X13. When the lower cut is below the upper cut, the two sets of a
    quartile cell have no row in common, a row whose age lies strictly
    between the cuts is in neither, and the two reported totals add up to
    the number of autosomal rows at or below the lower cut or at or above
    the upper one. *)
Theorem quartile_sets_are_disjoint :
  forall (col : dnm -> float) (lo hi : float) (df : list dnm),
    PrimFloat.ltb lo hi = true ->
    (forall d, In d (fst (quartile_sets col lo hi df)) ->
               ~ In d (snd (quartile_sets col lo hi df))) /\
    (forall d, PrimFloat.ltb lo (col d) = true ->
               PrimFloat.ltb (col d) hi = true ->
               ~ In d (fst (quartile_sets col lo hi df)) /\
               ~ In d (snd (quartile_sets col lo hi df))) /\
    reported_total true (fst (quartile_sets col lo hi df))
    + reported_total true (snd (quartile_sets col lo hi df))
    = number_of (fun d => (age_le col lo d || age_ge col hi d)
                          && is_autosomal d) df.
Proof.
  intros col lo hi df Hlh. unfold quartile_sets. cbn [fst snd].
  split; [|split].
  - intros d H1 H2. apply In_query in H1, H2.
    destruct H1 as [_ H1], H2 as [_ H2]. unfold age_le, age_ge in *.
    rewrite (leb_ltb_disjoint (col d) lo hi Hlh H1) in H2. discriminate.
  - intros d H1 H2. apply ltb_not_leb in H1, H2.
    split; intros H; apply In_query in H; destruct H as [_ H];
      unfold age_le, age_ge in H; congruence.
  - apply reported_total_pair. intros d _. unfold age_le, age_ge.
    apply leb_ltb_disjoint. exact Hlh.
Qed.

(** The theorem above at the paternal cuts of the notebook, 26.4 and 34.0,
    on the example table. *)
Lemma quartile_sets_are_disjoint_witness :
  PrimFloat.ltb 26.4%float 34.0%float = true /\
  reported_total true
    (fst (quartile_sets paternal_age_at_birth 26.4%float 34.0%float
                        example_dnms))
  + reported_total true
      (snd (quartile_sets paternal_age_at_birth 26.4%float 34.0%float
                          example_dnms))
  = 2.
Proof.
  split; [reflexivity|].
  rewrite (proj2 (proj2 (quartile_sets_are_disjoint
                           paternal_age_at_birth 26.4%float 34.0%float
                           example_dnms eq_refl))).
  vm_compute. reflexivity.
Defined.

(** X14. Dropping duplicates keeps, of the rows of each site (chromosome,
    start, end), exactly the first: the result has no site twice and every
    site of the input, dropping again changes nothing, and the total the
    function reports for the result is never above that of the input. *)
Theorem drop_duplicates_keeps_the_first_row_of_each_site :
  forall (df : list dnm),
    NoDup (map site_of (drop_duplicates df)) /\
    (forall s, In s (map site_of (drop_duplicates df))
               <-> In s (map site_of df)) /\
    (forall d, In d (drop_duplicates df)
               <-> find (fun d' => site_eqb (site_of d') (site_of d)) df
                   = Some d) /\
    drop_duplicates (drop_duplicates df) = drop_duplicates df /\
    (forall indels, reported_total indels (drop_duplicates df)
                    <= reported_total indels df).
Proof.
  intros df. unfold drop_duplicates.
  split; [|split; [|split; [|split]]].
  - apply drop_duplicates_seen_NoDup.
  - intros s. rewrite drop_duplicates_seen_sites. simpl. tauto.
  - intros d. rewrite drop_duplicates_seen_first. simpl. tauto.
  - apply drop_duplicates_seen_fixed.
    + apply drop_duplicates_seen_NoDup.
    + intros d _ H. exact H.
  - intros indels. rewrite !reported_total_length. unfold number_of.
    apply inj_le. apply length_filter_drop_duplicates_seen.
Qed.

(** ** When the second set brings new categories *)

(** X15. When the first set has two categories or more and the second set
    has a category that the first lacks, a call whose tests all return
    fails at the second [ax.bar], which gets more heights than positions:
    it raises [ValueError] after the whole report has been printed and the
    bars of the first set have been drawn, and nothing else is put on the
    figure. *)
Theorem second_bar_refuses_new_categories :
  forall (chi2 : chi2_fun) (df1 df2 : nat) (l0 l1 c0 c1 : string)
         (ls cs : list string) (indels : bool) (save : option string)
         (w : world) (a1 b1 : Dict.t) (unadj : list (string * Q)),
    enrichment_loop chi2 (count_mutations indels (frames w df1))
                    (count_mutations indels (frames w df2))
    = Ok (a1, b1, unadj) ->
    (2 <= List.length (count_mutations indels (frames w df1)))%nat ->
    ~ incl (Dict.keys (count_mutations indels (frames w df2)))
           (Dict.keys (count_mutations indels (frames w df1))) ->
    plot_mutation_spectrum chi2 df1 df2 (l0 :: l1 :: ls) (c0 :: c1 :: cs)
                           indels save w
    = (Raise ValueError,
       mkWorld (frames w)
               (stdout w
                ++ totals_lines l0 l1
                     (count_mutations indels (frames w df1))
                     (count_mutations indels (frames w df2))
                ++ enrichment_lines
                     (fdrcorrection (map snd unadj) alpha_default) unadj)
               (figures w
                ++ [[Bar (arange (List.length (fractions (sort_dict a1))))
                         (fractions (sort_dict a1)) width l0 c0]])).
Proof.
  intros chi2 df1 df2 l0 l1 c0 c1 ls cs indels save w a1 b1 unadj Hloop
         Hlen Hnew.
  apply (plot_run_bar_raise chi2 df1 df2 l0 l1 c0 c1 ls cs indels save w
                            a1 b1 unadj Hloop).
  destruct (bar_counts chi2 _ _ a1 b1 unadj
                       (NoDup_count_mutations indels (frames w df1))
                       (NoDup_count_mutations indels (frames w df2)) Hloop)
    as (Hla & Hle & Hiff).
  rewrite (length_fractions (sort_dict a1)) in Hla, Hle, Hiff.
  rewrite (length_fractions (sort_dict b1)) in Hle, Hiff.
  unfold broadcastable. rewrite !orb_false_iff, !Nat.eqb_neq.
  assert (Hne : List.length (sort_dict a1) <> List.length (sort_dict b1))
    by (intros E; apply Hnew; now apply Hiff).
  lia.
Qed.

(** The theorem above on a first set with two categories and a second set
    with a third. *)
Lemma second_bar_refuses_new_categories_witness :
  fst (plot_mutation_spectrum chi2_proxy 0 1 default_labels default_colors
                              false None
                              (world_of (autosomal ["T>C"; "T>A"])
                                        (autosomal ["T>C"; "T>A"; "C>G"])))
  = Raise ValueError /\
  figures (snd (plot_mutation_spectrum
                  chi2_proxy 0 1 default_labels default_colors false None
                  (world_of (autosomal ["T>C"; "T>A"])
                            (autosomal ["T>C"; "T>A"; "C>G"]))))
  = [[Bar [0%float; 1%float] [0.5%float; 0.5%float] width "a" "#66c2a5"]].
Proof.
  assert (Hloop : exists ps,
             enrichment_loop chi2_proxy
               (count_mutations false (autosomal ["T>C"; "T>A"]))
               (count_mutations false (autosomal ["T>C"; "T>A"; "C>G"]))
             = Ok (count_mutations false (autosomal ["T>C"; "T>A"]),
                   count_mutations false (autosomal ["T>C"; "T>A"; "C>G"]),
                   ps)).
  { eexists. vm_compute. reflexivity. }
  destruct Hloop as (ps & Hloop).
  assert (Hlen : (2 <= List.length
                         (count_mutations false (autosomal ["T>C"; "T>A"])))
                 %nat) by (vm_compute; lia).
  assert (Hnew : ~ incl (Dict.keys (count_mutations
                                      false
                                      (autosomal ["T>C"; "T>A"; "C>G"])))
                        (Dict.keys (count_mutations
                                      false (autosomal ["T>C"; "T>A"])))).
  { intros H. specialize (H "C>G"). vm_compute in H.
    destruct H as [H|[H|[]]]; [tauto | discriminate | discriminate]. }
  unfold default_labels, default_colors.
  rewrite (second_bar_refuses_new_categories
             chi2_proxy 0 1 "a" "b" "#66c2a5" "#fc8d62" [] [] false None
             (world_of (autosomal ["T>C"; "T>A"])
                       (autosomal ["T>C"; "T>A"; "C>G"]))
             _ _ _ Hloop Hlen Hnew).
  split; [reflexivity|]. vm_compute. reflexivity.
Defined.
